(** * ConcurrentSource.read: the driver loop of the concurrent source

    A shallow embedding of
    [airbyte_cdk/sources/concurrent_source/concurrent_source.py].

    The driver is the single consumer of a queue that worker tasks fill.  It
    is a Python generator: every [yield], log line, task submission, timer
    call and cursor call is recorded, in program order, in a trace of
    [Effect]s.  What the workers and the clock decide (the items popped from
    the queue, the answer of the futures poll, the messages workers put into
    the message repository, a pop that times out) is the list of [Event]s the
    run is given. *)

From stdpp Require Import gmap strings list fin_maps fin_sets.

Local Open Scope string_scope.
Local Open Scope nat_scope.
Local Open Scope list_scope.

(** ** Data *)

Inductive AirbyteStreamStatus := STARTED | RUNNING | COMPLETE | INCOMPLETE.

#[global] Instance AirbyteStreamStatus_eq_dec : EqDecision AirbyteStreamStatus.
Proof. solve_decision. Defined.

(** The payload of a record is opaque to the driver. *)
Definition StreamData := string.

(** A partition: hashable, comparable, knows its stream and its slice. *)
Module Partition.
Record t := mk { stream_name : string; to_slice : string }.

#[global] Instance eq_dec : EqDecision t.
Proof. solve_decision. Defined.

#[global] Instance countable : Countable t :=
  inj_countable' (λ p, (stream_name p, to_slice p)) (λ q, mk q.1 q.2)
    (λ p, match p with mk _ _ => eq_refl end).
End Partition.

(** What the driver uses of an [AbstractStream]: its name, the namespace of
    [as_airbyte_stream()], and the answer of [check_availability()]. *)
Module AbstractStream.
Record t := mk {
  name : string;
  namespace : option string;
  is_available : bool;
  message : string;
}.
End AbstractStream.

(** What the message repository buffers: the slice log messages the driver
    emits, and whatever worker tasks emit. *)
Inductive RepositoryMessage :=
| create_slice_log_message (slice : string)
| worker_message (body : string).

(** The messages [read] yields, kept as the call that builds them. *)
Inductive AirbyteMessage :=
| stream_status_as_airbyte_message
    (stream_name : string) (namespace : option string) (status : AirbyteStreamStatus)
| stream_data_to_airbyte_message (stream_name : string) (data : StreamData)
| consumed_from_repository (m : RepositoryMessage).

(** [self.streams(config)] returns stream objects; only a [StreamFacade]
    wraps an abstract stream. *)
Inductive Stream :=
| StreamFacade (_abstract_stream : AbstractStream.t)
| OtherStream (repr : string).

Record ConcurrentSource := {
  name : string;
  _max_workers : nat;
  _timeout_seconds : option nat;
  streams : list Stream;
  (** what [self._message_repository] holds when [read] is called *)
  _message_repository : list RepositoryMessage;
  raise_exception_on_missing_stream : bool;
  (** [self._slice_logger.should_log_slice_message(logger)] *)
  should_log_slice_message : bool;
}.

Inductive Exn :=
| KeyError (key : string)
| IndexError
| ValueError (what : string)
| QueueEmpty
| WorkerError (what : string).

(** The values the queue carries, in the order [read] tests for them. *)
Inductive QueueItem :=
| ItemException (e : Exn)
| PartitionGenerationCompletedSentinel (stream_name : string)
| ItemPartition (partition : Partition.t)
| PartitionCompleteSentinel (partition : Partition.t)
| ItemRecord (stream_name : string) (data : StreamData).

Inductive Task :=
| generate_partitions (stream_name : string)
| process_partition (partition : Partition.t).

Inductive LogLine :=
| Starting_syncing (source : string)
| Skipped_syncing_stream (stream reason : string)
| Marking_stream_as_STARTED (stream : string)
| Syncing_stream (stream : string)
| Marking_stream_as_RUNNING (stream : string)
| Read_records_from_stream (count : nat) (stream : string)
| Marking_stream_as_STOPPED (stream : string)
| Finished_syncing (what : string)
| timer_report.

Inductive Effect :=
| Yield (m : AirbyteMessage)
| logger_info (l : LogLine)
| logger_warning (l : LogLine)
| submit (t : Task)
| shutdown (* shutdown(wait=False, cancel_futures=True) *)
| timer_start_event (stream : string)
| timer_finish_event (stream : string)
| cursor_observe (stream : string) (data : StreamData)
| cursor_close_partition (stream : string) (partition : Partition.t).

(** The locals of [read] that the loop and its helpers mutate, and the
    message repository. *)
Record State := mkState {
  futures : list Task;
  partition_generator_running : list string;
  partition_generators : list string;
  streams_to_partitions_to_done : gmap string (gmap Partition.t bool);
  record_counter : gmap string nat;
  streams_in_progress : gset string;
  total_records_counter : nat;
  message_queue : list RepositoryMessage;
}.

Definition set_futures (f : list Task → list Task) (st : State) : State :=
  mkState (f (futures st)) (partition_generator_running st) (partition_generators st)
    (streams_to_partitions_to_done st) (record_counter st) (streams_in_progress st)
    (total_records_counter st) (message_queue st).

Definition set_partition_generator_running (f : list string → list string) (st : State) : State :=
  mkState (futures st) (f (partition_generator_running st)) (partition_generators st)
    (streams_to_partitions_to_done st) (record_counter st) (streams_in_progress st)
    (total_records_counter st) (message_queue st).

Definition set_partition_generators (f : list string → list string) (st : State) : State :=
  mkState (futures st) (partition_generator_running st) (f (partition_generators st))
    (streams_to_partitions_to_done st) (record_counter st) (streams_in_progress st)
    (total_records_counter st) (message_queue st).

Definition set_streams_to_partitions_to_done
    (f : gmap string (gmap Partition.t bool) → gmap string (gmap Partition.t bool))
    (st : State) : State :=
  mkState (futures st) (partition_generator_running st) (partition_generators st)
    (f (streams_to_partitions_to_done st)) (record_counter st) (streams_in_progress st)
    (total_records_counter st) (message_queue st).

Definition set_record_counter (f : gmap string nat → gmap string nat) (st : State) : State :=
  mkState (futures st) (partition_generator_running st) (partition_generators st)
    (streams_to_partitions_to_done st) (f (record_counter st)) (streams_in_progress st)
    (total_records_counter st) (message_queue st).

Definition set_streams_in_progress (f : gset string → gset string) (st : State) : State :=
  mkState (futures st) (partition_generator_running st) (partition_generators st)
    (streams_to_partitions_to_done st) (record_counter st) (f (streams_in_progress st))
    (total_records_counter st) (message_queue st).

Definition set_total_records_counter (f : nat → nat) (st : State) : State :=
  mkState (futures st) (partition_generator_running st) (partition_generators st)
    (streams_to_partitions_to_done st) (record_counter st) (streams_in_progress st)
    (f (total_records_counter st)) (message_queue st).

Definition set_message_queue (f : list RepositoryMessage → list RepositoryMessage)
    (st : State) : State :=
  mkState (futures st) (partition_generator_running st) (partition_generators st)
    (streams_to_partitions_to_done st) (record_counter st) (streams_in_progress st)
    (total_records_counter st) (f (message_queue st)).

(** ** The monad of the driver: state, a trace of effects, exceptions *)

Inductive Outcome (A : Type) :=
| Return (a : A) (st : State) (tr : list Effect)
| Raise (e : Exn) (st : State) (tr : list Effect).
Arguments Return {A} a st tr.
Arguments Raise {A} e st tr.

Definition outcome_result {A} (o : Outcome A) : Exn + A :=
  match o with Return a _ _ => inr a | Raise e _ _ => inl e end.
Definition outcome_state {A} (o : Outcome A) : State :=
  match o with Return _ st _ | Raise _ st _ => st end.
Definition outcome_trace {A} (o : Outcome A) : list Effect :=
  match o with Return _ _ tr | Raise _ _ tr => tr end.

(** The effects [tr] happened before those of [o]. *)
Definition prepend {A} (tr : list Effect) (o : Outcome A) : Outcome A :=
  match o with
  | Return a st tr' => Return a st (tr ++ tr')
  | Raise e st tr' => Raise e st (tr ++ tr')
  end.

Definition M (A : Type) := State → Outcome A.

Definition ret {A} (a : A) : M A := λ st, Return a st [].
Definition raise {A} (e : Exn) : M A := λ st, Raise e st [].
Definition bind {A B} (m : M A) (k : A → M B) : M B := λ st,
  match m st with
  | Return a st1 tr1 => prepend tr1 (k a st1)
  | Raise e st1 tr1 => Raise e st1 tr1
  end.
Definition get : M State := λ st, Return st st [].
Definition modify (f : State → State) : M unit := λ st, Return tt (f st) [].
Definition effect (e : Effect) : M unit := λ st, Return tt st [e].

Notation "'let*' x ':=' m 'in' k" := (bind m (λ x, k))
  (at level 10, x name, m at level 100, k at level 200).
Notation "m '>>' k" := (bind m (λ _, k))
  (at level 100, k at level 200, right associativity).

(** [d[key]] on a dict: [KeyError] when the key is missing. *)
Definition getitem {V} (d : gmap string V) (key : string) : M V :=
  match d !! key with
  | Some v => ret v
  | None => raise (KeyError key)
  end.

(** [for x in xs: body(x)] *)
Fixpoint for_each {A} (xs : list A) (body : A → M unit) : M unit :=
  match xs with
  | [] => ret tt
  | x :: xs' => body x >> for_each xs' body
  end.

(** [all(d.values())] for a dict of booleans, and its nested use in [read]. *)
Definition all_values (d : gmap Partition.t bool) : bool :=
  bool_decide (map_Forall (λ _ (done : bool), done = true) d).

Definition all_all_values (d : gmap string (gmap Partition.t bool)) : bool :=
  bool_decide (map_Forall (λ _ partition_to_done, all_values partition_to_done = true) d).

(** [l.remove(x)]: drops the first occurrence, [None] for the [ValueError]. *)
Fixpoint list_remove_first (x : string) (l : list string) : option (list string) :=
  match l with
  | [] => None
  | y :: l' => if decide (x = y) then Some l' else (y ::.) <$> list_remove_first x l'
  end.

(** ** The helpers of [ConcurrentSource] and the loop of [read] *)

Section Driver.

(** [stream_data_to_airbyte_message] is imported, not defined here: whether
    the message it builds has [type == MessageType.RECORD] is a parameter. *)
Context (message_type_is_RECORD : string → StreamData → bool).
Context (self : ConcurrentSource).
(** [stream_instances], which is also [self._stream_to_instance_map]. *)
Context (stream_instances : gmap string AbstractStream.t).

Definition max_number_of_partition_generator_in_progress : nat := 1.

Definition _submit_task (t : Task) : M unit :=
  effect (submit t) >>
  modify (set_futures (.++ [t])).

Definition _update_timer (stream : AbstractStream.t) : M unit :=
  effect (timer_finish_event (AbstractStream.name stream)) >>
  effect (logger_info (Finished_syncing (AbstractStream.name stream))).

(** The body shared by the start-up loop of [read] and
    [_handle_partition_generation_completed]: pop the next generator, mark
    its stream in progress, submit it; the STARTED message is built with
    namespace [None]. *)
Definition start_next_partition_generator : M AirbyteMessage :=
  let* st := get in
  match partition_generators st with
  | [] => raise IndexError
  | stream_partition_generator :: rest =>
      modify (set_partition_generators (λ _, rest)) >>
      modify (set_streams_in_progress ({[stream_partition_generator]} ∪.)) >>
      _submit_task (generate_partitions stream_partition_generator) >>
      modify (set_partition_generator_running (.++ [stream_partition_generator])) >>
      effect (logger_info (Marking_stream_as_STARTED stream_partition_generator)) >>
      effect (logger_info (Syncing_stream stream_partition_generator)) >>
      ret (stream_status_as_airbyte_message stream_partition_generator None STARTED)
  end.

Definition _handle_partition (partition : Partition.t) : M unit :=
  let stream_name := Partition.stream_name partition in
  let* st := get in
  let* partition_to_done := getitem (streams_to_partitions_to_done st) stream_name in
  modify (set_streams_to_partitions_to_done
            (<[stream_name := <[partition := false]> partition_to_done]>)) >>
  (if should_log_slice_message self
   then modify (set_message_queue
                  (.++ [create_slice_log_message (Partition.to_slice partition)]))
   else ret tt) >>
  _submit_task (process_partition partition).

Definition _handle_partition_generation_completed (sentinel_stream_name : string)
    : M (option AirbyteMessage) :=
  let* st := get in
  match list_remove_first sentinel_stream_name (partition_generator_running st) with
  | None => raise (ValueError sentinel_stream_name)
  | Some running =>
      modify (set_partition_generator_running (λ _, running)) >>
      let* st := get in
      match partition_generators st with
      | [] => ret None
      | _ :: _ =>
          let* status_message := start_next_partition_generator in
          ret (Some status_message)
      end
  end.

Definition _handle_partition_completed (partition : Partition.t)
    : M (option AirbyteMessage) :=
  let stream_name := Partition.stream_name partition in
  let* st := get in
  let* partition_to_done := getitem (streams_to_partitions_to_done st) stream_name in
  modify (set_streams_to_partitions_to_done
            (<[stream_name := <[partition := true]> partition_to_done]>)) >>
  let* instance := getitem stream_instances stream_name in
  effect (cursor_close_partition (AbstractStream.name instance) partition) >>
  let* st := get in
  let* partition_to_done := getitem (streams_to_partitions_to_done st) stream_name in
  if all_values partition_to_done
     && bool_decide (stream_name ∉ partition_generator_running st)
  then
    (if decide (stream_name ∈ streams_in_progress st)
     then modify (set_streams_in_progress (.∖ {[stream_name]}))
     else raise (KeyError stream_name)) >>
    let* count := getitem (record_counter st) stream_name in
    effect (logger_info (Read_records_from_stream count stream_name)) >>
    effect (logger_info (Marking_stream_as_STOPPED stream_name)) >>
    let* stream := getitem stream_instances stream_name in
    _update_timer stream >>
    ret (Some (stream_status_as_airbyte_message
                 (AbstractStream.name stream) (AbstractStream.namespace stream) COMPLETE))
  else ret None.

(** The body of the [for] loop of [_stop_streams]. *)
Definition stop_stream (stream_name : string) : M unit :=
  let* stream := getitem stream_instances stream_name in
  effect (logger_info (Marking_stream_as_STOPPED (AbstractStream.name stream))) >>
  _update_timer stream >>
  effect (Yield (stream_status_as_airbyte_message
                   (AbstractStream.name stream) (AbstractStream.namespace stream)
                   INCOMPLETE)).

Definition _stop_streams : M unit :=
  effect shutdown >>
  let* st := get in
  for_each (elements (streams_in_progress st)) stop_stream.

(** [yield from self._message_repository.consume_queue()] *)
Definition consume_queue : M unit :=
  let* st := get in
  modify (set_message_queue (λ _, [])) >>
  for_each (message_queue st) (λ m, effect (Yield (consumed_from_repository m))).

(** The [else] branch of the loop: the item is a record. *)
Definition handle_record (stream_name : string) (data : StreamData) : M unit :=
  let message := stream_data_to_airbyte_message stream_name data in
  let* stream := getitem stream_instances stream_name in
  let* st := get in
  let* count := getitem (record_counter st) (AbstractStream.name stream) in
  (if decide (count = 0)
   then effect (logger_info (Marking_stream_as_RUNNING (AbstractStream.name stream))) >>
        effect (Yield (stream_status_as_airbyte_message
                         (AbstractStream.name stream) (AbstractStream.namespace stream)
                         RUNNING))
   else ret tt) >>
  modify (set_record_counter (<[AbstractStream.name stream := count + 1]>)) >>
  effect (Yield message) >>
  (if message_type_is_RECORD stream_name data
   then modify (set_total_records_counter (λ n, n + 1))
   else ret tt) >>
  let* instance := getitem stream_instances stream_name in
  effect (cursor_observe (AbstractStream.name instance) data) >>
  consume_queue.

Inductive Control := Continue | Break.

Definition yield_if_some (status_message : option AirbyteMessage) : M unit :=
  match status_message with
  | Some m => effect (Yield m)
  | None => ret tt
  end.

(** The test that closes every iteration which did not [break] or raise;
    [futures_done] is what [all([f.done() for f in futures])] answers. *)
Definition all_done_check (futures_done : bool) : M Control :=
  let* st := get in
  if bool_decide (partition_generator_running st = [])
     && bool_decide (partition_generators st = [])
     && all_all_values (streams_to_partitions_to_done st)
  then (if futures_done then ret Break else ret Continue)
  else ret Continue.

(** One iteration of the [while] loop, for the item just popped. *)
Definition iteration (item : QueueItem) (futures_done : bool) : M Control :=
  match item with
  | ItemException e =>
      _stop_streams >> raise e
  | PartitionGenerationCompletedSentinel stream_name =>
      let* status_message := _handle_partition_generation_completed stream_name in
      yield_if_some status_message >>
      all_done_check futures_done
  | ItemPartition partition =>
      _handle_partition partition >>
      all_done_check futures_done
  | PartitionCompleteSentinel partition =>
      let* status_message := _handle_partition_completed partition in
      yield_if_some status_message >>
      let* st := get in
      if decide (streams_in_progress st = ∅) then ret Break
      else all_done_check futures_done
  | ItemRecord stream_name data =>
      handle_record stream_name data >>
      all_done_check futures_done
  end.

(** What [queue.get(block=True, timeout=...)] does next: it returns an item
    (with the futures poll of that iteration and what the workers have put
    into the message repository meanwhile), or the timeout expires. *)
Inductive Event :=
| Pop (item : QueueItem) (futures_done : bool) (emitted : list RepositoryMessage)
| TimeoutExpired.

(** How a run over finitely many events stands at their end: [read]
    returned, or the generator is blocked in [queue.get]. *)
Inductive RunEnd := Finished | Blocked.

(** The lines after the loop. *)
Definition epilogue : M RunEnd :=
  effect shutdown >>
  effect (logger_info timer_report) >>
  effect (logger_info (Finished_syncing (name self))) >>
  ret Finished.

(** An iteration, after what the workers emitted meanwhile has reached the
    message repository. *)
Definition loop_body (item : QueueItem) (futures_done : bool)
    (emitted : list RepositoryMessage) : M Control :=
  modify (set_message_queue (.++ emitted)) >>
  iteration item futures_done.

Fixpoint loop (events : list Event) : M RunEnd :=
  match events with
  | [] => ret Blocked
  | TimeoutExpired :: _ => raise QueueEmpty
  | Pop item futures_done emitted :: events' =>
      let* control := loop_body item futures_done emitted in
      match control with
      | Continue => loop events'
      | Break => epilogue
      end
  end.

(** [guard] holds of the state in which each item of [events] is popped. *)
Fixpoint guarded (guard : State → QueueItem → bool) (events : list Event) (st : State)
    : bool :=
  match events with
  | Pop item futures_done emitted :: events' =>
      guard st item &&
      match loop_body item futures_done emitted st with
      | Return Continue st' _ => guarded guard events' st'
      | _ => true
      end
  | _ => true
  end.

(** The loop that selects the streams to read from. *)
Fixpoint select_streams (catalog_streams : list string) : M (list AbstractStream.t) :=
  match catalog_streams with
  | [] => ret []
  | configured_stream :: rest =>
      match stream_instances !! configured_stream with
      | None =>
          if raise_exception_on_missing_stream self
          then raise (KeyError configured_stream)
          else select_streams rest
      | Some stream_instance =>
          if AbstractStream.is_available stream_instance
          then effect (timer_start_event configured_stream) >>
               let* selected := select_streams rest in
               ret (stream_instance :: selected)
          else effect (logger_warning
                         (Skipped_syncing_stream (AbstractStream.name stream_instance)
                            (AbstractStream.message stream_instance))) >>
               select_streams rest
      end
  end.

(** [while len(partition_generator_running) < max_...: ...]; every turn
    appends to the list, so [max_...] turns are enough. *)
Fixpoint start_partition_generators (turns : nat) : M unit :=
  let* st := get in
  if decide (length (partition_generator_running st)
             < max_number_of_partition_generator_in_progress)
  then match turns with
       | 0 => ret tt
       | S turns' =>
           let* status_message := start_next_partition_generator in
           effect (Yield status_message) >>
           start_partition_generators turns'
       end
  else ret tt.

(** From the selected streams to the first [queue.get]. *)
Definition start_reading (stream_instances_to_read_from : list AbstractStream.t) : M unit :=
  modify (set_partition_generators
            (λ _, AbstractStream.name <$> stream_instances_to_read_from)) >>
  for_each stream_instances_to_read_from (λ stream,
    modify (set_streams_to_partitions_to_done (<[AbstractStream.name stream := ∅]>)) >>
    modify (set_record_counter (<[AbstractStream.name stream := 0]>))) >>
  start_partition_generators max_number_of_partition_generator_in_progress.

End Driver.

(** [_streams_as_abstract_streams] *)
Fixpoint _streams_as_abstract_streams (streams : list Stream) : M (list AbstractStream.t) :=
  match streams with
  | [] => ret []
  | StreamFacade abstract_stream :: streams' =>
      let* rest := _streams_as_abstract_streams streams' in
      ret (abstract_stream :: rest)
  | OtherStream repr :: _ => raise (ValueError repr)
  end.

(** [{s.name: s for s in ...}]: a later stream of the same name wins. *)
Definition dict_by_name (l : list AbstractStream.t) : gmap string AbstractStream.t :=
  foldl (λ d s, <[AbstractStream.name s := s]> d) ∅ l.

Definition initial_state (self : ConcurrentSource) : State :=
  mkState [] [] [] ∅ ∅ ∅ 0 (_message_repository self).

(** Everything [read] does before its [while] loop; the result is the
    [stream_instances] dict the loop works with. *)
Definition prelude (self : ConcurrentSource) (catalog_streams : list string)
    : M (gmap string AbstractStream.t) :=
  effect (logger_info (Starting_syncing (name self))) >>
  let* abstract_streams := _streams_as_abstract_streams (streams self) in
  let stream_instances := dict_by_name abstract_streams in
  let* stream_instances_to_read_from :=
    select_streams self stream_instances catalog_streams in
  start_reading stream_instances_to_read_from >>
  ret stream_instances.

Definition read_body (message_type_is_RECORD : string → StreamData → bool)
    (self : ConcurrentSource) (catalog_streams : list string) (events : list Event)
    : M RunEnd :=
  let* stream_instances := prelude self catalog_streams in
  loop message_type_is_RECORD self stream_instances events.

(** [read], run to the end of [events] from fresh locals. *)
Definition read (message_type_is_RECORD : string → StreamData → bool)
    (self : ConcurrentSource) (catalog_streams : list string) (events : list Event)
    : Outcome RunEnd :=
  read_body message_type_is_RECORD self catalog_streams events (initial_state self).

(** ** Vocabulary of the statements *)

(** The abstract streams of a source whose streams are all facades. *)
Definition facade_streams (l : list Stream) : list AbstractStream.t :=
  omap (λ s, match s with StreamFacade a => Some a | OtherStream _ => None end) l.

Definition stream_instances_of (self : ConcurrentSource) : gmap string AbstractStream.t :=
  dict_by_name (facade_streams (streams self)).

(** The messages a trace yields, in order. *)
Definition yields (tr : list Effect) : list AirbyteMessage :=
  omap (λ e, match e with Yield m => Some m | _ => None end) tr.

Definition status_of (stream : string) (e : Effect) : option AirbyteStreamStatus :=
  match e with
  | Yield (stream_status_as_airbyte_message n _ status) =>
      if decide (n = stream) then Some status else None
  | _ => None
  end.

(** The statuses a trace yields for one stream, in order. *)
Definition statuses_of (stream : string) (tr : list Effect) : list AirbyteStreamStatus :=
  omap (status_of stream) tr.

Definition is_facade (s : Stream) : bool :=
  match s with StreamFacade _ => true | OtherStream _ => false end.

Definition names (l : list AbstractStream.t) : list string := AbstractStream.name <$> l.

(** The streams [read] reads from when its selection loop completes:
    configured, known to the source, and available, in catalog order. *)
Definition eligible_streams (stream_instances : gmap string AbstractStream.t)
    (catalog_streams : list string) : list AbstractStream.t :=
  omap (λ configured_stream,
          match stream_instances !! configured_stream with
          | Some stream_instance =>
              if AbstractStream.is_available stream_instance
              then Some stream_instance else None
          | None => None
          end) catalog_streams.

(** The effects of the selection loop: timer starts and skip warnings. *)
Definition selection_effect (e : Effect) : Prop :=
  match e with
  | timer_start_event _ | logger_warning (Skipped_syncing_stream _ _) => True
  | _ => False
  end.

(** [guard] holds at every pop of a run of [read]. *)
Definition read_guarded (message_type_is_RECORD : string → StreamData → bool)
    (self : ConcurrentSource) (catalog_streams : list string)
    (guard : State → QueueItem → bool) (events : list Event) : bool :=
  match prelude self catalog_streams (initial_state self) with
  | Return stream_instances st _ =>
      guarded message_type_is_RECORD self stream_instances guard events st
  | Raise _ _ _ => true
  end.

(** How [read] builds the status messages: STARTED with namespace [None],
    the others with the namespace of the stream instance of that name. *)
Definition status_namespace_ok (stream_instances : gmap string AbstractStream.t)
    (e : Effect) : Prop :=
  match e with
  | Yield (stream_status_as_airbyte_message stream_name namespace status) =>
      match status with
      | STARTED => namespace = None
      | RUNNING | COMPLETE | INCOMPLETE =>
          ∃ stream, stream_instances !! stream_name = Some stream ∧
                    namespace = AbstractStream.namespace stream
      end
  | _ => True
  end.

(** The number of record messages a trace yields for one stream. *)
Definition record_weight (stream : string) (e : Effect) : nat :=
  match e with
  | Yield (stream_data_to_airbyte_message n _) => if decide (n = stream) then 1 else 0
  | _ => 0
  end.

Definition records_yielded (stream : string) (tr : list Effect) : nat :=
  sum_list_with (record_weight stream) tr.

(** Every "Read n records from s" line of [t] reports the number of records
    yielded for [s] before it, [counts] being the numbers before [t]. *)
Fixpoint logs_consistent (counts : string → nat) (t : list Effect) : Prop :=
  match t with
  | [] => True
  | e :: t' =>
      match e with
      | logger_info (Read_records_from_stream n s) => n = counts s
      | _ => True
      end ∧
      logs_consistent (λ s, counts s + record_weight s e) t'
  end.

Definition is_read_log (e : Effect) : Prop :=
  match e with logger_info (Read_records_from_stream _ _) => True | _ => False end.

(** The item is a partition of [stream], the sentinel of one, or a record
    of [stream]. *)
Definition item_of_partition_of (stream : string) (item : QueueItem) : bool :=
  match item with
  | ItemPartition p | PartitionCompleteSentinel p =>
      bool_decide (Partition.stream_name p = stream)
  | ItemRecord s _ => bool_decide (s = stream)
  | _ => false
  end.

(** No partition of [stream] is ever discovered: the queue carries no
    partition, partition sentinel or record of it. *)
Definition no_partition_of (stream : string) (events : list Event) : Prop :=
  Forall (λ ev, match ev with
                | Pop item _ _ => negb (item_of_partition_of stream item) = true
                | TimeoutExpired => True
                end) events.

(** A record is popped while its stream is in [streams_in_progress]. *)
Definition record_in_progress (st : State) (item : QueueItem) : bool :=
  match item with
  | ItemRecord stream_name _ => bool_decide (stream_name ∈ streams_in_progress st)
  | _ => true
  end.

Definition records_popped_in_progress
    (message_type_is_RECORD : string → StreamData → bool)
    (self : ConcurrentSource) (catalog_streams : list string) (events : list Event)
    : bool :=
  read_guarded message_type_is_RECORD self catalog_streams record_in_progress events.

(** The prefixes of: STARTED, then RUNNING or not, then COMPLETE or
    INCOMPLETE. *)
Definition lifecycle_prefixes : list (list AirbyteStreamStatus) :=
  [[]; [STARTED]; [STARTED; RUNNING];
   [STARTED; COMPLETE]; [STARTED; INCOMPLETE];
   [STARTED; RUNNING; COMPLETE]; [STARTED; RUNNING; INCOMPLETE]].

(** Where a stream stands while the driver waits for the queue: waiting for
    discovery and silent; in progress, started and perhaps running; or
    neither, and then never started or complete. *)
Definition lifecycle_invariant (stream : string) (st : State) (tr : list Effect) : Prop :=
  NoDup (partition_generators st) ∧
  (stream ∈ partition_generators st →
     (stream ∉ streams_in_progress st) ∧ statuses_of stream tr = []) ∧
  (stream ∈ streams_in_progress st →
     statuses_of stream tr = [STARTED] ∨
     (statuses_of stream tr = [STARTED; RUNNING] ∧ record_counter st !! stream ≠ Some 0)) ∧
  (stream ∉ partition_generators st → stream ∉ streams_in_progress st →
     statuses_of stream tr ∈ [[]; [STARTED; COMPLETE]; [STARTED; RUNNING; COMPLETE]]).

(** What the test closing an iteration decides. *)
Definition all_done_control (futures_done : bool) (st : State) : Control :=
  if bool_decide (partition_generator_running st = [])
     && bool_decide (partition_generators st = [])
     && all_all_values (streams_to_partitions_to_done st)
  then (if futures_done then Break else Continue)
  else Continue.

(** What [_stop_streams] does for one stream. *)
Definition stop_effects (stream : AbstractStream.t) : list Effect :=
  [logger_info (Marking_stream_as_STOPPED (AbstractStream.name stream));
   timer_finish_event (AbstractStream.name stream);
   logger_info (Finished_syncing (AbstractStream.name stream));
   Yield (stream_status_as_airbyte_message (AbstractStream.name stream)
            (AbstractStream.namespace stream) INCOMPLETE)].

(** ** Example inputs *)

Definition example_stream_a := AbstractStream.mk "a" (Some "ns") true "".
Definition example_stream_b := AbstractStream.mk "b" None true "".
Definition example_stream_u := AbstractStream.mk "u" None false "down".

Definition example_source : ConcurrentSource := {|
  name := "source";
  _max_workers := 4;
  _timeout_seconds := Some 300;
  streams := [StreamFacade example_stream_a; StreamFacade example_stream_b;
              StreamFacade example_stream_u];
  _message_repository := [];
  raise_exception_on_missing_stream := true;
  should_log_slice_message := false;
|}.

Definition always_RECORD : string → StreamData → bool := λ _ _, true.

Definition example_partition := Partition.mk "a" "slice-1".

(** A partition of "a" is discovered and read to its end before the
    generator of "a" reports that it is done. *)
Definition example_partition_read_early : list Event :=
  [Pop (ItemPartition example_partition) false [];
   Pop (PartitionCompleteSentinel example_partition) false [];
   Pop (PartitionGenerationCompletedSentinel "a") false []].

(** One partition of "a" with one record, read after discovery ended. *)
Definition example_one_record : list Event :=
  [Pop (ItemPartition example_partition) false [];
   Pop (ItemRecord "a" "x") false [];
   Pop (PartitionGenerationCompletedSentinel "a") false [];
   Pop (PartitionCompleteSentinel example_partition) false []].


(** ** Vocabulary of the properties of a run *)

(** The items a list of events pops, in order. *)
Definition popped (events : list Event) : list QueueItem :=
  omap (λ ev, match ev with Pop item _ _ => Some item | TimeoutExpired => None end) events.

Definition item_record (item : QueueItem) : option (string * StreamData) :=
  match item with ItemRecord stream_name data => Some (stream_name, data) | _ => None end.

Definition item_partition (item : QueueItem) : option Partition.t :=
  match item with ItemPartition partition => Some partition | _ => None end.

Definition item_partition_sentinel (item : QueueItem) : option Partition.t :=
  match item with PartitionCompleteSentinel partition => Some partition | _ => None end.

Definition item_exception (item : QueueItem) : option Exn :=
  match item with ItemException e => Some e | _ => None end.

Definition popped_records (events : list Event) : list (string * StreamData) :=
  omap item_record (popped events).

Definition popped_partitions (events : list Event) : list Partition.t :=
  omap item_partition (popped events).

Definition popped_partition_sentinels (events : list Event) : list Partition.t :=
  omap item_partition_sentinel (popped events).

(** The tasks a trace submits to the worker pool, in order. *)
Definition submitted (tr : list Effect) : list Task :=
  omap (λ e, match e with submit t => Some t | _ => None end) tr.

Definition generator_tasks (tasks : list Task) : list string :=
  omap (λ t, match t with generate_partitions s => Some s | _ => None end) tasks.

Definition reader_tasks (tasks : list Task) : list Partition.t :=
  omap (λ t, match t with process_partition p => Some p | _ => None end) tasks.

(** The streams a trace yields a STARTED status for, in order. *)
Definition started_streams (tr : list Effect) : list string :=
  omap (λ e, match e with
             | Yield (stream_status_as_airbyte_message s _ STARTED) => Some s
             | _ => None
             end) tr.

(** The streams a trace yields a COMPLETE or INCOMPLETE status for. *)
Definition stopped_streams (tr : list Effect) : list string :=
  omap (λ e, match e with
             | Yield (stream_status_as_airbyte_message s _ COMPLETE)
             | Yield (stream_status_as_airbyte_message s _ INCOMPLETE) => Some s
             | _ => None
             end) tr.

Definition running_streams (tr : list Effect) : list string :=
  omap (λ e, match e with
             | Yield (stream_status_as_airbyte_message s _ RUNNING) => Some s
             | _ => None
             end) tr.

Definition completed_streams (tr : list Effect) : list string :=
  omap (λ e, match e with
             | Yield (stream_status_as_airbyte_message s _ COMPLETE) => Some s
             | _ => None
             end) tr.

Definition incomplete_streams (tr : list Effect) : list string :=
  omap (λ e, match e with
             | Yield (stream_status_as_airbyte_message s _ INCOMPLETE) => Some s
             | _ => None
             end) tr.

(** The records a trace yields, and those it shows to a cursor. *)
Definition record_yields (tr : list Effect) : list (string * StreamData) :=
  omap (λ e, match e with
             | Yield (stream_data_to_airbyte_message s data) => Some (s, data)
             | _ => None
             end) tr.

Definition cursor_observes (tr : list Effect) : list (string * StreamData) :=
  omap (λ e, match e with cursor_observe s data => Some (s, data) | _ => None end) tr.

(** The partitions a trace closes on a cursor, with the stream whose cursor
    it is. *)
Definition cursor_closes (tr : list Effect) : list (string * Partition.t) :=
  omap (λ e, match e with cursor_close_partition s p => Some (s, p) | _ => None end) tr.

(** The messages a trace yields out of the message repository. *)
Definition repository_yields (tr : list Effect) : list RepositoryMessage :=
  omap (λ e, match e with Yield (consumed_from_repository m) => Some m | _ => None end) tr.

(** What reaches the message repository with one event: what the workers
    emitted, then the slice log message of a partition. *)
Definition repository_input (self : ConcurrentSource) (ev : Event)
    : list RepositoryMessage :=
  match ev with
  | Pop item _ emitted =>
      emitted ++
      match item with
      | ItemPartition partition =>
          if should_log_slice_message self
          then [create_slice_log_message (Partition.to_slice partition)] else []
      | _ => []
      end
  | TimeoutExpired => []
  end.

Definition timer_starts (tr : list Effect) : list string :=
  omap (λ e, match e with timer_start_event s => Some s | _ => None end) tr.

Definition timer_finishes (tr : list Effect) : list string :=
  omap (λ e, match e with timer_finish_event s => Some s | _ => None end) tr.

(** How often a trace shuts the worker pool down. *)
Definition shutdowns (tr : list Effect) : nat :=
  sum_list_with (λ e, match e with shutdown => 1 | _ => 0 end) tr.

(** The last lines of [read]. *)
Definition epilogue_effects (self : ConcurrentSource) : list Effect :=
  [shutdown; logger_info timer_report; logger_info (Finished_syncing (name self))].

(** What the selection loop does for one configured stream. *)
Definition selection_effects (stream_instances : gmap string AbstractStream.t)
    (configured_stream : string) : list Effect :=
  match stream_instances !! configured_stream with
  | None => []
  | Some stream_instance =>
      if AbstractStream.is_available stream_instance
      then [timer_start_event configured_stream]
      else [logger_warning (Skipped_syncing_stream (AbstractStream.name stream_instance)
                              (AbstractStream.message stream_instance))]
  end.

(** The partition an item speaks of, and whether it says that it is done;
    what an item says of the partition [p]; and the last word of the events
    on [p]. *)
Definition partition_event_of (item : QueueItem) : option (Partition.t * bool) :=
  match item with
  | ItemPartition q => Some (q, false)
  | PartitionCompleteSentinel q => Some (q, true)
  | _ => None
  end.

Definition partition_event (p : Partition.t) (item : QueueItem) : option bool :=
  match partition_event_of item with
  | Some (q, done) => if decide (q = p) then Some done else None
  | None => None
  end.

Definition last_partition_event (p : Partition.t) (events : list Event) : option bool :=
  last (omap (partition_event p) (popped events)).

(** The stream an item belongs to, for the items that name one. *)
Definition item_stream (item : QueueItem) : option string :=
  match item with
  | ItemPartition p | PartitionCompleteSentinel p => Some (Partition.stream_name p)
  | ItemRecord s _ => Some s
  | _ => None
  end.

(** A source that logs slices. *)
Definition example_source_logging_slices : ConcurrentSource := {|
  name := "source";
  _max_workers := 4;
  _timeout_seconds := Some 300;
  streams := [StreamFacade example_stream_a; StreamFacade example_stream_b];
  _message_repository := [worker_message "earlier"];
  raise_exception_on_missing_stream := false;
  should_log_slice_message := true;
|}.

(** A source that still lists a stream that is not a [StreamFacade]. *)
Definition example_source_with_legacy_stream : ConcurrentSource := {|
  name := "source";
  _max_workers := 4;
  _timeout_seconds := Some 300;
  streams := [StreamFacade example_stream_a; OtherStream "legacy";
              StreamFacade example_stream_b];
  _message_repository := [];
  raise_exception_on_missing_stream := true;
  should_log_slice_message := false;
|}.

(** The only stream has one partition, which is read to its end while a task
    of the pool is still running. *)
Definition example_partition_read_last : list Event :=
  [Pop (ItemPartition example_partition) false [];
   Pop (PartitionGenerationCompletedSentinel "a") false []].

(** ** Vocabulary of the statements on failures and late items *)

(** The first stream of the source that is not a [StreamFacade]. *)
Definition first_other_stream (l : list Stream) : option string :=
  head (omap (λ s, match s with OtherStream repr => Some repr | StreamFacade _ => None end) l).

(** The first configured stream the source does not know. *)
Definition first_missing_stream (stream_instances : gmap string AbstractStream.t)
    (catalog_streams : list string) : option string :=
  head (omap (λ configured_stream,
                match stream_instances !! configured_stream with
                | None => Some configured_stream
                | Some _ => None
                end) catalog_streams).

(** The error of a [read] that selects no stream: the [ValueError] of
    [_streams_as_abstract_streams], else the [KeyError] of the selection
    loop, else the [IndexError] of [partition_generators.pop(0)]. *)
Definition error_without_eligible_stream (self : ConcurrentSource)
    (catalog_streams : list string) : Exn :=
  match first_other_stream (streams self) with
  | Some repr => ValueError repr
  | None =>
      match (if raise_exception_on_missing_stream self
             then first_missing_stream (stream_instances_of self) catalog_streams
             else None) with
      | Some configured_stream => KeyError configured_stream
      | None => IndexError
      end
  end.


(** The number of records of [stream] a list of events pops. *)
Definition records_popped (stream : string) (events : list Event) : nat :=
  length (filter (λ r, r.1 = stream) (popped_records events)).


(** What the driver does when the sentinel of [partition] completes the
    stream of that partition, [stream] being the instance of that name and
    [count] the counter of the stream. *)
Definition completion_effects (stream : AbstractStream.t) (count : nat)
    (partition : Partition.t) : list Effect :=
  [cursor_close_partition (AbstractStream.name stream) partition;
   logger_info (Read_records_from_stream count (Partition.stream_name partition));
   logger_info (Marking_stream_as_STOPPED (Partition.stream_name partition));
   timer_finish_event (AbstractStream.name stream);
   logger_info (Finished_syncing (AbstractStream.name stream));
   Yield (stream_status_as_airbyte_message (AbstractStream.name stream)
            (AbstractStream.namespace stream) COMPLETE)].

(** How a run stands after an iteration that did not raise. *)
Definition run_end_of (control : Control) : RunEnd :=
  match control with Continue => Blocked | Break => Finished end.

(** The partition of "a" and its only record are read to the end before the
    generator of "a" reports that it is done; no task is left then. *)
Definition example_partition_read_before_discovery_ends : list Event :=
  [Pop (ItemPartition example_partition) false [];
   Pop (ItemRecord "a" "x") false [];
   Pop (PartitionCompleteSentinel example_partition) false [];
   Pop (PartitionGenerationCompletedSentinel "a") true []].

(** Stream "a" is read to its end and completes while "b" is discovered. *)
Definition example_stream_completed : list Event :=
  [Pop (ItemPartition example_partition) false [];
   Pop (PartitionGenerationCompletedSentinel "a") false [];
   Pop (PartitionCompleteSentinel example_partition) false []].



(** ** The monad and the loop: general facts *)

Lemma prepend_nil {A} (o : Outcome A) : prepend [] o = o.
Proof. by destruct o. Qed.

Lemma prepend_prepend {A} (tr1 tr2 : list Effect) (o : Outcome A) :
  prepend tr1 (prepend tr2 o) = prepend (tr1 ++ tr2) o.
Proof. destruct o; simpl; by rewrite app_assoc. Qed.

Lemma outcome_trace_prepend {A} (tr : list Effect) (o : Outcome A) :
  outcome_trace (prepend tr o) = tr ++ outcome_trace o.
Proof. by destruct o. Qed.

Lemma outcome_result_prepend {A} (tr : list Effect) (o : Outcome A) :
  outcome_result (prepend tr o) = outcome_result o.
Proof. by destruct o. Qed.

Lemma outcome_state_prepend {A} (tr : list Effect) (o : Outcome A) :
  outcome_state (prepend tr o) = outcome_state o.
Proof. by destruct o. Qed.

Section Loop.
Context (message_type_is_RECORD : string → StreamData → bool).
Context (self : ConcurrentSource).
Context (stream_instances : gmap string AbstractStream.t).

Local Abbreviation loop := (loop message_type_is_RECORD self stream_instances).

(** The loop over [events1 ++ events2] is the loop over [events1] and, when
    that ends blocked in [queue.get], the loop over [events2] from there. *)
Lemma loop_app (events1 events2 : list Event) (st : State) :
  loop (events1 ++ events2) st =
  match loop events1 st with
  | Return Blocked st1 tr1 => prepend tr1 (loop events2 st1)
  | o => o
  end.
Proof.
  revert st. induction events1 as [|[item futures_done emitted|] events1 IH]; intros st.
  - simpl. by rewrite prepend_nil.
  - simpl. unfold bind.
    destruct (loop_body _ _ _ _ _ _ _) as [[] st1 tr1|e st1 tr1]; simpl; [|done..].
    rewrite IH. destruct (loop events1 st1) as [[] st2 tr2|e st2 tr2]; simpl; [done| |done].
    by rewrite prepend_prepend.
  - done.
Qed.

End Loop.

Section Read.
Context (message_type_is_RECORD : string → StreamData → bool).

Local Abbreviation read := (read message_type_is_RECORD).
Local Abbreviation loop := (loop message_type_is_RECORD).

(** [read] is the prelude followed by the loop. *)
Lemma read_unfold self catalog events :
  read self catalog events =
  match prelude self catalog (initial_state self) with
  | Return stream_instances st tr => prepend tr (loop self stream_instances events st)
  | Raise e st tr => Raise e st tr
  end.
Proof. done. Qed.

(** A run that is blocked in [queue.get] goes on with the next events. *)
Lemma read_app self catalog events1 events2 st tr :
  read self catalog events1 = Return Blocked st tr →
  ∃ stream_instances st0 tr0,
    prelude self catalog (initial_state self) = Return stream_instances st0 tr0 ∧
    read self catalog (events1 ++ events2) =
      prepend tr (loop self stream_instances events2 st).
Proof.
  rewrite !read_unfold.
  destruct (prelude _ _ _) as [stream_instances st0 tr0|]; [|done].
  intros H. exists stream_instances, st0, tr0. split; [done|].
  rewrite loop_app.
  destruct (loop self stream_instances events1 st0) as [[] st1 tr1|]; simplify_eq/=.
  by rewrite prepend_prepend.
Qed.

End Read.

(** ** The prelude of [read] *)

Lemma list_remove_first_length x l l' :
  list_remove_first x l = Some l' → length l = S (length l').
Proof.
  revert l'. induction l as [|y l IH]; intros l'; simpl; [done|].
  case_decide; [naive_solver|].
  destruct (list_remove_first x l) eqn:E; simpl; [|done].
  intros [= <-]. simpl. f_equal. by apply IH.
Qed.

Lemma list_remove_first_elem_of x l :
  x ∈ l → is_Some (list_remove_first x l).
Proof.
  induction l as [|y l IH]; simpl; [by intros ?%elem_of_nil|].
  intros [->|Hin]%elem_of_cons; case_decide; try done.
  destruct (IH Hin) as [l' ->]. done.
Qed.

Lemma dict_by_name_name l k v :
  dict_by_name l !! k = Some v → AbstractStream.name v = k.
Proof.
  unfold dict_by_name.
  assert (∀ d : gmap string AbstractStream.t,
    (∀ k v, d !! k = Some v → AbstractStream.name v = k) →
    ∀ k v, foldl (λ d s, <[AbstractStream.name s := s]> d) d l !! k = Some v →
           AbstractStream.name v = k) as H.
  { induction l as [|s l IH]; intros d Hd k' v'; simpl; [by apply Hd|].
    apply IH. intros k'' v''. rewrite lookup_insert. case_decide; naive_solver. }
  apply H. intros k' v'. by rewrite lookup_empty.
Qed.

Lemma _streams_as_abstract_streams_Return l st abstract_streams st' tr :
  _streams_as_abstract_streams l st = Return abstract_streams st' tr →
  abstract_streams = facade_streams l ∧ st' = st ∧ tr = [].
Proof.
  revert abstract_streams st' tr. induction l as [|[a|r] l IH]; intros abs st' tr; simpl.
  - by intros [= <- <- <-].
  - unfold bind. destruct (_streams_as_abstract_streams l st) as [abs' st1 tr1|] eqn:E; [|done].
    destruct (IH _ _ _ eq_refl) as (-> & -> & ->). by intros [= <- <- <-].
  - done.
Qed.

Lemma _streams_as_abstract_streams_Raise l st e st' tr :
  _streams_as_abstract_streams l st = Raise e st' tr →
  (∃ repr, e = ValueError repr ∧ OtherStream repr ∈ l) ∧ st' = st ∧ tr = [].
Proof.
  revert e st' tr. induction l as [|[a|r] l IH]; intros e st' tr; simpl.
  - done.
  - unfold bind. destruct (_streams_as_abstract_streams l st) as [abs' st1 tr1|] eqn:E.
    + done.
    + intros [= <- <- <-]. destruct (IH _ _ _ eq_refl) as ((r & -> & Hin) & -> & ->).
      split; [|done]. exists r. split; [done|]. by right.
  - intros [= <- <- <-]. split; [|done]. exists r. split; [done|]. by left.
Qed.

Lemma select_streams_Return self si catalog st selected st' tr :
  select_streams self si catalog st = Return selected st' tr →
  selected = eligible_streams si catalog ∧ st' = st ∧ Forall selection_effect tr.
Proof.
  revert selected st' tr. induction catalog as [|c catalog IH]; intros selected st' tr; simpl.
  - by intros [= <- <- <-].
  - destruct (si !! c) as [inst|] eqn:Hc.
    + destruct (AbstractStream.is_available inst).
      * unfold bind, effect; simpl.
        destruct (select_streams self si catalog st) as [sel st1 tr1|] eqn:E; [|done].
        destruct (IH _ _ _ eq_refl) as (-> & -> & Htr). simpl.
        intros [= <- <- <-]. rewrite app_nil_r. split_and!; [done..|].
        by constructor.
      * unfold bind, effect; simpl.
        destruct (select_streams self si catalog st) as [sel st1 tr1|] eqn:E; [|done].
        destruct (IH _ _ _ eq_refl) as (-> & -> & Htr). simpl.
        intros [= <- <- <-]. split_and!; [done..|]. by constructor.
    + destruct (raise_exception_on_missing_stream self); [done|]. apply IH.
Qed.

Lemma select_streams_Raise self si catalog st e st' tr :
  select_streams self si catalog st = Raise e st' tr →
  (∃ c, e = KeyError c ∧ c ∈ catalog ∧ si !! c = None) ∧
  raise_exception_on_missing_stream self = true ∧ st' = st ∧ Forall selection_effect tr.
Proof.
  revert e st' tr. induction catalog as [|c catalog IH]; intros e st' tr; simpl; [done|].
  destruct (si !! c) as [inst|] eqn:Hc.
  - destruct (AbstractStream.is_available inst); unfold bind, effect; simpl;
      (destruct (select_streams self si catalog st) as [sel st1 tr1|] eqn:E; [done|]);
      intros [= <- <- <-];
      destruct (IH _ _ _ eq_refl) as ((c' & -> & Hin & Hnone) & Hflag & -> & Htr);
      (split_and!; [exists c'; split_and!; [done|by right|done]|done|done|by constructor]).
  - destruct (raise_exception_on_missing_stream self) eqn:Hflag.
    + intros [= <- <- <-]. split_and!; [|done..]. exists c. split_and!; [done|by left|done].
    + intros H. destruct (IH _ _ _ H) as ((c' & -> & Hin & Hnone) & ? & -> & Htr).
      split_and!; [|done..]. exists c'. split_and!; [done|by right|done].
Qed.


Lemma _streams_as_abstract_streams_facades l st :
  Forall (λ s, is_facade s = true) l →
  _streams_as_abstract_streams l st = Return (facade_streams l) st [].
Proof.
  induction 1 as [|[a|r] l Hs Hl IH]; simpl; [done| |done].
  unfold bind. by rewrite IH.
Qed.

Lemma select_streams_total self si catalog st :
  raise_exception_on_missing_stream self = false ∨
    Forall (λ c, is_Some (si !! c)) catalog →
  ∃ tr, select_streams self si catalog st = Return (eligible_streams si catalog) st tr ∧
        Forall selection_effect tr.
Proof.
  intros H. induction catalog as [|c catalog IH]; simpl.
  - by exists [].
  - destruct IH as (tr & IH & Htr).
    { destruct H as [?|[? ?]%Forall_cons]; [by left|by right]. }
    destruct (si !! c) as [inst|] eqn:Hc.
    + destruct (AbstractStream.is_available inst); unfold bind, effect; rewrite IH; simpl.
      * eexists. split; [by rewrite app_nil_r|]. by constructor.
      * eexists. split; [done|]. by constructor.
    + destruct H as [->|[[? ?] ?]%Forall_cons]; [|congruence]. by exists tr.
Qed.

Lemma lookup_insert_cons {V} (s i : string) (l : list string) (v : V) (m : gmap string V) :
  (if decide (s ∈ l) then Some v else <[i:=v]> m !! s) =
  (if decide (s ∈ i :: l) then Some v else m !! s).
Proof.
  rewrite lookup_insert.
  destruct (decide (s ∈ l)) as [Hl|Hl], (decide (s ∈ i :: l)) as [Hc|Hc],
    (decide (i = s)) as [He|He]; try done.
  all: first [ exfalso; apply Hc; by right
             | exfalso; apply Hc; subst; by left
             | by apply elem_of_cons in Hc as [->|?] ].
Qed.

Lemma init_dicts selected st :
  ∃ st',
    for_each selected (λ stream,
      modify (set_streams_to_partitions_to_done (<[AbstractStream.name stream := ∅]>)) >>
      modify (set_record_counter (<[AbstractStream.name stream := 0]>))) st
    = Return tt st' [] ∧
    futures st' = futures st ∧
    partition_generator_running st' = partition_generator_running st ∧
    partition_generators st' = partition_generators st ∧
    streams_in_progress st' = streams_in_progress st ∧
    total_records_counter st' = total_records_counter st ∧
    message_queue st' = message_queue st ∧
    (∀ s, record_counter st' !! s =
          if decide (s ∈ names selected) then Some 0 else record_counter st !! s) ∧
    (∀ s, streams_to_partitions_to_done st' !! s =
          if decide (s ∈ names selected) then Some ∅
          else streams_to_partitions_to_done st !! s).
Proof.
  revert st. induction selected as [|i selected IH]; intros st; simpl.
  - exists st. split_and!; try done; intros s; case_decide as H; try done;
      by apply elem_of_nil in H.
  - unfold bind, modify; simpl.
    edestruct IH as (st' & -> & ? & ? & ? & ? & ? & ? & Hrc & Hpd).
    exists st'. simpl. split_and!; try done.
    + intros s. rewrite Hrc. simpl. apply lookup_insert_cons.
    + intros s. rewrite Hpd. simpl. apply lookup_insert_cons.
Qed.

(** What the prelude leaves when it reaches the loop. *)
Lemma prelude_Return self catalog si st tr :
  prelude self catalog (initial_state self) = Return si st tr →
  si = stream_instances_of self ∧
  ∃ first rest tr_sel,
    eligible_streams si catalog = first :: rest ∧
    Forall selection_effect tr_sel ∧
    tr = logger_info (Starting_syncing (name self)) :: tr_sel ++
         [submit (generate_partitions (AbstractStream.name first));
          logger_info (Marking_stream_as_STARTED (AbstractStream.name first));
          logger_info (Syncing_stream (AbstractStream.name first));
          Yield (stream_status_as_airbyte_message (AbstractStream.name first) None STARTED)] ∧
    futures st = [generate_partitions (AbstractStream.name first)] ∧
    partition_generator_running st = [AbstractStream.name first] ∧
    partition_generators st = names rest ∧
    streams_in_progress st = {[AbstractStream.name first]} ∧
    total_records_counter st = 0 ∧
    message_queue st = _message_repository self ∧
    (∀ s, record_counter st !! s =
          if decide (s ∈ names (first :: rest)) then Some 0 else None) ∧
    (∀ s, streams_to_partitions_to_done st !! s =
          if decide (s ∈ names (first :: rest)) then Some ∅ else None).
Proof.
  unfold prelude, bind at 1, effect. simpl. unfold bind at 1.
  destruct (_streams_as_abstract_streams _ _) as [abs st1 tr1|] eqn:Habs; [|done].
  apply _streams_as_abstract_streams_Return in Habs as (-> & -> & ->). simpl.
  fold (stream_instances_of self). unfold bind at 1.
  destruct (select_streams _ _ _ _) as [sel st1 tr1|] eqn:Hsel; [|done].
  apply select_streams_Return in Hsel as (-> & -> & Htr1). simpl.
  unfold start_reading, bind at 1 2 3, modify at 1. simpl.
  edestruct (init_dicts (eligible_streams (stream_instances_of self) catalog))
    as (st' & -> & Hf & Hr & Hg & Hp & Ht & Hq & Hrc & Hpd).
  simpl in *. unfold bind at 1, get. rewrite Hr. simpl.
  unfold start_next_partition_generator, bind at 1 2, get. rewrite Hg.
  destruct (eligible_streams _ _) as [|first rest] eqn:Hel; simpl; [done|].
  unfold bind, modify, effect, _submit_task, bind, modify, effect, ret, get. simpl.
  rewrite Hr. simpl.
  intros [= <- <- <-]. split; [done|].
  exists first, rest, tr1. simpl.
  split_and!; rewrite ?Hr, ?Hf, ?Hp, ?Ht, ?Hq, ?app_nil_r; try done.
  by rewrite (right_id_L ∅ (∪)).
Qed.


Lemma prelude_Raise self catalog e st tr :
  prelude self catalog (initial_state self) = Raise e st tr →
  ∃ tr_sel,
    tr = logger_info (Starting_syncing (name self)) :: tr_sel ∧
    Forall selection_effect tr_sel ∧
    ((∃ repr, e = ValueError repr ∧ OtherStream repr ∈ streams self) ∨
     (∃ c, e = KeyError c ∧ c ∈ catalog ∧ stream_instances_of self !! c = None ∧
           raise_exception_on_missing_stream self = true) ∨
     (e = IndexError ∧ eligible_streams (stream_instances_of self) catalog = [])).
Proof.
  unfold prelude, bind at 1, effect. simpl. unfold bind at 1.
  destruct (_streams_as_abstract_streams _ _) as [abs st1 tr1|e1 st1 tr1] eqn:Habs.
  - apply _streams_as_abstract_streams_Return in Habs as (-> & -> & ->). simpl.
    fold (stream_instances_of self). unfold bind at 1.
    destruct (select_streams _ _ _ _) as [sel st1 tr1|e1 st1 tr1] eqn:Hsel.
    + apply select_streams_Return in Hsel as (-> & -> & Htr1). simpl.
      unfold start_reading, bind at 1 2 3, modify at 1. simpl.
      edestruct (init_dicts (eligible_streams (stream_instances_of self) catalog))
        as (st' & -> & Hf & Hr & Hg & Hp & Ht & Hq & Hrc & Hpd).
      simpl in *. unfold bind at 1, get. rewrite Hr. simpl.
      unfold start_next_partition_generator, bind at 1 2, get. rewrite Hg.
      destruct (eligible_streams _ _) as [|first rest] eqn:Hel; simpl.
      * intros [= <- <- <-]. exists tr1. rewrite !app_nil_r. split_and!; [done..|].
        right; right. done.
      * unfold bind, modify, effect, _submit_task, bind, modify, effect, ret, get. simpl.
        rewrite Hr. simpl. done.
    + apply select_streams_Raise in Hsel as ((c & -> & Hin & Hnone) & Hflag & -> & Htr1).
      simpl. intros [= <- <- <-]. exists tr1. split_and!; [done..|].
      right; left. by exists c.
  - apply _streams_as_abstract_streams_Raise in Habs as ((r & -> & Hin) & -> & ->).
    simpl. intros [= <- <- <-]. exists []. split_and!; [done..|].
    left. by exists r.
Qed.

Section LoopInvariant.
Context (message_type_is_RECORD : string → StreamData → bool).
Context (self : ConcurrentSource).
Context (stream_instances : gmap string AbstractStream.t).

Local Abbreviation loop := (loop message_type_is_RECORD self stream_instances).
Local Abbreviation loop_body := (loop_body message_type_is_RECORD self stream_instances).
Local Abbreviation guarded := (guarded message_type_is_RECORD self stream_instances).

(** An invariant [I] of the states in which the driver waits for the queue
    gives [T] of every outcome of the loop. The trace is the whole trace of
    the run up to that point. *)
Lemma loop_invariant (I : State → list Effect → Prop) (T : Outcome RunEnd → Prop)
    (guard : State → QueueItem → bool) :
  (∀ st tr, I st tr → T (Return Blocked st tr)) →
  (∀ st tr, I st tr → T (Raise QueueEmpty st tr)) →
  (∀ st tr item futures_done emitted, I st tr → guard st item = true →
     match loop_body item futures_done emitted st with
     | Return Continue st' t => I st' (tr ++ t)
     | Return Break st' t => T (prepend (tr ++ t) (epilogue self st'))
     | Raise e st' t => T (Raise e st' (tr ++ t))
     end) →
  ∀ events st tr, I st tr → guarded guard events st = true →
    T (prepend tr (loop events st)).
Proof.
  intros Hblocked Htimeout Hstep events.
  induction events as [|[item futures_done emitted|] events IH]; intros st tr HI Hg; simpl.
  - rewrite app_nil_r. by apply Hblocked.
  - simpl in Hg. apply andb_prop in Hg as [Hguard Hg].
    specialize (Hstep st tr item futures_done emitted HI Hguard).
    unfold bind.
    destruct (loop_body item futures_done emitted st) as [[] st' t|e st' t]; cbv beta iota.
    + rewrite prepend_prepend. by apply IH.
    + by rewrite prepend_prepend.
    + done.
  - rewrite app_nil_r. by apply Htimeout.
Qed.

Lemma guarded_true events st : guarded (λ _ _, true) events st = true.
Proof.
  revert st. induction events as [|[item futures_done emitted|] events IH]; intros st;
    simpl; [done| |done].
  destruct (loop_body _ _ _ _) as [[] ? ?|]; auto.
Qed.

End LoopInvariant.

(** ** Invariants of a run of [read] *)

Section ReadInvariant.
Context (message_type_is_RECORD : string → StreamData → bool).

Local Abbreviation read := (read message_type_is_RECORD).
Local Abbreviation loop_body := (loop_body message_type_is_RECORD).
Local Abbreviation read_guarded := (read_guarded message_type_is_RECORD).

Lemma read_invariant self catalog (I : State → list Effect → Prop)
    (T : Outcome RunEnd → Prop) (guard : State → QueueItem → bool) :
  (∀ e st tr, prelude self catalog (initial_state self) = Raise e st tr →
     T (Raise e st tr)) →
  (∀ st tr, prelude self catalog (initial_state self)
              = Return (stream_instances_of self) st tr → I st tr) →
  (∀ st tr, I st tr → T (Return Blocked st tr)) →
  (∀ st tr, I st tr → T (Raise QueueEmpty st tr)) →
  (∀ st tr item futures_done emitted, I st tr → guard st item = true →
     match loop_body self (stream_instances_of self) item futures_done emitted st with
     | Return Continue st' t => I st' (tr ++ t)
     | Return Break st' t => T (prepend (tr ++ t) (epilogue self st'))
     | Raise e st' t => T (Raise e st' (tr ++ t))
     end) →
  ∀ events, read_guarded self catalog guard events = true → T (read self catalog events).
Proof.
  intros Hraise Hinit Hblocked Htimeout Hstep events.
  rewrite read_unfold. unfold read_guarded.
  destruct (prelude self catalog (initial_state self)) as [si st tr|e st tr] eqn:Hp.
  - destruct (prelude_Return _ _ _ _ _ Hp) as [-> _].
    apply loop_invariant with (I := I); auto.
  - intros _. by apply Hraise.
Qed.

(** The states in which a run waits for the queue. *)
Lemma read_blocked_invariant self catalog (I : State → list Effect → Prop) :
  (∀ st tr, prelude self catalog (initial_state self)
              = Return (stream_instances_of self) st tr → I st tr) →
  (∀ st tr item futures_done emitted st' t, I st tr →
     loop_body self (stream_instances_of self) item futures_done emitted st
       = Return Continue st' t →
     I st' (tr ++ t)) →
  ∀ events st tr, read self catalog events = Return Blocked st tr → I st tr.
Proof.
  intros Hinit Hstep events st tr Hread.
  pose (T := λ o : Outcome RunEnd,
          match o with Return Blocked st tr => I st tr | _ => True end).
  assert (T (read self catalog events)) as HT; [|by rewrite Hread in HT].
  apply read_invariant with (I := I) (guard := λ _ _, true); try done.
  - intros st0 tr0 item futures_done emitted HI _.
    destruct (loop_body _ _ _ _ _ _) as [[] st' t|e st' t] eqn:Hb; [by eapply Hstep|done..].
  - unfold read_guarded.
    destruct (prelude _ _ _); [apply guarded_true|done].
Qed.

End ReadInvariant.

(** ** [_stop_streams] *)

Lemma stop_stream_eq si n st :
  stop_stream si n st =
  match si !! n with
  | Some stream => Return tt st (stop_effects stream)
  | None => Raise (KeyError n) st []
  end.
Proof. unfold stop_stream, getitem, bind. by destruct (si !! n). Qed.

Lemma stop_each si (l : list string) st :
  let o := for_each l (stop_stream si) st in
  ∃ (stopped : list string) (instances : list AbstractStream.t),
    stopped `prefix_of` l ∧
    Forall2 (λ n i, si !! n = Some i) stopped instances ∧
    outcome_state o = st ∧
    outcome_trace o = instances ≫= stop_effects ∧
    match outcome_result o with
    | inr _ => stopped = l
    | inl e => ∃ k, e = KeyError k ∧ si !! k = None ∧ k ∈ l
    end.
Proof.
  induction l as [|n l IH]; simpl.
  - exists [], []. split_and!; done.
  - unfold bind. rewrite stop_stream_eq.
    destruct (si !! n) as [i|] eqn:Hn; simpl.
    + destruct IH as (stopped & instances & Hpre & Hall & Hst & Htr & Hres).
      exists (n :: stopped), (i :: instances).
      rewrite outcome_state_prepend, outcome_trace_prepend, outcome_result_prepend.
      split_and!; try done.
      * by apply prefix_cons.
      * by constructor.
      * by rewrite Htr.
      * destruct (outcome_result _) as [e|]; [|by subst].
        destruct Hres as (k & -> & Hk & Hin). exists k. split_and!; [done..|by right].
    + exists [], []. split_and!; try done; [apply prefix_nil|].
      exists n. split_and!; [done..|by left].
Qed.

Lemma _stop_streams_outcome si st :
  let o := _stop_streams si st in
  ∃ (stopped : list string) (instances : list AbstractStream.t),
    stopped `prefix_of` elements (streams_in_progress st) ∧
    Forall2 (λ n i, si !! n = Some i) stopped instances ∧
    outcome_state o = st ∧
    outcome_trace o = shutdown :: (instances ≫= stop_effects) ∧
    match outcome_result o with
    | inr _ => stopped = elements (streams_in_progress st)
    | inl e => ∃ k, e = KeyError k ∧ si !! k = None ∧ k ∈ streams_in_progress st
    end.
Proof.
  destruct (stop_each si (elements (streams_in_progress st)) st)
    as (stopped & instances & Hpre & Hall & Hst & Htr & Hres).
  exists stopped, instances. unfold _stop_streams, bind, effect, get. simpl.
  rewrite !prepend_nil.
  rewrite outcome_state_prepend, outcome_trace_prepend, outcome_result_prepend.
  simpl. rewrite Htr. split_and!; try done.
  destruct (outcome_result _) as [e|]; [|done].
  destruct Hres as (k & -> & Hk & Hin%elem_of_elements). by exists k.
Qed.

(** ** Counting the records of a trace *)

Lemma records_yielded_app s tr1 tr2 :
  records_yielded s (tr1 ++ tr2) = records_yielded s tr1 + records_yielded s tr2.
Proof. apply sum_list_with_app. Qed.

Lemma logs_consistent_ext c1 c2 t :
  (∀ s, c1 s = c2 s) → logs_consistent c1 t → logs_consistent c2 t.
Proof.
  revert c1 c2. induction t as [|e t IH]; intros c1 c2 Hc; simpl; [done|].
  intros [He Ht]. split.
  - destruct e as [| [] | | | | | | |]; try done. by rewrite <- Hc.
  - eapply IH; [|exact Ht]. intros s. simpl. by rewrite Hc.
Qed.

Lemma logs_consistent_app c tr t :
  logs_consistent c tr →
  logs_consistent (λ s, c s + records_yielded s tr) t →
  logs_consistent c (tr ++ t).
Proof.
  revert c. induction tr as [|e tr IH]; intros c; simpl.
  - intros _. apply logs_consistent_ext. intros s. unfold records_yielded. simpl. lia.
  - intros [He Htr] Ht. split; [done|]. apply IH; [done|].
    eapply logs_consistent_ext; [|exact Ht]. intros s. unfold records_yielded. simpl. lia.
Qed.

Lemma logs_consistent_split c tr1 n s tr2 :
  logs_consistent c (tr1 ++ logger_info (Read_records_from_stream n s) :: tr2) →
  n = c s + records_yielded s tr1.
Proof.
  revert c. induction tr1 as [|e tr1 IH]; intros c; simpl.
  - intros [-> _]. unfold records_yielded. simpl. lia.
  - intros [_ H]. apply IH in H. unfold records_yielded in *. simpl. lia.
Qed.

Lemma logs_consistent_no_log c t :
  Forall (λ e, ¬ is_read_log e) t → logs_consistent c t.
Proof.
  intros H. revert c. induction H as [|e t He _ IH]; intros c; simpl; [done|].
  split; [|apply IH]. by destruct e as [| [] | | | | | | |].
Qed.

(** ** Unfolding the driver *)

Lemma for_each_effect {A} (f : A → Effect) (l : list A) (st : State) :
  for_each l (λ x, effect (f x)) st = Return tt st (f <$> l).
Proof.
  induction l as [|x l IH]; simpl; [done|].
  unfold bind, effect at 1. by rewrite IH.
Qed.

Lemma consume_queue_eq st :
  consume_queue st =
  Return tt (set_message_queue (λ _, []) st)
    ((λ m, Yield (consumed_from_repository m)) <$> message_queue st).
Proof.
  unfold consume_queue, bind, get, modify. simpl.
  by rewrite (for_each_effect (λ m, Yield (consumed_from_repository m))).
Qed.

Ltac unfold_driver :=
  unfold loop_body, epilogue, iteration, all_done_check, yield_if_some, handle_record,
    _handle_partition_completed, _handle_partition_generation_completed,
    _handle_partition, start_next_partition_generator, _update_timer, _submit_task,
    getitem, bind, ret, raise, get, modify, effect;
  simpl.

Ltac case_split :=
  repeat (first
    [ rewrite consume_queue_eq
    | match goal with
      | H : context [consume_queue _] |- _ => rewrite consume_queue_eq in H
      end
    | case_match ];
    simplify_eq/=).

(** ** The iteration, item by item *)

Section Iteration.
Context (message_type_is_RECORD : string → StreamData → bool).
Context (self : ConcurrentSource).
Context (stream_instances : gmap string AbstractStream.t).

Local Abbreviation iterate := (iteration message_type_is_RECORD self stream_instances).

Lemma loop_body_eq item futures_done emitted st :
  loop_body message_type_is_RECORD self stream_instances item futures_done emitted st =
  iterate item futures_done (set_message_queue (.++ emitted) st).
Proof. unfold loop_body, bind, modify. by rewrite prepend_nil. Qed.

Lemma all_done_check_eq futures_done st :
  all_done_check futures_done st = Return (all_done_control futures_done st) st [].
Proof.
  unfold all_done_check, all_done_control, bind, get, ret. simpl.
  by repeat case_match.
Qed.

Lemma iteration_exception_eq e futures_done st :
  iterate (ItemException e) futures_done st =
  match _stop_streams stream_instances st with
  | Return _ st' tr => Raise e st' tr
  | Raise e' st' tr => Raise e' st' tr
  end.
Proof.
  unfold iteration, bind, raise.
  destruct (_stop_streams _ _); simpl; by rewrite ?app_nil_r.
Qed.

Lemma iteration_generation_completed_eq stream_name futures_done st :
  iterate (PartitionGenerationCompletedSentinel stream_name) futures_done st =
  match list_remove_first stream_name (partition_generator_running st) with
  | None => Raise (ValueError stream_name) st []
  | Some running =>
      match partition_generators st with
      | [] =>
          let st' := set_partition_generator_running (λ _, running) st in
          Return (all_done_control futures_done st') st' []
      | next :: rest =>
          let st' :=
            mkState (futures st ++ [generate_partitions next]) (running ++ [next]) rest
              (streams_to_partitions_to_done st) (record_counter st)
              ({[next]} ∪ streams_in_progress st) (total_records_counter st)
              (message_queue st) in
          Return (all_done_control futures_done st') st'
            [submit (generate_partitions next);
             logger_info (Marking_stream_as_STARTED next);
             logger_info (Syncing_stream next);
             Yield (stream_status_as_airbyte_message next None STARTED)]
      end
  end.
Proof.
  unfold iteration, bind at 1.
  unfold _handle_partition_generation_completed, bind at 1, get.
  destruct (list_remove_first _ _) as [running|]; [|done].
  unfold bind, modify, get, yield_if_some, ret, effect. simpl.
  destruct (partition_generators st) as [|next rest] eqn:Hg; simpl.
  - by rewrite all_done_check_eq.
  - unfold start_next_partition_generator, bind, get. simpl. rewrite Hg. simpl.
    unfold bind, modify, effect, _submit_task, bind, modify, effect, ret. simpl.
    by rewrite all_done_check_eq.
Qed.

Lemma iteration_partition_eq partition futures_done st :
  iterate (ItemPartition partition) futures_done st =
  match streams_to_partitions_to_done st !! Partition.stream_name partition with
  | None => Raise (KeyError (Partition.stream_name partition)) st []
  | Some partition_to_done =>
      let st' :=
        mkState (futures st ++ [process_partition partition])
          (partition_generator_running st) (partition_generators st)
          (<[Partition.stream_name partition := <[partition := false]> partition_to_done]>
             (streams_to_partitions_to_done st))
          (record_counter st) (streams_in_progress st) (total_records_counter st)
          (if should_log_slice_message self
           then message_queue st ++ [create_slice_log_message (Partition.to_slice partition)]
           else message_queue st) in
      Return (all_done_control futures_done st') st' [submit (process_partition partition)]
  end.
Proof.
  unfold iteration, bind at 1, _handle_partition, bind at 1, get, bind at 1, getitem.
  destruct (_ !! _) as [partition_to_done|]; [|done].
  unfold bind, modify, ret, _submit_task, bind, modify, effect. simpl.
  destruct (should_log_slice_message self); simpl; by rewrite all_done_check_eq.
Qed.

Lemma iteration_partition_completed_eq partition futures_done st :
  iterate (PartitionCompleteSentinel partition) futures_done st =
  let stream_name := Partition.stream_name partition in
  match streams_to_partitions_to_done st !! stream_name with
  | None => Raise (KeyError stream_name) st []
  | Some partition_to_done =>
      let st1 :=
        set_streams_to_partitions_to_done
          (<[stream_name := <[partition := true]> partition_to_done]>) st in
      match stream_instances !! stream_name with
      | None => Raise (KeyError stream_name) st1 []
      | Some stream =>
          let close := cursor_close_partition (AbstractStream.name stream) partition in
          if all_values (<[partition := true]> partition_to_done)
             && bool_decide (stream_name ∉ partition_generator_running st)
          then
            if decide (stream_name ∈ streams_in_progress st)
            then
              let st2 := set_streams_in_progress (.∖ {[stream_name]}) st1 in
              match record_counter st !! stream_name with
              | None => Raise (KeyError stream_name) st2 [close]
              | Some count =>
                  Return
                    (if decide (streams_in_progress st2 = ∅) then Break
                     else all_done_control futures_done st2)
                    st2
                    [close;
                     logger_info (Read_records_from_stream count stream_name);
                     logger_info (Marking_stream_as_STOPPED stream_name);
                     timer_finish_event (AbstractStream.name stream);
                     logger_info (Finished_syncing (AbstractStream.name stream));
                     Yield (stream_status_as_airbyte_message (AbstractStream.name stream)
                              (AbstractStream.namespace stream) COMPLETE)]
              end
            else Raise (KeyError stream_name) st1 [close]
          else
            Return
              (if decide (streams_in_progress st1 = ∅) then Break
               else all_done_control futures_done st1)
              st1 [close]
      end
  end.
Proof.
  unfold_driver. case_split; rewrite ?lookup_insert_eq in *; simplify_eq/=;
    rewrite ?all_done_check_eq; try done;
    unfold all_done_control; simpl; case_split; try done; congruence.
Qed.

Lemma iteration_record_eq stream_name data futures_done st :
  iterate (ItemRecord stream_name data) futures_done st =
  match stream_instances !! stream_name with
  | None => Raise (KeyError stream_name) st []
  | Some stream =>
      match record_counter st !! AbstractStream.name stream with
      | None => Raise (KeyError (AbstractStream.name stream)) st []
      | Some count =>
          let st' :=
            mkState (futures st) (partition_generator_running st) (partition_generators st)
              (streams_to_partitions_to_done st)
              (<[AbstractStream.name stream := count + 1]> (record_counter st))
              (streams_in_progress st)
              (if message_type_is_RECORD stream_name data
               then total_records_counter st + 1 else total_records_counter st)
              [] in
          Return (all_done_control futures_done st') st'
            ((if decide (count = 0)
              then [logger_info (Marking_stream_as_RUNNING (AbstractStream.name stream));
                    Yield (stream_status_as_airbyte_message (AbstractStream.name stream)
                             (AbstractStream.namespace stream) RUNNING)]
              else []) ++
             [Yield (stream_data_to_airbyte_message stream_name data);
              cursor_observe (AbstractStream.name stream) data] ++
             ((λ m, Yield (consumed_from_repository m)) <$> message_queue st))
      end
  end.
Proof.
  unfold_driver. case_split; unfold all_done_control; simpl; case_split;
    by rewrite ?app_nil_r.
Qed.

End Iteration.

(** Rewrite an iteration into its equation. *)
Ltac iteration_equations :=
  rewrite ?loop_body_eq;
  rewrite ?iteration_exception_eq, ?iteration_generation_completed_eq,
    ?iteration_partition_eq, ?iteration_partition_completed_eq, ?iteration_record_eq;
  cbv zeta; simpl.

(** ** The lifecycle of a stream *)

Lemma lifecycle_unchanged stream st tr st' t :
  lifecycle_invariant stream st tr →
  partition_generators st' = partition_generators st →
  streams_in_progress st' = streams_in_progress st →
  record_counter st' !! stream = record_counter st !! stream →
  statuses_of stream t = [] →
  lifecycle_invariant stream st' (tr ++ t).
Proof.
  unfold lifecycle_invariant, statuses_of. intros H -> -> -> Ht.
  by rewrite omap_app, Ht, app_nil_r.
Qed.

Lemma lifecycle_started stream st tr st' t next :
  lifecycle_invariant stream st tr →
  partition_generators st = next :: partition_generators st' →
  streams_in_progress st' = {[next]} ∪ streams_in_progress st →
  record_counter st' = record_counter st →
  statuses_of stream t = (if decide (next = stream) then [STARTED] else []) →
  lifecycle_invariant stream st' (tr ++ t).
Proof.
  unfold lifecycle_invariant, statuses_of.
  intros (Hnodup & Hwaiting & Hprogress & Hother) Hgen -> -> Ht.
  rewrite Hgen in *. apply NoDup_cons in Hnodup as [Hnext Hnodup].
  rewrite omap_app, Ht.
  destruct (decide (next = stream)) as [->|Hne].
  - destruct Hwaiting as [Hnotin Hnone]; [by left|]. rewrite Hnone.
    split_and!; [done|done| |].
    + intros _. by left.
    + intros _ []. apply elem_of_union. left. by apply elem_of_singleton.
  - rewrite app_nil_r. split_and!; [done| | |].
    + intros Hin. destruct Hwaiting as [Hnotin Hnone]; [by right|].
      split; [|done]. rewrite elem_of_union, elem_of_singleton. by intros [?|?].
    + rewrite elem_of_union, elem_of_singleton. intros [?|Hin]; [done|]. by apply Hprogress.
    + rewrite elem_of_union, elem_of_singleton. intros Hnotgen Hnotin.
      apply Hother; [|by intros ?; apply Hnotin; right].
      rewrite not_elem_of_cons. by split.
Qed.

Lemma lifecycle_completed stream st tr st' t completed :
  lifecycle_invariant stream st tr →
  completed ∈ streams_in_progress st →
  partition_generators st' = partition_generators st →
  streams_in_progress st' = streams_in_progress st ∖ {[completed]} →
  record_counter st' = record_counter st →
  statuses_of stream t = (if decide (completed = stream) then [COMPLETE] else []) →
  lifecycle_invariant stream st' (tr ++ t).
Proof.
  unfold lifecycle_invariant, statuses_of.
  intros (Hnodup & Hwaiting & Hprogress & Hother) Hin -> -> -> Ht.
  rewrite omap_app, Ht.
  destruct (decide (completed = stream)) as [->|Hne].
  - split_and!; [done| | |].
    + intros Hgen. by destruct (Hwaiting Hgen).
    + rewrite elem_of_difference, elem_of_singleton. by intros [_ ?].
    + intros _ _. destruct (Hprogress Hin) as [->|[-> _]]; simpl;
        rewrite !elem_of_cons; auto.
  - rewrite app_nil_r. split_and!; [done| | |].
    + intros Hgen. destruct (Hwaiting Hgen) as [Hnotin Hnone]. split; [|done].
      rewrite elem_of_difference. by intros [? _].
    + rewrite elem_of_difference. intros [? _]. by apply Hprogress.
    + rewrite elem_of_difference, elem_of_singleton. intros Hnotgen Hnotin.
      apply Hother; [done|]. intros ?. apply Hnotin. by split.
Qed.

Lemma lifecycle_record stream st tr st' t stream_name count :
  lifecycle_invariant stream st tr →
  stream_name ∈ streams_in_progress st →
  partition_generators st' = partition_generators st →
  streams_in_progress st' = streams_in_progress st →
  record_counter st !! stream_name = Some count →
  record_counter st' = <[stream_name := count + 1]> (record_counter st) →
  statuses_of stream t =
    (if decide (stream_name = stream)
     then (if decide (count = 0) then [RUNNING] else [])
     else []) →
  lifecycle_invariant stream st' (tr ++ t).
Proof.
  unfold lifecycle_invariant, statuses_of.
  intros (Hnodup & Hwaiting & Hprogress & Hother) Hin -> -> Hcount -> Ht.
  rewrite omap_app, Ht.
  destruct (decide (stream_name = stream)) as [->|Hne].
  - rewrite lookup_insert_eq.
    assert (Some (count + 1) ≠ Some 0) as Hpositive by (intros [= ?]; lia).
    split_and!; [done| | |].
    + intros Hgen. by destruct (Hwaiting Hgen).
    + intros _. destruct (Hprogress Hin) as [Hs|[Hs Hc]]; rewrite Hs.
      * destruct (decide (count = 0)); [by right|by left].
      * destruct (decide (count = 0)) as [->|]; [done|]. by right.
    + by intros _ [].
  - rewrite app_nil_r, lookup_insert_ne by done. done.
Qed.

(** ** The claims *)

Section Claims.
Context (message_type_is_RECORD : string → StreamData → bool).

Local Abbreviation read := (read message_type_is_RECORD).
Local Abbreviation loop := (loop message_type_is_RECORD).
Local Abbreviation loop_body := (loop_body message_type_is_RECORD).

(** *** The discovery-concurrency cap *)

Lemma running_bounded self catalog events st tr :
  read self catalog events = Return Blocked st tr →
  length (partition_generator_running st) ≤ 1.
Proof.
  revert events st tr. apply read_blocked_invariant.
  - intros st tr Hp. apply prelude_Return in Hp as (_ & first & rest & tr_sel & H).
    destruct H as (_ & _ & _ & _ & -> & _). done.
  - intros st tr item futures_done emitted st' t Hle.
    destruct item; iteration_equations; intros H; case_split; try done.
    all: match goal with
         | H : list_remove_first _ _ = Some _ |- _ =>
             apply list_remove_first_length in H
         end;
         rewrite ?length_app; simpl; lia.
Qed.

(** Claim C5 (discovery concurrency cap).  The cap is the constant 1 of
    [read].  At every point where the driver waits for the queue, at most
    that many generators run; and processing the generation-completed
    sentinel of a running generator never fails and either leaves no
    generator running (none was waiting, nothing is emitted) or submits
    exactly the first waiting generator, which becomes the only running one,
    joins the streams in progress and gets its STARTED status. *)
Theorem discovery_concurrency_cap self catalog events st tr :
  read self catalog events = Return Blocked st tr →
  max_number_of_partition_generator_in_progress = 1 ∧
  length (partition_generator_running st) ≤ max_number_of_partition_generator_in_progress ∧
  ∀ stream_name futures_done emitted,
    stream_name ∈ partition_generator_running st →
    let o := loop_body self (stream_instances_of self)
               (PartitionGenerationCompletedSentinel stream_name) futures_done emitted st in
    (∃ control, outcome_result o = inr control) ∧
    match partition_generators st with
    | [] =>
        partition_generator_running (outcome_state o) = [] ∧
        outcome_trace o = []
    | next :: rest =>
        partition_generator_running (outcome_state o) = [next] ∧
        partition_generators (outcome_state o) = rest ∧
        streams_in_progress (outcome_state o) = {[next]} ∪ streams_in_progress st ∧
        outcome_trace o =
          [submit (generate_partitions next);
           logger_info (Marking_stream_as_STARTED next);
           logger_info (Syncing_stream next);
           Yield (stream_status_as_airbyte_message next None STARTED)]
    end.
Proof.
  intros Hread. pose proof (running_bounded _ _ _ _ _ Hread) as Hle.
  split_and!; [done..|].
  intros stream_name futures_done emitted Hin.
  destruct (partition_generator_running st) as [|running [|]] eqn:Hrunning;
    [by apply elem_of_nil in Hin| |simpl in Hle; lia].
  apply list_elem_of_singleton in Hin as ->.
  unfold_driver. rewrite Hrunning. simpl. rewrite decide_True by done. simpl.
  destruct (partition_generators st) as [|next rest] eqn:Hgenerators; simpl;
    rewrite ?Hgenerators; simpl; case_split; split_and!; eauto.
Qed.

(** *** The namespace of the status messages *)

Lemma stream_instances_of_name self k v :
  stream_instances_of self !! k = Some v → AbstractStream.name v = k.
Proof. apply dict_by_name_name. Qed.

Lemma selection_effect_namespace_ok si tr :
  Forall selection_effect tr → Forall (status_namespace_ok si) tr.
Proof. intros H. eapply Forall_impl; [exact H|]. by intros []. Qed.

(** Claim C10 (namespaces of status messages).  In every run, finished,
    blocked or aborted, every STARTED status message yielded carries no
    namespace, and every RUNNING, COMPLETE and INCOMPLETE status message
    carries the namespace of the stream instance registered under the name of
    its stream. *)
Theorem status_message_namespaces self catalog events :
  Forall (status_namespace_ok (stream_instances_of self))
    (outcome_trace (read self catalog events)).
Proof.
  set (si := stream_instances_of self).
  apply (read_invariant message_type_is_RECORD self catalog
           (λ _ tr, Forall (status_namespace_ok si) tr)
           (λ o, Forall (status_namespace_ok si) (outcome_trace o))
           (λ _ _, true)).
  - intros e st tr (tr_sel & -> & Hsel & _)%prelude_Raise. simpl.
    constructor; [done|]. by apply selection_effect_namespace_ok.
  - intros st tr (_ & first & rest & tr_sel & _ & Hsel & -> & _)%prelude_Return.
    constructor; [done|]. apply Forall_app. split.
    + by apply selection_effect_namespace_ok.
    + by repeat constructor.
  - done.
  - done.
  - intros st tr item futures_done emitted Htr _.
    destruct item.
    1: { rewrite loop_body_eq, iteration_exception_eq.
      pose proof (_stop_streams_outcome si
                    (set_message_queue (λ l, l ++ emitted) st))
        as (stopped & instances & _ & Hall & _ & Hstop & _).
      simpl in Hstop.
      assert (Forall (status_namespace_ok si) (shutdown :: instances ≫= stop_effects)) as Hok.
      { constructor; [done|]. clear Hstop. induction Hall as [|n i ns is_ Hn _ IH]; [done|].
        simpl. repeat (constructor; [try done|]); [|done].
        simpl. exists i. split; [|done].
        by rewrite (stream_instances_of_name _ _ _ Hn). }
      destruct (_stop_streams _ _) as [[] st1 tr1|e1 st1 tr1]; simpl in *; subst;
        rewrite ?app_nil_r; by apply Forall_app. }
    all: iteration_equations; case_split; rewrite ?app_nil_r; try done.
    all: rewrite ?Forall_app, ?Forall_cons, ?Forall_nil, ?Forall_fmap;
         split_and!; try done.
    all: try (by apply Forall_true).
    all: simpl; erewrite stream_instances_of_name by eassumption; eauto.
  - unfold read_guarded. destruct (prelude _ _ _); [apply guarded_true|done].
Qed.

(** *** Records *)

Lemma records_yielded_repository s (l : list RepositoryMessage) :
  records_yielded s ((λ m, Yield (consumed_from_repository m)) <$> l) = 0.
Proof. induction l; [done|]. by simpl. Qed.

Lemma records_yielded_cons s e tr :
  records_yielded s (e :: tr) = record_weight s e + records_yielded s tr.
Proof. done. Qed.

Lemma logs_consistent_repository c (l : list RepositoryMessage) :
  logs_consistent c ((λ m, Yield (consumed_from_repository m)) <$> l).
Proof.
  apply logs_consistent_no_log. apply Forall_fmap, Forall_true. simpl. tauto.
Qed.

Lemma logs_consistent_run self catalog events :
  logs_consistent (λ _, 0) (outcome_trace (read self catalog events)).
Proof.
  apply (read_invariant message_type_is_RECORD self catalog
           (λ st tr, logs_consistent (λ _, 0) tr ∧
                     ∀ s n, record_counter st !! s = Some n → n = records_yielded s tr)
           (λ o, logs_consistent (λ _, 0) (outcome_trace o))
           (λ _ _, true)).
  - intros e st tr (tr_sel & -> & Hsel & _)%prelude_Raise. simpl.
    split; [done|]. apply logs_consistent_no_log.
    eapply Forall_impl; [exact Hsel|]. intros [] ?; simpl in *; tauto.
  - intros st tr (_ & first & rest & tr_sel & _ & Hsel & -> & H)%prelude_Return.
    destruct H as (_ & _ & _ & _ & _ & _ & Hrc & _).
    assert (Forall (λ e, ¬ is_read_log e ∧ ∀ s, record_weight s e = 0) tr_sel) as Hsel'.
    { eapply Forall_impl; [exact Hsel|]. intros [] ?; simpl in *; tauto. }
    split.
    + simpl. split; [done|]. apply logs_consistent_no_log. apply Forall_app. split.
      * eapply Forall_impl; [exact Hsel'|]. by intros ? [? _].
      * repeat (constructor; [simpl; tauto|]). constructor.
    + intros s n. rewrite Hrc. case_decide; [|done]. intros [= <-].
      unfold records_yielded. simpl. rewrite sum_list_with_app. simpl.
      clear -Hsel'. induction Hsel' as [|e t [_ He] _ IH]; simpl; [done|].
      rewrite He. simpl. apply IH.
  - by intros st tr [? _].
  - by intros st tr [? _].
  - intros st tr item futures_done emitted [Hlogs Hcount] _.
    destruct item.
    1: { rewrite loop_body_eq, iteration_exception_eq.
         pose proof (_stop_streams_outcome (stream_instances_of self)
                       (set_message_queue (λ l, l ++ emitted) st))
           as (stopped & instances & _ & _ & _ & Hstop & _).
         simpl in Hstop.
         assert (logs_consistent (λ _, 0) (tr ++ shutdown :: instances ≫= stop_effects)).
         { apply logs_consistent_app; [done|]. apply logs_consistent_no_log.
           constructor; [simpl; tauto|]. clear.
           induction instances as [|i instances IH]; [done|].
           simpl. repeat (constructor; [simpl; tauto|]). exact IH. }
         destruct (_stop_streams _ _) as [[] st1 tr1|e1 st1 tr1]; simpl in *; subst;
           by rewrite ?app_nil_r. }
    all: iteration_equations; case_split; rewrite ?app_nil_r; try done.
    all: rewrite <- ?app_assoc; try split.
    all: try (apply logs_consistent_app; [done|]; simpl; split_and?; try done).
    all: try apply logs_consistent_repository.
    all: try (rewrite Nat.add_0_r; by apply Hcount).
    all: try (intros s' n'; rewrite records_yielded_app).
    all: try (intros ?; unfold records_yielded at 2; simpl; rewrite Nat.add_0_r;
              by apply Hcount).
    all: try (apply logs_consistent_no_log;
              rewrite ?Forall_app, ?Forall_cons, ?Forall_nil, ?Forall_fmap;
              split_and!; try apply Forall_true; simpl; tauto).
    all: intros Hlookup;
         match goal with
         | H : stream_instances_of _ !! _ = Some _ |- _ =>
             rewrite (stream_instances_of_name _ _ _ H) in *
         end;
         rewrite !records_yielded_cons, records_yielded_repository; simpl;
         rewrite lookup_insert in Hlookup;
         repeat case_decide; simplify_eq; try (apply Hcount in Hlookup); 
         try match goal with
             | H : record_counter _ !! _ = Some _ |- _ => apply Hcount in H
             end; lia.
  - unfold read_guarded. destruct (prelude _ _ _); [apply guarded_true|done].
Qed.

(** *** The abort *)

Lemma eligible_streams_lookup si catalog stream :
  (∀ k v, si !! k = Some v → AbstractStream.name v = k) →
  stream ∈ eligible_streams si catalog →
  AbstractStream.name stream ∈ catalog ∧
  si !! AbstractStream.name stream = Some stream ∧
  AbstractStream.is_available stream = true.
Proof.
  intros Hname (c & Hc & H)%list_elem_of_omap.
  destruct (si !! c) as [i|] eqn:Hi; [|done].
  destruct (AbstractStream.is_available i) eqn:Ha; [|done].
  injection H as ->. by rewrite (Hname _ _ Hi).
Qed.

(** The streams waiting for discovery and those in progress are streams of
    the source. *)
Lemma streams_known self catalog events st tr :
  read self catalog events = Return Blocked st tr →
  (∀ g, g ∈ partition_generators st → is_Some (stream_instances_of self !! g)) ∧
  (∀ s, s ∈ streams_in_progress st → is_Some (stream_instances_of self !! s)).
Proof.
  revert events st tr. apply read_blocked_invariant.
  - intros st tr (_ & first & rest & tr_sel & Hel & _ & _ & H)%prelude_Return.
    destruct H as (_ & _ & -> & -> & _).
    assert (∀ i, i ∈ first :: rest →
              is_Some (stream_instances_of self !! AbstractStream.name i)) as Hknown.
    { intros i Hi. rewrite <- Hel in Hi.
      apply eligible_streams_lookup in Hi as (_ & -> & _); [done|].
      apply stream_instances_of_name. }
    split.
    + intros g (i & -> & Hi)%list_elem_of_fmap. apply Hknown. by right.
    + intros s ->%elem_of_singleton. apply Hknown. by left.
  - intros st tr item futures_done emitted st' t [Hgen Hprog].
    destruct item; iteration_equations; intros H; case_split; try done.
    all: split;
      [intros generator Hg;
       try match goal with
           | H : partition_generators _ = _ |- _ => rewrite H in Hg
           end;
       first [by apply Hgen | apply Hgen; by right]|].
    all: intros s' Hs';
      first [ by apply Hprog
            | apply elem_of_union in Hs' as [->%elem_of_singleton|?];
              [apply Hgen; by left|by apply Hprog]
            | apply elem_of_difference in Hs' as [? _]; by apply Hprog ].
Qed.




(** *** No stream to read from *)

(** Claim C7 (the only configured stream is unavailable).  When every stream
    of the source is a [StreamFacade] and the catalog names one stream, which
    is known and reports itself unavailable, [read] logs that the stream is
    skipped, emits no status for it, submits no task, and then raises
    [IndexError] from the pop of the empty generator list: the run is
    aborted. *)
Theorem only_stream_unavailable self stream_name stream events :
  Forall (λ s, is_facade s = true) (streams self) →
  stream_instances_of self !! stream_name = Some stream →
  AbstractStream.is_available stream = false →
  ∃ st,
    read self [stream_name] events =
      Raise IndexError st
        [logger_info (Starting_syncing (name self));
         logger_warning (Skipped_syncing_stream (AbstractStream.name stream)
                           (AbstractStream.message stream))].
Proof.
  intros Hfacades Hstream Hunavailable.
  unfold read, read_body, bind at 1, prelude, bind at 1, effect. simpl.
  unfold bind at 1. rewrite _streams_as_abstract_streams_facades by done.
  fold (stream_instances_of self). simpl. rewrite Hstream, Hunavailable.
  unfold bind, effect, ret, start_reading, bind, modify. simpl. eauto.
Qed.

(** *** A stream without partitions *)

Lemma guarded_Forall self si (G : QueueItem → bool) events st :
  Forall (λ ev, match ev with
                | Pop item _ _ => G item = true
                | TimeoutExpired => True
                end) events →
  guarded message_type_is_RECORD self si (λ _, G) events st = true.
Proof.
  intros H. revert st. induction H as [|[item fd em|] events Hev _ IH]; intros st; simpl;
    [done| |done].
  rewrite Hev. simpl. destruct (loop_body _ _ _ _ _ _) as [[] ? ?|]; auto.
Qed.

Lemma elem_of_statuses_of stream status tr :
  status ∈ statuses_of stream tr ↔ ∃ e, e ∈ tr ∧ status_of stream e = Some status.
Proof. apply list_elem_of_omap. Qed.

Lemma not_elem_of_statuses_of stream status tr :
  Forall (λ e, status_of stream e ≠ Some status) tr → status ∉ statuses_of stream tr.
Proof.
  rewrite Forall_forall, elem_of_statuses_of. intros H (e & He & Hs). by eapply H.
Qed.

(** Claim C2 (a stream that discovers no partition).  In every run in which
    no partition, partition-completed sentinel or record of [stream] is ever
    popped, no RUNNING and no COMPLETE status is yielded for [stream],
    whether or not its generator has finished. *)
Theorem stream_without_partitions self catalog events stream :
  no_partition_of stream events →
  (RUNNING ∉ statuses_of stream (outcome_trace (read self catalog events))) ∧
  (COMPLETE ∉ statuses_of stream (outcome_trace (read self catalog events))).
Proof.
  intros Hfree.
  set (P := (λ e, (status_of stream e ≠ Some RUNNING) ∧ (status_of stream e ≠ Some COMPLETE))).
  assert (Forall P (outcome_trace (read self catalog events))) as H.
  { apply (read_invariant message_type_is_RECORD self catalog
             (λ _ tr, Forall P tr) (λ o, Forall P (outcome_trace o))
             (λ _ item, negb (item_of_partition_of stream item))).
    - intros e st tr (tr_sel & -> & Hsel & _)%prelude_Raise. simpl.
      constructor; [done|]. eapply Forall_impl; [exact Hsel|]. by intros [].
    - intros st tr (_ & first & rest & tr_sel & _ & Hsel & -> & _)%prelude_Return.
      constructor; [done|]. apply Forall_app. split.
      + eapply Forall_impl; [exact Hsel|]. by intros [].
      + rewrite !Forall_cons, Forall_nil. unfold P. simpl. split_and!; try done;
          by case_decide.
    - done.
    - done.
    - intros st tr item futures_done emitted Htr Hguard.
      destruct item.
      1: { rewrite loop_body_eq, iteration_exception_eq.
           pose proof (_stop_streams_outcome (stream_instances_of self)
                         (set_message_queue (λ l, l ++ emitted) st))
             as (stopped & instances & _ & _ & _ & Hstop & _).
           simpl in Hstop.
           assert (Forall P (shutdown :: instances ≫= stop_effects)) as Hok.
           { constructor; [done|]. clear.
             induction instances as [|i instances IH]; [done|].
             simpl. rewrite !Forall_cons. unfold P. simpl. split_and!; try done;
               by case_decide. }
           destruct (_stop_streams _ _) as [[] st1 tr1|e1 st1 tr1]; simpl in *; subst;
             rewrite ?app_nil_r; by apply Forall_app. }
      all: iteration_equations; case_split; rewrite ?app_nil_r; try done.
      all: rewrite ?Forall_app, ?Forall_cons, ?Forall_nil, ?Forall_fmap;
           split_and!; try done.
      all: try (by apply Forall_true).
      all: unfold P; simpl; try (by case_decide).
      all: match goal with
           | H : stream_instances_of _ !! _ = Some _ |- _ =>
               rewrite (stream_instances_of_name _ _ _ H)
           end;
           apply negb_true_iff, bool_decide_eq_false in Hguard;
           by rewrite decide_False.
    - unfold read_guarded. destruct (prelude _ _ _); [|done].
      by apply guarded_Forall. }
  rewrite Forall_forall in H.
  split; apply not_elem_of_statuses_of, Forall_forall; intros e He; by apply H.
Qed.

(** *** A second sentinel for the same partition *)

Lemma set_streams_to_partitions_to_done_id st stream_name partition partition_to_done :
  streams_to_partitions_to_done st !! stream_name = Some partition_to_done →
  partition_to_done !! partition = Some true →
  set_streams_to_partitions_to_done
    (<[stream_name := <[partition := true]> partition_to_done]>) st = st.
Proof.
  intros Hs Hp. destruct st. unfold set_streams_to_partitions_to_done. simpl in *.
  by rewrite (insert_id partition_to_done), insert_id.
Qed.

(** *** The statuses of one stream *)

Lemma statuses_of_app s tr1 tr2 :
  statuses_of s (tr1 ++ tr2) = statuses_of s tr1 ++ statuses_of s tr2.
Proof. apply omap_app. Qed.

Lemma statuses_of_selection s tr :
  Forall selection_effect tr → statuses_of s tr = [].
Proof. induction 1 as [|e tr He _ IH]; [done|]. simpl. by destruct e. Qed.

Lemma statuses_of_repository s (l : list RepositoryMessage) :
  statuses_of s ((λ m, Yield (consumed_from_repository m)) <$> l) = [].
Proof. induction l; [done|]. by simpl. Qed.

Lemma statuses_of_stop_effects s stream :
  statuses_of s (stop_effects stream) =
  if decide (AbstractStream.name stream = s) then [INCOMPLETE] else [].
Proof. unfold statuses_of. simpl. by case_decide. Qed.

Lemma statuses_of_stopped (si : gmap string AbstractStream.t) s stopped instances :
  (∀ k v, si !! k = Some v → AbstractStream.name v = k) →
  Forall2 (λ n i, si !! n = Some i) stopped instances →
  NoDup stopped →
  statuses_of s (instances ≫= stop_effects) =
  if decide (s ∈ stopped) then [INCOMPLETE] else [].
Proof.
  intros Hname Hall. induction Hall as [|n i ns is_ Hn _ IH]; intros Hnodup.
  - by rewrite decide_False by apply not_elem_of_nil.
  - apply NoDup_cons in Hnodup as [Hnotin Hnodup]. specialize (IH Hnodup).
    rewrite bind_cons, statuses_of_app, statuses_of_stop_effects, IH, (Hname _ _ Hn).
    destruct (decide (n = s)) as [->|Hne]; simpl.
    + rewrite decide_False by done. rewrite decide_True; [done|by left].
    + destruct (decide (s ∈ ns)).
      * rewrite decide_True; [done|by right].
      * rewrite decide_False; [done|]. rewrite not_elem_of_cons. by split.
Qed.

Lemma eligible_streams_sublist si catalog :
  (∀ k v, si !! k = Some v → AbstractStream.name v = k) →
  names (eligible_streams si catalog) `sublist_of` catalog.
Proof.
  intros Hname. induction catalog as [|c catalog IH]; simpl; [done|].
  destruct (si !! c) as [i|] eqn:Hi; [|by apply sublist_cons].
  destruct (AbstractStream.is_available i); [|by apply sublist_cons].
  simpl. rewrite (Hname _ _ Hi). by apply sublist_skip.
Qed.

Local Ltac solve_elem_of := apply (bool_decide_unpack _); vm_compute; exact I.

Lemma lifecycle_invariant_prefix stream st tr :
  lifecycle_invariant stream st tr →
  statuses_of stream tr ∈ lifecycle_prefixes.
Proof.
  intros (_ & Hwaiting & Hprogress & Hother).
  destruct (decide (stream ∈ streams_in_progress st)) as [Hin|Hnotin].
  - destruct (Hprogress Hin) as [->|[-> _]]; solve_elem_of.
  - destruct (decide (stream ∈ partition_generators st)) as [Hgen|Hnotgen].
    + destruct (Hwaiting Hgen) as [_ ->]. solve_elem_of.
    + specialize (Hother Hnotgen Hnotin).
      rewrite !elem_of_cons in Hother.
      destruct Hother as [->|[->|[->|[]%elem_of_nil]]]; solve_elem_of.
Qed.

Lemma lifecycle_invariant_prelude self catalog stream st tr :
  NoDup catalog →
  prelude self catalog (initial_state self) = Return (stream_instances_of self) st tr →
  lifecycle_invariant stream st tr.
Proof.
  intros Hnodup (_ & first & rest & tr_sel & Hel & Hsel & -> & H)%prelude_Return.
  destruct H as (_ & _ & Hgen & Hprog & _ & _ & Hrc & _).
  assert (NoDup (AbstractStream.name first :: names rest)) as Hnames.
  { apply (sublist_NoDup _ catalog); [done|].
    change (names (first :: rest) `sublist_of` catalog). rewrite <- Hel.
    apply eligible_streams_sublist, stream_instances_of_name. }
  apply NoDup_cons in Hnames as [Hfirst Hrest].
  assert (statuses_of stream
            (logger_info (Starting_syncing (name self)) :: tr_sel ++
             [submit (generate_partitions (AbstractStream.name first));
              logger_info (Marking_stream_as_STARTED (AbstractStream.name first));
              logger_info (Syncing_stream (AbstractStream.name first));
              Yield (stream_status_as_airbyte_message (AbstractStream.name first) None
                       STARTED)])
          = if decide (AbstractStream.name first = stream) then [STARTED] else [])
    as Hstatuses.
  { change (logger_info ?x :: ?l) with ([logger_info x] ++ l).
    rewrite !statuses_of_app, (statuses_of_selection _ _ Hsel).
    unfold statuses_of. simpl. by case_decide. }
  unfold lifecycle_invariant. rewrite Hstatuses, Hgen, Hprog.
  split_and!.
  - done.
  - intros Hin. assert (AbstractStream.name first ≠ stream) as Hne by (by intros <-).
    rewrite decide_False by done. split; [|done].
    rewrite elem_of_singleton. congruence.
  - intros ->%elem_of_singleton. rewrite decide_True by done. by left.
  - intros _ Hne. rewrite elem_of_singleton in Hne.
    rewrite decide_False by done. by left.
Qed.

Lemma statuses_of_cons s e tr :
  statuses_of s (e :: tr) =
  match status_of s e with Some status => [status] | None => [] end ++ statuses_of s tr.
Proof. unfold statuses_of. simpl. by destruct (status_of s e). Qed.

Lemma lifecycle_iteration self stream st tr item futures_done :
  lifecycle_invariant stream st tr →
  record_in_progress st item = true →
  match iteration message_type_is_RECORD self (stream_instances_of self) item
          futures_done st with
  | Return _ st' t => lifecycle_invariant stream st' (tr ++ t)
  | Raise _ _ t => statuses_of stream (tr ++ t) ∈ lifecycle_prefixes
  end.
Proof.
  intros Hinv Hguard.
  assert (statuses_of stream (tr ++ []) ∈ lifecycle_prefixes) as Hquiet.
  { rewrite app_nil_r. by eapply lifecycle_invariant_prefix. }
  destruct item as [e|stream_name|partition|partition|stream_name data].
  - rewrite iteration_exception_eq.
    pose proof (_stop_streams_outcome (stream_instances_of self) st)
      as (stopped & instances & Hprefix & Hall & _ & Hstop & _).
    simpl in Hstop.
    assert (statuses_of stream (tr ++ shutdown :: instances ≫= stop_effects)
            ∈ lifecycle_prefixes) as Hstopped.
    { change (shutdown :: ?l) with ([shutdown] ++ l).
      rewrite !statuses_of_app. simpl.
      rewrite (statuses_of_stopped (stream_instances_of self) stream stopped);
        [|apply stream_instances_of_name|done|].
      2: { destruct Hprefix as [rest Hrest].
           pose proof (NoDup_elements (streams_in_progress st)) as Hnodup.
           rewrite Hrest in Hnodup. by apply NoDup_app in Hnodup as [? _]. }
      destruct Hinv as (_ & _ & Hprogress & _).
      case_decide as Hin; [|by rewrite app_nil_r in *].
      assert (stream ∈ streams_in_progress st) as Hin'.
      { apply elem_of_elements. eapply elem_of_prefix; done. }
      destruct (Hprogress Hin') as [->|[-> _]]; solve_elem_of. }
    destruct (_stop_streams _ _) as [[] st1 tr1|e1 st1 tr1]; simpl in *; by subst.
  - rewrite iteration_generation_completed_eq.
    destruct (list_remove_first _ _) as [running|]; [|done].
    destruct (partition_generators st) as [|next rest] eqn:Hgen; simpl.
    + by apply (lifecycle_unchanged stream st).
    + apply (lifecycle_started _ st _ _ _ next); try done.
      unfold statuses_of. simpl. by case_decide.
  - rewrite iteration_partition_eq.
    destruct (_ !! _) as [partition_to_done|]; [|done]. simpl.
    by apply (lifecycle_unchanged stream st).
  - rewrite iteration_partition_completed_eq. simpl.
    destruct (streams_to_partitions_to_done st !! _) as [partition_to_done|]; [|done].
    destruct (stream_instances_of self !! _) as [instance|] eqn:Hinstance; [|done].
    apply stream_instances_of_name in Hinstance. rewrite Hinstance.
    destruct (all_values _ && _); [|by apply (lifecycle_unchanged stream st)].
    destruct (decide (_ ∈ _)) as [Hin|];
      [|rewrite statuses_of_app; simpl; by rewrite app_nil_r in *].
    destruct (record_counter st !! _) as [count|];
      [|rewrite statuses_of_app; simpl; by rewrite app_nil_r in *].
    apply (lifecycle_completed _ st _ _ _ (Partition.stream_name partition)); try done.
    unfold statuses_of. simpl. by case_decide.
  - rewrite iteration_record_eq.
    destruct (stream_instances_of self !! _) as [instance|] eqn:Hinstance; [|done].
    apply stream_instances_of_name in Hinstance. rewrite Hinstance.
    destruct (record_counter st !! _) as [count|] eqn:Hcount; [|done]. simpl.
    apply bool_decide_eq_true in Hguard.
    apply (lifecycle_record _ st _ _ _ stream_name count); try done.
    destruct (decide (count = 0));
      rewrite ?statuses_of_app, ?statuses_of_cons, statuses_of_repository;
      unfold statuses_of; simpl; by case_decide.
Qed.

(** For a catalog that names each stream once, and a run in which every
    record is popped while its stream is in progress, the statuses yielded
    for a stream, in order, form a prefix of STARTED, optional RUNNING, then
    one of COMPLETE or INCOMPLETE. *)
Lemma lifecycle_prefix_of_timely_runs self catalog events stream :
  NoDup catalog →
  records_popped_in_progress message_type_is_RECORD self catalog events = true →
  statuses_of stream (outcome_trace (read self catalog events)) ∈ lifecycle_prefixes.
Proof.
  intros Hnodup Hrecords.
  apply (read_invariant message_type_is_RECORD self catalog
           (lifecycle_invariant stream)
           (λ o, statuses_of stream (outcome_trace o) ∈ lifecycle_prefixes)
           record_in_progress); try done.
  - intros e st tr (tr_sel & -> & Hsel & _)%prelude_Raise. cbn [outcome_trace].
    rewrite statuses_of_cons, (statuses_of_selection _ _ Hsel). solve_elem_of.
  - intros st tr Hp. by eapply lifecycle_invariant_prelude.
  - intros st tr Hinv. by eapply lifecycle_invariant_prefix.
  - intros st tr Hinv. by eapply lifecycle_invariant_prefix.
  - intros st tr item futures_done emitted Hinv Hguard. rewrite loop_body_eq.
    pose proof (lifecycle_iteration self stream (set_message_queue (.++ emitted) st) tr
                  item futures_done) as Hstep.
    destruct (iteration _ _ _ _ _ _) as [[] st' t|e st' t]; cbn [outcome_trace prepend].
    + by apply Hstep.
    + unfold epilogue, bind, effect, ret. cbn [outcome_trace prepend app].
      rewrite statuses_of_app, !statuses_of_cons. cbn [status_of].
      unfold statuses_of at 2. cbn [omap list_omap app]. rewrite app_nil_r.
      eapply lifecycle_invariant_prefix. by apply Hstep.
    + by apply Hstep.
Qed.

End Claims.

(** ** Closed instances *)

Lemma blocked_eta (o : Outcome RunEnd) :
  outcome_result o = inr Blocked →
  o = Return Blocked (outcome_state o) (outcome_trace o).
Proof. destruct o as [[] ? ?|]; by intros [=]. Qed.



(** The generator of "a" finishes without a partition: the run ends
    normally and "a" has only been STARTED. *)
Lemma stream_without_partitions_witness :
  outcome_result
    (read always_RECORD example_source ["a"]
       [Pop (PartitionGenerationCompletedSentinel "a") true []])
  = inr Finished ∧
  COMPLETE ∉
    statuses_of "a"
      (outcome_trace
         (read always_RECORD example_source ["a"]
            [Pop (PartitionGenerationCompletedSentinel "a") true []])).
Proof.
  split; [vm_compute; reflexivity|].
  apply (stream_without_partitions always_RECORD example_source ["a"]
           [Pop (PartitionGenerationCompletedSentinel "a") true []] "a").
  repeat constructor.
Defined.

(** While "a" is discovering, "b" waits. *)
Lemma discovery_concurrency_cap_witness :
  length (partition_generator_running
            (outcome_state (read always_RECORD example_source ["a"; "b"] []))) ≤ 1.
Proof.
  eapply (discovery_concurrency_cap always_RECORD example_source ["a"; "b"] []).
  apply blocked_eta. vm_compute. reflexivity.
Defined.

(** Whatever the source is made of, two generation tasks never run at once. *)
Lemma discovery_cap_is_not_configurable :
  ¬ ∃ message_type_is_RECORD self catalog events st tr,
      read message_type_is_RECORD self catalog events = Return Blocked st tr ∧
      1 < length (partition_generator_running st).
Proof.
  intros (message_type_is_RECORD & self & catalog & events & st & tr & Hread & Hlt).
  apply running_bounded in Hread. lia.
Qed.

(** The catalog holds only the unavailable stream "u". *)
Lemma only_stream_unavailable_witness :
  outcome_result (read always_RECORD example_source ["u"] []) = inl IndexError.
Proof.
  destruct (only_stream_unavailable always_RECORD example_source "u" example_stream_u [])
    as [st Hread].
  - by repeat constructor.
  - vm_compute. reflexivity.
  - reflexivity.
  - rewrite Hread. reflexivity.
Defined.


(** ** Runs, event by event *)

Section Runs.
Context (message_type_is_RECORD : string → StreamData → bool).

Local Abbreviation read := (read message_type_is_RECORD).
Local Abbreviation loop := (loop message_type_is_RECORD).
Local Abbreviation loop_body := (loop_body message_type_is_RECORD).

Lemma loop_singleton self si ev st :
  loop self si [ev] st =
  match ev with
  | TimeoutExpired => Raise QueueEmpty st []
  | Pop item futures_done emitted =>
      match loop_body self si item futures_done emitted st with
      | Return Continue st' t => Return Blocked st' t
      | Return Break st' t => prepend t (epilogue self st')
      | Raise e st' t => Raise e st' t
      end
  end.
Proof.
  destruct ev as [item futures_done emitted|]; [|done].
  simpl. unfold bind at 1.
  destruct (loop_body _ _ _ _ _ _) as [[] st' t|]; [|done..].
  simpl. by rewrite app_nil_r.
Qed.

Lemma epilogue_eq self st :
  epilogue self st = Return Finished st (epilogue_effects self).
Proof. done. Qed.

(** A run that waits after [evs ++ [ev]] waited after [evs], and [ev] is an
    item whose iteration went on to the next pop. *)
Lemma read_blocked_snoc self catalog evs ev st' tr' :
  read self catalog (evs ++ [ev]) = Return Blocked st' tr' →
  ∃ st tr item futures_done emitted t,
    ev = Pop item futures_done emitted ∧
    read self catalog evs = Return Blocked st tr ∧
    loop_body self (stream_instances_of self) item futures_done emitted st
      = Return Continue st' t ∧
    tr' = tr ++ t.
Proof.
  intros Hread.
  destruct (read self catalog evs) as [[] st tr|e st tr] eqn:Hevs.
  - rewrite read_unfold in Hevs, Hread.
    destruct (prelude _ _ _) as [si st0 tr0|]; [|done].
    rewrite loop_app in Hread.
    destruct (loop self si evs st0) as [[] ? ?|]; simpl in *; congruence.
  - destruct (read_app _ _ _ _ [ev] _ _ Hevs) as (si & st0 & tr0 & Hp & Heq).
    apply prelude_Return in Hp as [-> _].
    rewrite Heq, loop_singleton in Hread.
    destruct ev as [item futures_done emitted|]; [|done].
    exists st, tr, item, futures_done, emitted.
    destruct (loop_body _ _ _ _ _ _) as [[] st1 t|]; simpl in Hread; try done.
    injection Hread as <- <-. by exists t.
  - rewrite read_unfold in Hevs, Hread.
    destruct (prelude _ _ _) as [si st0 tr0|]; [|done].
    rewrite loop_app in Hread.
    destruct (loop self si evs st0) as [[] ? ?|]; simpl in *; congruence.
Qed.

(** An invariant of the states in which a run waits for the queue, which may
    speak of the events consumed so far. *)
Lemma read_blocked_ind self catalog (I : list Event → State → list Effect → Prop) :
  (∀ st tr, prelude self catalog (initial_state self)
              = Return (stream_instances_of self) st tr → I [] st tr) →
  (∀ evs st tr item futures_done emitted st' t,
     read self catalog evs = Return Blocked st tr → I evs st tr →
     loop_body self (stream_instances_of self) item futures_done emitted st
       = Return Continue st' t →
     I (evs ++ [Pop item futures_done emitted]) st' (tr ++ t)) →
  ∀ events st tr, read self catalog events = Return Blocked st tr → I events st tr.
Proof.
  intros Hinit Hstep events.
  induction events as [|ev evs IH] using rev_ind; intros st tr Hread.
  - apply Hinit. rewrite read_unfold in Hread. simpl in Hread.
    destruct (prelude _ _ _) as [si st0 tr0|] eqn:Hp; [|done].
    destruct (prelude_Return _ _ _ _ _ Hp) as [-> _].
    simpl in Hread. rewrite app_nil_r in Hread. by injection Hread as -> ->.
  - apply read_blocked_snoc in Hread
      as (st0 & tr0 & item & futures_done & emitted & t & -> & Hevs & Hbody & ->).
    eapply Hstep; eauto.
Qed.

(** How a run can stand at the end of its events: the prelude raised; the
    driver waits; the pop after a wait timed out; the iteration after a wait
    left the loop; the iteration after a wait raised. *)
Lemma read_outcome_ind self catalog (T : list Event → Outcome RunEnd → Prop) :
  (∀ events e st tr, prelude self catalog (initial_state self) = Raise e st tr →
     T events (Raise e st tr)) →
  (∀ events st tr, read self catalog events = Return Blocked st tr →
     T events (Return Blocked st tr)) →
  (∀ evs rest st tr, read self catalog evs = Return Blocked st tr →
     T (evs ++ TimeoutExpired :: rest) (Raise QueueEmpty st tr)) →
  (∀ evs item futures_done emitted rest st tr st' t,
     read self catalog evs = Return Blocked st tr →
     loop_body self (stream_instances_of self) item futures_done emitted st
       = Return Break st' t →
     T (evs ++ Pop item futures_done emitted :: rest)
       (Return Finished st' (tr ++ t ++ epilogue_effects self))) →
  (∀ evs item futures_done emitted rest st tr e st' t,
     read self catalog evs = Return Blocked st tr →
     loop_body self (stream_instances_of self) item futures_done emitted st
       = Raise e st' t →
     T (evs ++ Pop item futures_done emitted :: rest) (Raise e st' (tr ++ t))) →
  ∀ events, T events (read self catalog events).
Proof.
  intros Hprelude Hblocked Htimeout Hbreak Hraise events.
  destruct (prelude self catalog (initial_state self)) as [si st0 tr0|e st0 tr0] eqn:Hp.
  2: { rewrite read_unfold, Hp. by apply Hprelude. }
  destruct (prelude_Return _ _ _ _ _ Hp) as [-> _].
  assert (read self catalog [] = Return Blocked st0 tr0) as Hnil.
  { rewrite read_unfold, Hp. simpl. by rewrite app_nil_r. }
  clear Hp Hprelude.
  change events with ([] ++ events) at 1 2.
  generalize (@nil Event) st0 tr0 Hnil. clear st0 tr0 Hnil.
  induction events as [|ev events IH]; intros evs st tr Hevs.
  - rewrite app_nil_r, Hevs. by apply Hblocked.
  - destruct (read_app _ _ _ _ (ev :: events) _ _ Hevs) as (si & st0 & tr0 & Hp & Heq).
    destruct (prelude_Return _ _ _ _ _ Hp) as [-> _].
    destruct ev as [item futures_done emitted|].
    + destruct (loop_body self (stream_instances_of self) item futures_done emitted st)
        as [[] st' t|e st' t] eqn:Hbody.
      * assert (read self catalog (evs ++ [Pop item futures_done emitted])
                = Return Blocked st' (tr ++ t)) as Hnext.
        { destruct (read_app _ _ _ _ [Pop item futures_done emitted] _ _ Hevs)
            as (si' & st1 & tr1 & Hp' & ->).
          destruct (prelude_Return _ _ _ _ _ Hp') as [-> _].
          rewrite loop_singleton, Hbody. done. }
        specialize (IH _ _ _ Hnext). by rewrite <- app_assoc in IH.
      * rewrite Heq. simpl. unfold bind at 1. rewrite Hbody. simpl.
        by eapply Hbreak.
      * rewrite Heq. simpl. unfold bind at 1. rewrite Hbody. simpl.
        by eapply Hraise.
    + rewrite Heq. simpl. rewrite app_nil_r. by apply Htimeout.
Qed.

End Runs.

Lemma list_remove_first_subseteq x l l' y :
  list_remove_first x l = Some l' → y ∈ l' → y ∈ l.
Proof.
  revert l'. induction l as [|z l IH]; intros l'; simpl; [done|].
  destruct (decide (x = z)) as [->|Hne].
  - intros [= ->] Hy. by right.
  - destruct (list_remove_first x l) as [l0|]; [|done].
    simpl. intros [= <-] [->|Hy]%elem_of_cons; [by left|].
    right. by apply IH with l0.
Qed.

Lemma omap_selection_effects {A} (f : Effect → option A) tr :
  (∀ e, selection_effect e → f e = None) →
  Forall selection_effect tr → omap f tr = [].
Proof.
  intros Hf. induction 1 as [|e tr He _ IH]; [done|].
  simpl. by rewrite (Hf e He).
Qed.

Lemma selection_projections tr :
  Forall selection_effect tr →
  started_streams tr = [] ∧ stopped_streams tr = [] ∧ submitted tr = [] ∧
  record_yields tr = [] ∧ cursor_observes tr = [] ∧ cursor_closes tr = [] ∧
  repository_yields tr = [] ∧ timer_finishes tr = [] ∧ shutdowns tr = 0.
Proof.
  intros H. split_and!; try (apply omap_selection_effects; [|done]; by intros []).
  induction H as [|e tr He _ IH]; [done|]. by destruct e.
Qed.

Lemma started_streams_app tr t :
  started_streams (tr ++ t) = started_streams tr ++ started_streams t.
Proof. apply omap_app. Qed.
Lemma stopped_streams_app tr t :
  stopped_streams (tr ++ t) = stopped_streams tr ++ stopped_streams t.
Proof. apply omap_app. Qed.
Lemma submitted_app tr t : submitted (tr ++ t) = submitted tr ++ submitted t.
Proof. apply omap_app. Qed.
Lemma generator_tasks_app l k :
  generator_tasks (l ++ k) = generator_tasks l ++ generator_tasks k.
Proof. apply omap_app. Qed.
Lemma reader_tasks_app l k : reader_tasks (l ++ k) = reader_tasks l ++ reader_tasks k.
Proof. apply omap_app. Qed.
Lemma record_yields_app tr t : record_yields (tr ++ t) = record_yields tr ++ record_yields t.
Proof. apply omap_app. Qed.
Lemma cursor_observes_app tr t :
  cursor_observes (tr ++ t) = cursor_observes tr ++ cursor_observes t.
Proof. apply omap_app. Qed.
Lemma cursor_closes_app tr t : cursor_closes (tr ++ t) = cursor_closes tr ++ cursor_closes t.
Proof. apply omap_app. Qed.
Lemma repository_yields_app tr t :
  repository_yields (tr ++ t) = repository_yields tr ++ repository_yields t.
Proof. apply omap_app. Qed.
Lemma timer_starts_app tr t : timer_starts (tr ++ t) = timer_starts tr ++ timer_starts t.
Proof. apply omap_app. Qed.
Lemma timer_finishes_app tr t :
  timer_finishes (tr ++ t) = timer_finishes tr ++ timer_finishes t.
Proof. apply omap_app. Qed.
Lemma shutdowns_app tr t : shutdowns (tr ++ t) = shutdowns tr + shutdowns t.
Proof. apply sum_list_with_app. Qed.

Lemma drained_projections (l : list RepositoryMessage) :
  let t := (λ m, Yield (consumed_from_repository m)) <$> l in
  started_streams t = [] ∧ stopped_streams t = [] ∧ submitted t = [] ∧
  record_yields t = [] ∧ cursor_observes t = [] ∧ cursor_closes t = [] ∧
  repository_yields t = l ∧ timer_starts t = [] ∧ timer_finishes t = [] ∧
  shutdowns t = 0.
Proof.
  induction l as [|m l IH]; [done|].
  destruct IH as (? & ? & ? & ? & ? & ? & ? & ? & ? & ?).
  split_and!; try done. simpl. by f_equal.
Qed.

Lemma started_streams_drained (l : list RepositoryMessage) :
  started_streams ((λ m, Yield (consumed_from_repository m)) <$> l) = [].
Proof. apply drained_projections. Qed.
Lemma stopped_streams_drained (l : list RepositoryMessage) :
  stopped_streams ((λ m, Yield (consumed_from_repository m)) <$> l) = [].
Proof. apply drained_projections. Qed.
Lemma submitted_drained (l : list RepositoryMessage) :
  submitted ((λ m, Yield (consumed_from_repository m)) <$> l) = [].
Proof. apply drained_projections. Qed.
Lemma record_yields_drained (l : list RepositoryMessage) :
  record_yields ((λ m, Yield (consumed_from_repository m)) <$> l) = [].
Proof. apply drained_projections. Qed.
Lemma cursor_observes_drained (l : list RepositoryMessage) :
  cursor_observes ((λ m, Yield (consumed_from_repository m)) <$> l) = [].
Proof. apply drained_projections. Qed.
Lemma cursor_closes_drained (l : list RepositoryMessage) :
  cursor_closes ((λ m, Yield (consumed_from_repository m)) <$> l) = [].
Proof. apply drained_projections. Qed.
Lemma repository_yields_drained (l : list RepositoryMessage) :
  repository_yields ((λ m, Yield (consumed_from_repository m)) <$> l) = l.
Proof. apply drained_projections. Qed.
Lemma timer_starts_drained (l : list RepositoryMessage) :
  timer_starts ((λ m, Yield (consumed_from_repository m)) <$> l) = [].
Proof. apply drained_projections. Qed.
Lemma timer_finishes_drained (l : list RepositoryMessage) :
  timer_finishes ((λ m, Yield (consumed_from_repository m)) <$> l) = [].
Proof. apply drained_projections. Qed.
Lemma shutdowns_drained (l : list RepositoryMessage) :
  shutdowns ((λ m, Yield (consumed_from_repository m)) <$> l) = 0.
Proof. apply drained_projections. Qed.

Lemma completed_streams_app tr t :
  completed_streams (tr ++ t) = completed_streams tr ++ completed_streams t.
Proof. apply omap_app. Qed.
Lemma incomplete_streams_app tr t :
  incomplete_streams (tr ++ t) = incomplete_streams tr ++ incomplete_streams t.
Proof. apply omap_app. Qed.
Lemma completed_streams_drained (l : list RepositoryMessage) :
  completed_streams ((λ m, Yield (consumed_from_repository m)) <$> l) = [].
Proof. induction l; [done|]. by simpl. Qed.
Lemma incomplete_streams_drained (l : list RepositoryMessage) :
  incomplete_streams ((λ m, Yield (consumed_from_repository m)) <$> l) = [].
Proof. induction l; [done|]. by simpl. Qed.

Lemma running_streams_app tr t :
  running_streams (tr ++ t) = running_streams tr ++ running_streams t.
Proof. apply omap_app. Qed.
Lemma running_streams_drained (l : list RepositoryMessage) :
  running_streams ((λ m, Yield (consumed_from_repository m)) <$> l) = [].
Proof. induction l; [done|]. by simpl. Qed.

(** Split the projections of a trace along its appends and evaluate them on
    the effects of one iteration. *)
Ltac trace_projections :=
  repeat progress
    (rewrite ?started_streams_app, ?stopped_streams_app, ?submitted_app,
       ?generator_tasks_app, ?reader_tasks_app, ?record_yields_app, ?cursor_observes_app,
       ?cursor_closes_app, ?repository_yields_app, ?timer_starts_app, ?timer_finishes_app,
       ?shutdowns_app, ?completed_streams_app, ?incomplete_streams_app,
       ?running_streams_app;
     rewrite ?started_streams_drained, ?stopped_streams_drained, ?submitted_drained,
       ?record_yields_drained, ?cursor_observes_drained, ?cursor_closes_drained,
       ?repository_yields_drained, ?timer_starts_drained, ?timer_finishes_drained,
       ?shutdowns_drained, ?completed_streams_drained, ?incomplete_streams_drained,
       ?running_streams_drained;
     simpl);
  rewrite ?app_nil_r.

Lemma all_done_control_Break futures_done st :
  all_done_control futures_done st = Break →
  partition_generator_running st = [] ∧ partition_generators st = [] ∧
  all_all_values (streams_to_partitions_to_done st) = true ∧ futures_done = true.
Proof.
  unfold all_done_control.
  destruct (bool_decide_reflect (partition_generator_running st = [])); [|done].
  destruct (bool_decide_reflect (partition_generators st = [])); [|done].
  destruct (all_all_values _); [|done].
  by destruct futures_done.
Qed.

(** Split the test of [_handle_partition_completed] found among the
    hypotheses. *)
Ltac completion_condition :=
  match goal with
  | H : all_values _ && bool_decide (_ ∉ _) = true |- _ =>
      let Hall := fresh "Hall" in
      let Hnot_running := fresh "Hnot_running" in
      apply andb_true_iff in H as [Hall Hnot_running];
      apply bool_decide_eq_true in Hnot_running
  end.

Section Waiting.
Context (message_type_is_RECORD : string → StreamData → bool).

Local Abbreviation read := (read message_type_is_RECORD).
Local Abbreviation loop_body := (loop_body message_type_is_RECORD).

Lemma waiting_discovery self catalog events st tr :
  read self catalog events = Return Blocked st tr →
  started_streams tr ++ partition_generators st
    = names (eligible_streams (stream_instances_of self) catalog) ∧
  generator_tasks (submitted tr) = started_streams tr ∧
  (partition_generators st ≠ [] → partition_generator_running st ≠ []) ∧
  (∀ s, s ∈ partition_generator_running st → s ∈ streams_in_progress st) ∧
  (∀ s, s ∈ streams_in_progress st → s ∈ started_streams tr).
Proof.
  revert events st tr. apply read_blocked_invariant.
  - intros st tr (_ & first & rest & tr_sel & Hel & Hsel & -> & H)%prelude_Return.
    destruct H as (_ & -> & -> & -> & _). rewrite Hel.
    destruct (selection_projections _ Hsel) as (Hs1 & _ & Hs2 & _).
    change (?x :: ?l ++ ?k) with ([x] ++ l ++ k).
    rewrite !started_streams_app, !submitted_app, Hs1, Hs2. simpl.
    simpl. split_and!; try done.
    + intros s. rewrite list_elem_of_singleton. set_solver.
    + intros s. rewrite list_elem_of_singleton. set_solver.
  - intros st tr item futures_done emitted st' t (Hstarted & Htasks & Hgens & Hrun & Hprog).
    destruct item; iteration_equations; intros H; case_split; trace_projections;
      try (split_and!; done).
    + rewrite H1. split_and!; try done.
      intros s Hs. apply Hrun. by eapply list_remove_first_subseteq.
    + rewrite <- app_assoc. split_and!; try done.
      * by rewrite Htasks.
      * intros _. by destruct l.
      * intros s0 [Hs0|Hs0]%elem_of_app.
        -- apply elem_of_union_r, Hrun. by eapply list_remove_first_subseteq.
        -- apply list_elem_of_singleton in Hs0 as ->. by apply elem_of_union_l, elem_of_singleton.
      * intros s0 [Hs0|Hs0]%elem_of_union; apply elem_of_app.
        -- apply elem_of_singleton in Hs0 as ->. right. by apply list_elem_of_singleton.
        -- left. by apply Hprog.
    + split_and!; try done.
      * intros s Hs. apply elem_of_difference. split; [by apply Hrun|].
        apply not_elem_of_singleton. intros ->. by completion_condition.
      * intros s [Hs _]%elem_of_difference. by apply Hprog.
Qed.
End Waiting.

Lemma stop_projections (instances : list AbstractStream.t) :
  let t := instances ≫= stop_effects in
  started_streams t = [] ∧ stopped_streams t = names instances ∧ submitted t = [] ∧
  record_yields t = [] ∧ cursor_observes t = [] ∧ cursor_closes t = [] ∧
  repository_yields t = [] ∧ timer_starts t = [] ∧ timer_finishes t = names instances ∧
  shutdowns t = 0.
Proof.
  induction instances as [|i instances IH]; [done|].
  destruct IH as (? & ? & ? & ? & ? & ? & ? & ? & ? & ?).
  split_and!; try done; simpl; by f_equal.
Qed.

Lemma prelude_raise_projections (l : LogLine) tr_sel :
  Forall selection_effect tr_sel →
  let t := logger_info l :: tr_sel in
  started_streams t = [] ∧ stopped_streams t = [] ∧ submitted t = [] ∧
  record_yields t = [] ∧ cursor_observes t = [] ∧ cursor_closes t = [] ∧
  repository_yields t = [] ∧ timer_finishes t = [] ∧ shutdowns t = 0.
Proof.
  intros H. destruct (selection_projections _ H) as (? & ? & ? & ? & ? & ? & ? & ? & ?).
  split_and!; done.
Qed.

Section ErrorItem.
Context (message_type_is_RECORD : string → StreamData → bool).

Local Abbreviation read := (read message_type_is_RECORD).
Local Abbreviation loop_body := (loop_body message_type_is_RECORD).

(** The iteration for an error item, from a state in which a run waits. *)
Lemma loop_body_exception self catalog events st tr e futures_done emitted :
  read self catalog events = Return Blocked st tr →
  ∃ instances,
    names instances = elements (streams_in_progress st) ∧
    loop_body self (stream_instances_of self) (ItemException e) futures_done emitted st =
      Raise e (set_message_queue (.++ emitted) st)
        (shutdown :: (instances ≫= stop_effects)).
Proof.
  intros Hread.
  destruct (streams_known _ _ _ _ _ _ Hread) as [_ Hknown].
  pose proof (_stop_streams_outcome (stream_instances_of self)
                (set_message_queue (λ l, l ++ emitted) st))
    as (stopped & instances & _ & Hall & Hst & Hstop & Hres).
  simpl in Hstop, Hres, Hst.
  exists instances.
  rewrite loop_body_eq, iteration_exception_eq.
  destruct (_stop_streams _ _) as [[] st1 tr1|e1 st1 tr1] eqn:Hs; simpl in *.
  - subst. split; [|done].
    clear -Hall. induction Hall as [|n i ns is_ Hn _ IH]; [done|].
    simpl. f_equal; [|done]. by apply dict_by_name_name in Hn.
  - destruct Hres as (k & -> & Hnone & Hin).
    apply Hknown in Hin as [? Hsome]. congruence.
Qed.

End ErrorItem.

(** When no stream is in progress, none discovers partitions and none waits
    for discovery. *)
Lemma nothing_in_progress (generators running : list string) (in_progress : gset string)
    (removed : gset string) :
  (generators ≠ [] → running ≠ []) →
  (∀ s, s ∈ running → s ∈ in_progress) →
  (∀ s, s ∈ running → s ∉ removed) →
  in_progress ∖ removed = ∅ →
  generators = [] ∧ running = [].
Proof.
  intros Hgens Hrun Hremoved Hempty.
  assert (running = []) as Hrunning.
  { destruct running as [|s running]; [done|].
    assert (s ∈ in_progress ∖ removed) as Hs.
    { apply elem_of_difference. split; [apply Hrun|apply Hremoved]; by left. }
    rewrite Hempty in Hs. by apply not_elem_of_empty in Hs. }
  split; [|done]. destruct generators; [done|]. by destruct Hgens.
Qed.

Section Discovery.
Context (message_type_is_RECORD : string → StreamData → bool).

Local Abbreviation read := (read message_type_is_RECORD).
Local Abbreviation loop_body := (loop_body message_type_is_RECORD).

(** Property X1. Discovery follows the catalog. In every run, the streams that get a
    STARTED status are, in order, the first eligible streams of the catalog,
    each with one generation task submitted for it; while the driver waits,
    the eligible streams not yet started are exactly those still waiting for
    discovery; and a run that finishes has started every eligible stream. *)
Theorem discovery_in_catalog_order self catalog events :
  let eligible := names (eligible_streams (stream_instances_of self) catalog) in
  let o := read self catalog events in
  generator_tasks (submitted (outcome_trace o)) = started_streams (outcome_trace o) ∧
  match o with
  | Return Finished _ tr => started_streams tr = eligible
  | Return Blocked st tr => started_streams tr ++ partition_generators st = eligible
  | Raise _ _ tr => started_streams tr `prefix_of` eligible
  end.
Proof.
  cbv zeta. revert events.
  apply (read_outcome_ind message_type_is_RECORD self catalog (λ _ o,
    generator_tasks (submitted (outcome_trace o)) = started_streams (outcome_trace o) ∧
    match o with
    | Return Finished _ tr =>
        started_streams tr = names (eligible_streams (stream_instances_of self) catalog)
    | Return Blocked st tr =>
        started_streams tr ++ partition_generators st
        = names (eligible_streams (stream_instances_of self) catalog)
    | Raise _ _ tr =>
        started_streams tr `prefix_of`
          names (eligible_streams (stream_instances_of self) catalog)
    end)).
  - intros _ e st tr (tr_sel & -> & Hsel & _)%prelude_Raise.
    destruct (prelude_raise_projections (Starting_syncing (name self)) _ Hsel)
      as (Hs1 & _ & Hs2 & _).
    cbn [outcome_trace]. rewrite Hs1, Hs2. split; [done|]. apply prefix_nil.
  - intros _ st tr (? & ? & _)%waiting_discovery. done.
  - intros evs _ st tr (Hstarted & ? & _)%waiting_discovery. simpl.
    split; [done|]. rewrite <- Hstarted. by apply prefix_app_r.
  - intros evs item futures_done emitted _ st tr st' t
      (Hstarted & Htasks & Hgens & Hrun & _)%waiting_discovery.
    destruct item; iteration_equations; intros H; case_split; trace_projections;
      try match goal with
          | H : all_done_control _ _ = Break |- _ =>
              apply all_done_control_Break in H as (_ & Hnone & _); simpl in Hnone
          end.
    all: split; [by rewrite ?Htasks|].
    all: try (rewrite ?Hnone, ?app_nil_r in Hstarted; done).
    all: try (subst; by rewrite <- app_assoc).
    all: try completion_condition.
    all: match goal with
         | He : _ ∖ {[?n]} = ∅ |- _ =>
             destruct (nothing_in_progress _ _ _ {[n]} Hgens Hrun) as [Hnone _];
               [intros s Hs ->%elem_of_singleton; done|done|]
         | He : streams_in_progress _ = ∅ |- _ =>
             destruct (nothing_in_progress _ _ _ ∅ Hgens Hrun) as [Hnone _];
               [intros s _; apply not_elem_of_empty
               |by rewrite difference_empty_L|]
         end.
    all: by rewrite Hnone, app_nil_r in Hstarted.
  - intros evs item futures_done emitted _ st tr e st' t Hread.
    pose proof (waiting_discovery _ _ _ _ _ _ Hread) as (Hstarted & Htasks & _).
    assert (started_streams tr `prefix_of`
              names (eligible_streams (stream_instances_of self) catalog)) as Hprefix.
    { rewrite <- Hstarted. by apply prefix_app_r. }
    destruct item.
    + destruct (loop_body_exception _ _ _ _ _ _ e0 futures_done emitted Hread)
        as (instances & _ & ->).
      intros [= <- <- <-].
      destruct (stop_projections instances) as (Hs1 & _ & Hs2 & _).
      cbn [outcome_trace]. change (?x :: ?l) with ([x] ++ l).
      rewrite !started_streams_app, !submitted_app, Hs1, Hs2.
      trace_projections. done.
    + iteration_equations; intros H; case_split; by trace_projections.
    + iteration_equations; intros H; case_split; by trace_projections.
    + iteration_equations; intros H; case_split; by trace_projections.
    + iteration_equations; intros H; case_split; by trace_projections.
Qed.

End Discovery.

(** ** The effects of the prelude *)

Lemma select_streams_trace self si catalog st selected st' tr :
  select_streams self si catalog st = Return selected st' tr →
  tr = catalog ≫= selection_effects si.
Proof.
  revert selected st' tr. induction catalog as [|c catalog IH]; intros selected st' tr; simpl.
  - by intros [= <- <- <-].
  - unfold selection_effects at 1. destruct (si !! c) as [inst|] eqn:Hc.
    + destruct (AbstractStream.is_available inst).
      * unfold bind, effect; simpl.
        destruct (select_streams self si catalog st) as [sel st1 tr1|] eqn:E; [|done].
        rewrite (IH _ _ _ eq_refl). simpl.
        intros [= <- <- <-]. by rewrite app_nil_r.
      * unfold bind, effect; simpl.
        destruct (select_streams self si catalog st) as [sel st1 tr1|] eqn:E; [|done].
        rewrite (IH _ _ _ eq_refl). simpl.
        by intros [= <- <- <-].
    + destruct (raise_exception_on_missing_stream self); [done|]. apply IH.
Qed.

Lemma prelude_Return_trace self catalog si st tr :
  prelude self catalog (initial_state self) = Return si st tr →
  ∃ first rest,
    eligible_streams si catalog = first :: rest ∧
    tr = logger_info (Starting_syncing (name self)) ::
         (catalog ≫= selection_effects si) ++
         [submit (generate_partitions (AbstractStream.name first));
          logger_info (Marking_stream_as_STARTED (AbstractStream.name first));
          logger_info (Syncing_stream (AbstractStream.name first));
          Yield (stream_status_as_airbyte_message (AbstractStream.name first) None STARTED)].
Proof.
  unfold prelude, bind at 1, effect. simpl. unfold bind at 1.
  destruct (_streams_as_abstract_streams _ _) as [abs st1 tr1|] eqn:Habs; [|done].
  apply _streams_as_abstract_streams_Return in Habs as (-> & -> & ->). simpl.
  fold (stream_instances_of self). unfold bind at 1.
  destruct (select_streams _ _ _ _) as [sel st1 tr1|] eqn:Hsel; [|done].
  pose proof (select_streams_trace _ _ _ _ _ _ _ Hsel) as ->.
  apply select_streams_Return in Hsel as (-> & -> & _). simpl.
  unfold start_reading, bind at 1 2 3, modify at 1. simpl.
  edestruct (init_dicts (eligible_streams (stream_instances_of self) catalog))
    as (st' & -> & Hf & Hr & Hg & _).
  simpl in *. unfold bind at 1, get. rewrite Hr. simpl.
  unfold start_next_partition_generator, bind at 1 2, get. rewrite Hg.
  destruct (eligible_streams _ _) as [|first rest] eqn:Hel; simpl; [done|].
  unfold bind, modify, effect, _submit_task, bind, modify, effect, ret, get. simpl.
  rewrite Hr. simpl.
  intros [= <- <- <-]. exists first, rest. by rewrite ?app_nil_r.
Qed.

Lemma eligible_streams_cons si c catalog :
  eligible_streams si (c :: catalog) =
  match si !! c with
  | Some stream_instance =>
      if AbstractStream.is_available stream_instance
      then stream_instance :: eligible_streams si catalog
      else eligible_streams si catalog
  | None => eligible_streams si catalog
  end.
Proof.
  unfold eligible_streams. simpl. destruct (si !! c) as [inst|]; [|done].
  by destruct (AbstractStream.is_available inst).
Qed.

Lemma timer_starts_selection si catalog :
  (∀ k v, si !! k = Some v → AbstractStream.name v = k) →
  timer_starts (catalog ≫= selection_effects si) = names (eligible_streams si catalog).
Proof.
  intros Hname. induction catalog as [|c catalog IH]; [done|].
  rewrite bind_cons, timer_starts_app, IH, eligible_streams_cons. unfold selection_effects.
  destruct (si !! c) as [inst|] eqn:Hc; [|done].
  destruct (AbstractStream.is_available inst); [|done].
  simpl. by rewrite (Hname _ _ Hc).
Qed.

Lemma Forall_selection_effects si catalog :
  Forall selection_effect (catalog ≫= selection_effects si).
Proof.
  induction catalog as [|c catalog IH]; [done|].
  rewrite bind_cons. apply Forall_app. split; [|done]. unfold selection_effects.
  destruct (si !! c) as [inst|]; [|done].
  destruct (AbstractStream.is_available inst); by repeat constructor.
Qed.

(** What the trace of a prelude that reaches the loop holds. *)
Lemma prelude_projections self catalog si st tr :
  prelude self catalog (initial_state self) = Return si st tr →
  ∃ first rest,
    eligible_streams si catalog = first :: rest ∧
    started_streams tr = [AbstractStream.name first] ∧
    stopped_streams tr = [] ∧
    submitted tr = [generate_partitions (AbstractStream.name first)] ∧
    record_yields tr = [] ∧ cursor_observes tr = [] ∧ cursor_closes tr = [] ∧
    repository_yields tr = [] ∧
    timer_starts tr = names (eligible_streams si catalog) ∧
    timer_finishes tr = [] ∧ shutdowns tr = 0.
Proof.
  intros Hp. destruct (prelude_Return _ _ _ _ _ Hp) as [-> _].
  destruct (prelude_Return_trace _ _ _ _ _ Hp) as (first & rest & Hel & ->).
  exists first, rest. split; [done|].
  pose proof (selection_projections _
                (Forall_selection_effects (stream_instances_of self) catalog))
    as (? & ? & ? & ? & ? & ? & ? & ? & ?).
  pose proof (timer_starts_selection (stream_instances_of self) catalog
                (dict_by_name_name _)) as Htimers.
  change (?x :: ?l ++ ?k) with ([x] ++ l ++ k).
  split_and!; trace_projections; try by simplify_eq/=.
  - by rewrite H.
  - by rewrite H1.
  - by rewrite H7.
Qed.

Section Effects.
Context (message_type_is_RECORD : string → StreamData → bool).

Local Abbreviation read := (read message_type_is_RECORD).
Local Abbreviation loop_body := (loop_body message_type_is_RECORD).

(** While a run waits: the pool was not shut down, [futures] holds the tasks
    submitted, and a timer event was finished for every COMPLETE. *)
Lemma waiting_effects self catalog events st tr :
  read self catalog events = Return Blocked st tr →
  shutdowns tr = 0 ∧
  futures st = submitted tr ∧
  timer_finishes tr = stopped_streams tr ∧
  timer_starts tr = names (eligible_streams (stream_instances_of self) catalog).
Proof.
  revert events st tr. apply read_blocked_invariant.
  - intros st tr Hp.
    destruct (prelude_projections _ _ _ _ _ Hp)
      as (first & rest & Hel & _ & -> & -> & _ & _ & _ & _ & -> & -> & ->).
    apply prelude_Return in Hp as (_ & first' & rest' & tr_sel & Hel' & _ & _ & -> & _).
    rewrite Hel in Hel'. by injection Hel' as <- <-.
  - intros st tr item futures_done emitted st' t (Hshut & Hfut & Htimers & Hstarts).
    destruct item; iteration_equations; intros H; case_split; trace_projections;
      rewrite ?Hshut, ?Hfut, ?Htimers, ?Hstarts; done.
Qed.

End Effects.

Section NormalEnd.
Context (message_type_is_RECORD : string → StreamData → bool).

Local Abbreviation read := (read message_type_is_RECORD).
Local Abbreviation loop_body := (loop_body message_type_is_RECORD).

(** Property X2. A run that ends normally leaves no generator running and no stream
    waiting for discovery; either no stream is in progress or every partition
    registered is done; and its last effects are the shutdown of the pool, the
    timing report and the closing log line. *)
Theorem normal_end self catalog events st tr :
  read self catalog events = Return Finished st tr →
  partition_generators st = [] ∧
  partition_generator_running st = [] ∧
  (streams_in_progress st = ∅ ∨
   all_all_values (streams_to_partitions_to_done st) = true) ∧
  ∃ tr0, tr = tr0 ++ epilogue_effects self.
Proof.
  revert st tr.
  pose (T := λ (_ : list Event) (o : Outcome RunEnd),
          match o with
          | Return Finished st tr =>
              partition_generators st = [] ∧
              partition_generator_running st = [] ∧
              (streams_in_progress st = ∅ ∨
               all_all_values (streams_to_partitions_to_done st) = true) ∧
              ∃ tr0, tr = tr0 ++ epilogue_effects self
          | _ => True
          end).
  assert (T events (read self catalog events)) as HT.
  2: { intros st tr Hread. by rewrite Hread in HT. }
  apply read_outcome_ind; subst T; simpl; try done.
  intros evs item futures_done emitted _ st tr st' t
    (_ & _ & Hgens & Hrun & _)%waiting_discovery Hbody.
  assert (∃ tr0, tr ++ t ++ epilogue_effects self = tr0 ++ epilogue_effects self) as Htr.
  { exists (tr ++ t). by rewrite app_assoc. }
  revert Hbody.
  destruct item; iteration_equations; intros H; case_split;
    try match goal with
        | H : all_done_control _ _ = Break |- _ =>
            apply all_done_control_Break in H as (Hrunning & Hnone & Hall & _);
              simpl in Hrunning, Hnone, Hall
        end;
    try (split_and!; (done || by right)).
  all: try completion_condition.
  all: match goal with
       | He : _ ∖ {[?n]} = ∅ |- _ =>
           destruct (nothing_in_progress _ _ _ {[n]} Hgens Hrun) as [Hnone Hrunning];
             [intros s Hs ->%elem_of_singleton; done|done|]
       | He : streams_in_progress _ = ∅ |- _ =>
           destruct (nothing_in_progress _ _ _ ∅ Hgens Hrun) as [Hnone Hrunning];
             [intros s _; apply not_elem_of_empty
             |by rewrite difference_empty_L|]
       end.
  all: split_and!; (done || by left).
Qed.

(** Property X3. The worker pool is shut down at most once in a run: not while the driver
    waits, once when the run ends normally, and, when the run ends with an
    exception, only if that exception was popped from the queue. A timeout
    and the errors of the driver's own bookkeeping leave the pool running. *)
Theorem shutdown_discipline self catalog events :
  match read self catalog events with
  | Return Finished _ tr => shutdowns tr = 1
  | Return Blocked _ tr => shutdowns tr = 0
  | Raise e _ tr =>
      shutdowns tr ≤ 1 ∧ (shutdowns tr = 1 → ItemException e ∈ popped events)
  end.
Proof.
  apply (read_outcome_ind message_type_is_RECORD self catalog (λ events o,
    match o with
    | Return Finished _ tr => shutdowns tr = 1
    | Return Blocked _ tr => shutdowns tr = 0
    | Raise e _ tr =>
        shutdowns tr ≤ 1 ∧ (shutdowns tr = 1 → ItemException e ∈ popped events)
    end)).
  - intros evs e st tr (tr_sel & -> & Hsel & _)%prelude_Raise.
    destruct (prelude_raise_projections (Starting_syncing (name self)) _ Hsel)
      as (_ & _ & _ & _ & _ & _ & _ & _ & ->). lia.
  - by intros evs st tr (? & _)%waiting_effects.
  - intros evs rest st tr (-> & _)%waiting_effects. lia.
  - intros evs item futures_done emitted rest st tr st' t (Hshut & _)%waiting_effects.
    destruct item; iteration_equations; intros H; case_split; trace_projections;
      rewrite Hshut; done.
  - intros evs item futures_done emitted rest st tr e st' t Hread.
    pose proof (waiting_effects _ _ _ _ _ _ Hread) as (Hshut & _).
    destruct item.
    + destruct (loop_body_exception _ _ _ _ _ _ e0 futures_done emitted Hread)
        as (instances & _ & ->).
      intros [= -> <- <-].
      destruct (stop_projections instances) as (_ & _ & _ & _ & _ & _ & _ & _ & _ & Hs).
      change (?x :: ?l) with ([x] ++ l).
      rewrite !shutdowns_app, Hshut, Hs. simpl. split; [lia|]. intros _.
      unfold popped. rewrite omap_app. apply elem_of_app. right. by left.
    + iteration_equations; intros H; case_split; trace_projections; rewrite Hshut; lia.
    + iteration_equations; intros H; case_split; trace_projections; rewrite Hshut; lia.
    + iteration_equations; intros H; case_split; trace_projections; rewrite Hshut; lia.
    + iteration_equations; intros H; case_split; trace_projections; rewrite Hshut; lia.
Qed.

End NormalEnd.

(** ** What a run does with the items it pops *)

Lemma popped_app evs evs' : popped (evs ++ evs') = popped evs ++ popped evs'.
Proof. apply omap_app. Qed.

Lemma popped_records_app evs evs' :
  popped_records (evs ++ evs') = popped_records evs ++ popped_records evs'.
Proof. unfold popped_records. by rewrite popped_app, omap_app. Qed.

Lemma popped_partitions_app evs evs' :
  popped_partitions (evs ++ evs') = popped_partitions evs ++ popped_partitions evs'.
Proof. unfold popped_partitions. by rewrite popped_app, omap_app. Qed.

Lemma popped_partition_sentinels_app evs evs' :
  popped_partition_sentinels (evs ++ evs')
  = popped_partition_sentinels evs ++ popped_partition_sentinels evs'.
Proof. unfold popped_partition_sentinels. by rewrite popped_app, omap_app. Qed.

Lemma popped_records_cons item futures_done emitted evs :
  popped_records (Pop item futures_done emitted :: evs)
  = option_list (item_record item) ++ popped_records evs.
Proof. by destruct item. Qed.

Lemma popped_partitions_cons item futures_done emitted evs :
  popped_partitions (Pop item futures_done emitted :: evs)
  = option_list (item_partition item) ++ popped_partitions evs.
Proof. by destruct item. Qed.

Lemma popped_partition_sentinels_cons item futures_done emitted evs :
  popped_partition_sentinels (Pop item futures_done emitted :: evs)
  = option_list (item_partition_sentinel item) ++ popped_partition_sentinels evs.
Proof. by destruct item. Qed.

Section Mirror.
Context (message_type_is_RECORD : string → StreamData → bool).

Local Abbreviation read := (read message_type_is_RECORD).
Local Abbreviation loop_body := (loop_body message_type_is_RECORD).

(** What one iteration does with its item: all of it when the iteration
    returns, and when it raises, nothing but, for a partition sentinel,
    perhaps the call of the cursor. *)
Lemma loop_body_mirror self item futures_done emitted st :
  let o := loop_body self (stream_instances_of self) item futures_done emitted st in
  let t := outcome_trace o in
  let closes :=
    (λ p, (Partition.stream_name p, p)) <$> option_list (item_partition_sentinel item) in
  cursor_observes t = record_yields t ∧
  match outcome_result o with
  | inr _ =>
      record_yields t = option_list (item_record item) ∧
      cursor_closes t = closes ∧
      reader_tasks (submitted t) = option_list (item_partition item) ∧
      repository_yields t ++ message_queue (outcome_state o)
        = message_queue st ++ repository_input self (Pop item futures_done emitted)
  | inl _ =>
      record_yields t = [] ∧
      cursor_closes t `prefix_of` closes ∧
      reader_tasks (submitted t) = [] ∧
      repository_yields t = [] ∧
      message_queue (outcome_state o) = message_queue st ++ emitted
  end.
Proof.
  destruct item.
  - rewrite loop_body_eq, iteration_exception_eq.
    pose proof (_stop_streams_outcome (stream_instances_of self)
                  (set_message_queue (λ l, l ++ emitted) st))
      as (stopped & instances & _ & _ & Hst & Hstop & _).
    destruct (stop_projections instances) as (_ & _ & Hs1 & Hs2 & Hs3 & Hs4 & Hs5 & _).
    assert (∀ t, t = shutdown :: (instances ≫= stop_effects) →
              cursor_observes t = record_yields t ∧ record_yields t = [] ∧
              cursor_closes t `prefix_of` [] ∧ reader_tasks (submitted t) = [] ∧
              repository_yields t = []) as Ht.
    { intros t ->. change (?x :: ?l) with ([x] ++ l).
      rewrite cursor_observes_app, record_yields_app, cursor_closes_app, submitted_app,
        repository_yields_app, Hs1, Hs2, Hs3, Hs4, Hs5. done. }
    destruct (_stop_streams _ _) as [[] st1 tr1|e1 st1 tr1]; simpl in *; subst st1;
      destruct (Ht _ Hstop) as (? & ? & ? & ? & ?); done.
  - iteration_equations. case_split; trace_projections; done.
  - iteration_equations. case_split; trace_projections; try done.
    all: by rewrite <- ?app_assoc.
  - iteration_equations. case_split; trace_projections;
      repeat match goal with
             | H : stream_instances_of _ !! _ = Some _ |- _ =>
                 apply dict_by_name_name in H; rewrite ?H
             end;
      rewrite ?app_nil_r; split_and!; try done.
    all: try apply prefix_nil.
    all: by apply prefix_cons.
  - iteration_equations. case_split; trace_projections;
      repeat match goal with
             | H : stream_instances_of _ !! _ = Some _ |- _ =>
                 apply dict_by_name_name in H; rewrite ?H
             end;
      rewrite ?app_nil_r; done.
Qed.

(** While a run waits, what it has done mirrors what it has popped. *)
Lemma waiting_mirror self catalog events st tr :
  read self catalog events = Return Blocked st tr →
  cursor_observes tr = record_yields tr ∧
  record_yields tr = popped_records events ∧
  cursor_closes tr
    = (λ p, (Partition.stream_name p, p)) <$> popped_partition_sentinels events ∧
  reader_tasks (submitted tr) = popped_partitions events ∧
  repository_yields tr ++ message_queue st
    = _message_repository self ++ (events ≫= repository_input self).
Proof.
  revert events st tr. apply read_blocked_ind.
  - intros st tr Hp.
    destruct (prelude_projections _ _ _ _ _ Hp)
      as (first & rest & Hel & _ & _ & -> & -> & -> & -> & -> & _).
    apply prelude_Return in Hp as (_ & first' & rest' & tr_sel & _ & _ & _ & H).
    destruct H as (_ & _ & _ & _ & _ & -> & _). simpl. by rewrite app_nil_r.
  - intros evs st tr item futures_done emitted st' t _
      (Hobserves & Hrecords & Hcloses & Htasks & Hrepository) Hbody.
    pose proof (loop_body_mirror self item futures_done emitted st) as Hmirror.
    rewrite Hbody in Hmirror.
    cbv zeta in Hmirror. cbn [outcome_trace outcome_result outcome_state] in Hmirror.
    destruct Hmirror as (Ho & Hr & Hc & Ht & Hq).
    rewrite cursor_observes_app, record_yields_app, cursor_closes_app, submitted_app,
      reader_tasks_app, repository_yields_app, popped_records_app, popped_partitions_app,
      popped_partition_sentinels_app, popped_records_cons, popped_partitions_cons,
      popped_partition_sentinels_cons, bind_app, bind_cons, fmap_app, !app_nil_r.
    rewrite Hobserves, Ho, Hrecords, Hcloses, Htasks, Hr, Hc, Ht. split_and!; try done.
    rewrite <- app_assoc, Hq. by rewrite !app_assoc, Hrepository.
Qed.

Lemma prelude_message_queue self catalog :
  message_queue (outcome_state (prelude self catalog (initial_state self)))
  = _message_repository self.
Proof.
  destruct (prelude self catalog (initial_state self)) as [si st tr|e st tr] eqn:Hp.
  { apply prelude_Return in Hp as (_ & first & rest & tr_sel & _ & _ & _ & H).
    by destruct H as (_ & _ & _ & _ & _ & Hq & _). }
  cbn [outcome_state]. revert Hp. unfold prelude, bind at 1, effect. simpl. unfold bind at 1.
  destruct (_streams_as_abstract_streams _ _) as [abs st1 tr1|e1 st1 tr1] eqn:Habs.
  - apply _streams_as_abstract_streams_Return in Habs as (-> & -> & ->). simpl.
    fold (stream_instances_of self). unfold bind at 1.
    destruct (select_streams _ _ _ _) as [sel st1 tr1|e1 st1 tr1] eqn:Hsel.
    + apply select_streams_Return in Hsel as (-> & -> & Htr1). simpl.
      unfold start_reading, bind at 1 2 3, modify at 1. simpl.
      edestruct (init_dicts (eligible_streams (stream_instances_of self) catalog))
        as (st' & -> & Hf & Hr & Hg & Hp & Ht & Hq & Hrc & Hpd).
      simpl in *. unfold bind at 1, get. rewrite Hr. simpl.
      unfold start_next_partition_generator, bind at 1 2, get. rewrite Hg.
      destruct (eligible_streams _ _) as [|first rest] eqn:Hel; simpl.
      * by intros [= <- <- <-].
      * unfold bind, modify, effect, _submit_task, bind, modify, effect, ret, get. simpl.
        rewrite Hr. simpl. done.
    + apply select_streams_Raise in Hsel as (_ & _ & -> & _).
      simpl. by intros [= <- <- <-].
  - apply _streams_as_abstract_streams_Raise in Habs as (_ & -> & ->).
    simpl. by intros [= <- <- <-].
Qed.

(** Property X4. Records pass through in order. In every run, the record messages
    yielded are, in order, those of the first records popped, each shown to
    the cursor of its stream right after it is yielded; while the driver
    waits, every record popped so far has been yielded: none is dropped,
    repeated or reordered. *)
Theorem records_pass_in_order self catalog events :
  let o := read self catalog events in
  cursor_observes (outcome_trace o) = record_yields (outcome_trace o) ∧
  record_yields (outcome_trace o) `prefix_of` popped_records events ∧
  (outcome_result o = inr Blocked →
   record_yields (outcome_trace o) = popped_records events).
Proof.
  cbv zeta.
  apply (read_outcome_ind message_type_is_RECORD self catalog (λ events o,
    cursor_observes (outcome_trace o) = record_yields (outcome_trace o) ∧
    record_yields (outcome_trace o) `prefix_of` popped_records events ∧
    (outcome_result o = inr Blocked →
     record_yields (outcome_trace o) = popped_records events))).
  - intros evs e st tr (tr_sel & -> & Hsel & _)%prelude_Raise.
    destruct (prelude_raise_projections (Starting_syncing (name self)) _ Hsel)
      as (_ & _ & _ & Hr & Ho & _).
    cbn [outcome_trace outcome_result]. rewrite Hr, Ho.
    split_and!; [done|apply prefix_nil|done].
  - intros evs st tr (Ho & Hr & _)%waiting_mirror.
    cbn [outcome_trace]. rewrite Ho, Hr. split_and!; [done|reflexivity|done].
  - intros evs rest st tr (Ho & Hr & _)%waiting_mirror.
    cbn [outcome_trace outcome_result]. rewrite Ho, Hr, popped_records_app.
    split_and!; [done|by apply prefix_app_r|done].
  - intros evs item futures_done emitted rest st tr st' t
      (Ho & Hr & _)%waiting_mirror Hbody.
    pose proof (loop_body_mirror self item futures_done emitted st) as Hmirror.
    rewrite Hbody in Hmirror.
    cbv zeta in Hmirror. cbn [outcome_trace outcome_result outcome_state] in Hmirror.
    destruct Hmirror as (Ho' & Hr' & _).
    cbn [outcome_trace outcome_result].
    rewrite !cursor_observes_app, !record_yields_app, Ho, Ho', Hr, Hr',
      popped_records_app, popped_records_cons.
    split_and!; [done| |done].
    apply prefix_app, prefix_app. simpl. apply prefix_nil.
  - intros evs item futures_done emitted rest st tr e st' t
      (Ho & Hr & _)%waiting_mirror Hbody.
    pose proof (loop_body_mirror self item futures_done emitted st) as Hmirror.
    rewrite Hbody in Hmirror.
    cbv zeta in Hmirror. cbn [outcome_trace outcome_result outcome_state] in Hmirror.
    destruct Hmirror as (Ho' & Hr' & _).
    cbn [outcome_trace outcome_result].
    rewrite !cursor_observes_app, !record_yields_app, Ho, Ho', Hr, Hr',
      popped_records_app, app_nil_r.
    split_and!; [done| |done]. by apply prefix_app_r.
Qed.

(** Property X5. Every partition is closed on its cursor. In every run the calls of
    [close_partition] are, in order, for the first partition sentinels popped,
    each on the cursor of the stream of its partition; while the driver waits
    there is one call for every sentinel popped so far, a repeated sentinel
    included. *)
Theorem partitions_closed_in_order self catalog events :
  let o := read self catalog events in
  let closes :=
    (λ p, (Partition.stream_name p, p)) <$> popped_partition_sentinels events in
  cursor_closes (outcome_trace o) `prefix_of` closes ∧
  (outcome_result o = inr Blocked → cursor_closes (outcome_trace o) = closes).
Proof.
  cbv zeta.
  apply (read_outcome_ind message_type_is_RECORD self catalog (λ events o,
    cursor_closes (outcome_trace o) `prefix_of`
      (λ p, (Partition.stream_name p, p)) <$> popped_partition_sentinels events ∧
    (outcome_result o = inr Blocked →
     cursor_closes (outcome_trace o)
     = (λ p, (Partition.stream_name p, p)) <$> popped_partition_sentinels events))).
  - intros evs e st tr (tr_sel & -> & Hsel & _)%prelude_Raise.
    destruct (prelude_raise_projections (Starting_syncing (name self)) _ Hsel)
      as (_ & _ & _ & _ & _ & Hc & _).
    cbn [outcome_trace outcome_result]. rewrite Hc. split; [apply prefix_nil|done].
  - intros evs st tr (_ & _ & Hc & _)%waiting_mirror.
    cbn [outcome_trace]. rewrite Hc. split; [reflexivity|done].
  - intros evs rest st tr (_ & _ & Hc & _)%waiting_mirror.
    cbn [outcome_trace outcome_result].
    rewrite Hc, popped_partition_sentinels_app, fmap_app.
    split; [by apply prefix_app_r|done].
  - intros evs item futures_done emitted rest st tr st' t
      (_ & _ & Hc & _)%waiting_mirror Hbody.
    pose proof (loop_body_mirror self item futures_done emitted st) as Hmirror.
    rewrite Hbody in Hmirror.
    cbv zeta in Hmirror. cbn [outcome_trace outcome_result outcome_state] in Hmirror.
    destruct Hmirror as (_ & _ & Hc' & _).
    cbn [outcome_trace outcome_result].
    rewrite !cursor_closes_app, Hc, Hc', popped_partition_sentinels_app,
      popped_partition_sentinels_cons, !fmap_app.
    split; [|done]. apply prefix_app, prefix_app. simpl. apply prefix_nil.
  - intros evs item futures_done emitted rest st tr e st' t
      (_ & _ & Hc & _)%waiting_mirror Hbody.
    pose proof (loop_body_mirror self item futures_done emitted st) as Hmirror.
    rewrite Hbody in Hmirror.
    cbv zeta in Hmirror. cbn [outcome_trace outcome_result outcome_state] in Hmirror.
    destruct Hmirror as (_ & _ & Hc' & _).
    cbn [outcome_trace outcome_result].
    rewrite !cursor_closes_app, Hc, popped_partition_sentinels_app,
      popped_partition_sentinels_cons, !fmap_app.
    split; [|done]. apply prefix_app. etrans; [exact Hc'|]. by apply prefix_app_r.
Qed.

(** Property X6. Every partition is handed to a reader. In every run the read tasks
    submitted to the pool are, in order, for the first partitions popped;
    while the driver waits, [futures] holds exactly the tasks submitted, and
    its read tasks are one for every partition popped so far. *)
Theorem partitions_are_submitted self catalog events :
  let o := read self catalog events in
  reader_tasks (submitted (outcome_trace o)) `prefix_of` popped_partitions events ∧
  (outcome_result o = inr Blocked →
   futures (outcome_state o) = submitted (outcome_trace o) ∧
   reader_tasks (futures (outcome_state o)) = popped_partitions events).
Proof.
  cbv zeta.
  apply (read_outcome_ind message_type_is_RECORD self catalog (λ events o,
    reader_tasks (submitted (outcome_trace o)) `prefix_of` popped_partitions events ∧
    (outcome_result o = inr Blocked →
     futures (outcome_state o) = submitted (outcome_trace o) ∧
     reader_tasks (futures (outcome_state o)) = popped_partitions events))).
  - intros evs e st tr (tr_sel & -> & Hsel & _)%prelude_Raise.
    destruct (prelude_raise_projections (Starting_syncing (name self)) _ Hsel)
      as (_ & _ & Hs & _).
    cbn [outcome_trace outcome_result]. rewrite Hs. split; [apply prefix_nil|done].
  - intros evs st tr Hread.
    pose proof (waiting_mirror _ _ _ _ _ Hread) as (_ & _ & _ & Ht & _).
    pose proof (waiting_effects _ _ _ _ _ _ Hread) as (_ & Hf & _).
    cbn [outcome_trace outcome_state]. rewrite Hf, Ht. split; [reflexivity|done].
  - intros evs rest st tr (_ & _ & _ & Ht & _)%waiting_mirror.
    cbn [outcome_trace outcome_result]. rewrite Ht, popped_partitions_app.
    split; [by apply prefix_app_r|done].
  - intros evs item futures_done emitted rest st tr st' t
      (_ & _ & _ & Ht & _)%waiting_mirror Hbody.
    pose proof (loop_body_mirror self item futures_done emitted st) as Hmirror.
    rewrite Hbody in Hmirror.
    cbv zeta in Hmirror. cbn [outcome_trace outcome_result outcome_state] in Hmirror.
    destruct Hmirror as (_ & _ & _ & Ht' & _).
    cbn [outcome_trace outcome_result].
    rewrite !submitted_app, !reader_tasks_app, Ht, Ht', popped_partitions_app,
      popped_partitions_cons.
    split; [|done]. apply prefix_app, prefix_app. simpl. apply prefix_nil.
  - intros evs item futures_done emitted rest st tr e st' t
      (_ & _ & _ & Ht & _)%waiting_mirror Hbody.
    pose proof (loop_body_mirror self item futures_done emitted st) as Hmirror.
    rewrite Hbody in Hmirror.
    cbv zeta in Hmirror. cbn [outcome_trace outcome_result outcome_state] in Hmirror.
    destruct Hmirror as (_ & _ & _ & Ht' & _).
    cbn [outcome_trace outcome_result].
    rewrite !submitted_app, !reader_tasks_app, Ht, Ht', popped_partitions_app, app_nil_r.
    split; [|done]. by apply prefix_app_r.
Qed.

(** Property X7. The message repository is a queue that loses nothing. In every run, the
    messages yielded out of the repository followed by those it still holds
    are an initial part of: what it held when [read] was called, then, event
    by event, what the workers emitted and the slice log message of each
    partition popped; while the driver waits they are all of it. *)
Theorem repository_is_fifo self catalog events :
  let o := read self catalog events in
  let inputs := _message_repository self ++ (events ≫= repository_input self) in
  repository_yields (outcome_trace o) ++ message_queue (outcome_state o)
    `prefix_of` inputs ∧
  (outcome_result o = inr Blocked →
   repository_yields (outcome_trace o) ++ message_queue (outcome_state o) = inputs).
Proof.
  cbv zeta.
  apply (read_outcome_ind message_type_is_RECORD self catalog (λ events o,
    repository_yields (outcome_trace o) ++ message_queue (outcome_state o)
      `prefix_of` _message_repository self ++ (events ≫= repository_input self) ∧
    (outcome_result o = inr Blocked →
     repository_yields (outcome_trace o) ++ message_queue (outcome_state o)
     = _message_repository self ++ (events ≫= repository_input self)))).
  - intros evs e st tr Hp.
    pose proof (prelude_message_queue self catalog) as Hq. rewrite Hp in Hq.
    apply prelude_Raise in Hp as (tr_sel & -> & Hsel & _).
    destruct (prelude_raise_projections (Starting_syncing (name self)) _ Hsel)
      as (_ & _ & _ & _ & _ & _ & Hy & _).
    cbn [outcome_trace outcome_result outcome_state] in *. rewrite Hy, Hq.
    split; [by apply prefix_app_r|done].
  - intros evs st tr (_ & _ & _ & _ & Hq)%waiting_mirror.
    cbn [outcome_trace outcome_state]. rewrite Hq. split; [reflexivity|done].
  - intros evs rest st tr (_ & _ & _ & _ & Hq)%waiting_mirror.
    cbn [outcome_trace outcome_result outcome_state]. rewrite Hq, bind_app, app_assoc.
    split; [by apply prefix_app_r|done].
  - intros evs item futures_done emitted rest st tr st' t
      (_ & _ & _ & _ & Hq)%waiting_mirror Hbody.
    pose proof (loop_body_mirror self item futures_done emitted st) as Hmirror.
    rewrite Hbody in Hmirror.
    cbv zeta in Hmirror. cbn [outcome_trace outcome_result outcome_state] in Hmirror.
    destruct Hmirror as (_ & _ & _ & _ & Hq').
    cbn [outcome_trace outcome_result outcome_state]. split; [|done].
    rewrite !repository_yields_app. change (repository_yields (epilogue_effects self)) with
      (@nil RepositoryMessage).
    rewrite app_nil_r, <- app_assoc, Hq', app_assoc, Hq, bind_app, bind_cons, !app_assoc.
    by apply prefix_app_r.
  - intros evs item futures_done emitted rest st tr e st' t
      (_ & _ & _ & _ & Hq)%waiting_mirror Hbody.
    pose proof (loop_body_mirror self item futures_done emitted st) as Hmirror.
    rewrite Hbody in Hmirror.
    cbv zeta in Hmirror. cbn [outcome_trace outcome_result outcome_state] in Hmirror.
    destruct Hmirror as (_ & _ & _ & _ & Hy & Hq').
    cbn [outcome_trace outcome_result outcome_state]. split; [|done].
    rewrite repository_yields_app, Hy, app_nil_r, Hq', app_assoc, Hq, bind_app, bind_cons.
    rewrite <- !app_assoc. do 2 apply prefix_app.
    cbn [repository_input]. rewrite <- app_assoc. by apply prefix_app_r.
Qed.

End Mirror.

(** ** Items of streams the run does not read *)

Section Unselected.
Context (message_type_is_RECORD : string → StreamData → bool).

Local Abbreviation read := (read message_type_is_RECORD).
Local Abbreviation loop_body := (loop_body message_type_is_RECORD).

(** While a run waits, the two dicts keyed by stream have the eligible
    streams as their keys. *)
Lemma waiting_dicts self catalog s events st tr :
  read self catalog events = Return Blocked st tr →
  (is_Some (record_counter st !! s)
   ↔ s ∈ names (eligible_streams (stream_instances_of self) catalog)) ∧
  (is_Some (streams_to_partitions_to_done st !! s)
   ↔ s ∈ names (eligible_streams (stream_instances_of self) catalog)).
Proof.
  revert events st tr. apply read_blocked_invariant.
  - intros st tr (_ & first & rest & tr_sel & Hel & _ & _ & H)%prelude_Return.
    destruct H as (_ & _ & _ & _ & _ & _ & Hrc & Hpd).
    rewrite Hrc, Hpd, Hel. case_decide; split; split; try done; by intros [? ?].
  - intros st tr item futures_done emitted st' t Hdicts.
    destruct item; iteration_equations; intros H; case_split; try done.
    all: destruct Hdicts as [Hrc Hpd]; split; try done.
    all: match goal with
         | |- is_Some (<[?k:=_]> _ !! ?s') ↔ _ =>
             destruct (decide (k = s')) as [Heq|Hne];
               [rewrite Heq, lookup_insert_eq|by rewrite lookup_insert_ne]
         end.
    all: split; [intros _|by eauto].
    all: first [apply Hrc; rewrite <- Heq; by eauto|apply Hpd; rewrite <- Heq; by eauto].
Qed.

(** Property X8. A partition, a partition sentinel or a record of a stream that was not
    selected for reading (not configured, unknown, or unavailable) ends the
    run with [KeyError]: nothing is yielded for it, the pool is not shut down
    and no stream is marked INCOMPLETE. *)
Theorem item_of_unselected_stream self catalog events st tr item stream_name
    futures_done emitted rest :
  read self catalog events = Return Blocked st tr →
  item_stream item = Some stream_name →
  stream_name ∉ names (eligible_streams (stream_instances_of self) catalog) →
  read self catalog (events ++ Pop item futures_done emitted :: rest)
  = Raise (KeyError stream_name) (set_message_queue (.++ emitted) st) tr.
Proof.
  intros Hread Hitem Hnot.
  destruct (read_app _ _ _ _ (Pop item futures_done emitted :: rest) _ _ Hread)
    as (si & st0 & tr0 & Hp & ->).
  apply prelude_Return in Hp as [-> _].
  pose proof (waiting_dicts _ _ stream_name _ _ _ Hread) as Hdicts.
  assert (record_counter st !! stream_name = None) as Hrc.
  { apply eq_None_not_Some. intros H. by apply Hdicts in H. }
  assert (streams_to_partitions_to_done st !! stream_name = None) as Hpd.
  { apply eq_None_not_Some. intros H. by apply Hdicts in H. }
  cbn [loop]. unfold bind at 1.
  destruct item; try done; injection Hitem as <-; iteration_equations.
  - rewrite Hpd. simpl. by rewrite app_nil_r.
  - rewrite Hpd. simpl. by rewrite app_nil_r.
  - destruct (stream_instances_of self !! stream_name0) as [stream|] eqn:Hsi.
    + rewrite (dict_by_name_name _ _ _ Hsi), Hrc. simpl. by rewrite app_nil_r.
    + simpl. by rewrite app_nil_r.
Qed.

(** Property X9. A generation-completed sentinel for a stream that has not been started
    (it was not selected, or it still waits for discovery) ends the run with
    the [ValueError] of [list.remove]: nothing is emitted and the pool is not
    shut down. *)
Theorem sentinel_of_unstarted_generator self catalog events st tr stream_name
    futures_done emitted rest :
  read self catalog events = Return Blocked st tr →
  stream_name ∉ started_streams tr →
  read self catalog
    (events ++ Pop (PartitionGenerationCompletedSentinel stream_name) futures_done emitted
            :: rest)
  = Raise (ValueError stream_name) (set_message_queue (.++ emitted) st) tr.
Proof.
  intros Hread Hnot.
  destruct (read_app _ _ _ _
              (Pop (PartitionGenerationCompletedSentinel stream_name) futures_done emitted
               :: rest) _ _ Hread)
    as (si & st0 & tr0 & Hp & ->).
  apply prelude_Return in Hp as [-> _].
  pose proof (waiting_discovery _ _ _ _ _ _ Hread) as (_ & _ & _ & Hrun & Hprog).
  cbn [loop]. unfold bind at 1. iteration_equations.
  destruct (list_remove_first _ _) as [running|] eqn:Hremove.
  - exfalso. apply Hnot, Hprog, Hrun.
    clear -Hremove. revert running Hremove.
    induction (partition_generator_running st) as [|x l IH]; intros running; simpl; [done|].
    destruct (decide (stream_name = x)) as [->|Hne]; [intros _; by left|].
    destruct (list_remove_first stream_name l); [|done].
    intros _. right. by eapply IH.
  - simpl. by rewrite app_nil_r.
Qed.

End Unselected.

(** ** Before the loop *)

Lemma _streams_as_abstract_streams_first_other facades repr rest st :
  Forall (λ s, is_facade s = true) facades →
  _streams_as_abstract_streams (facades ++ OtherStream repr :: rest) st
  = Raise (ValueError repr) st [].
Proof.
  induction 1 as [|[a|r] facades Hfacade _ IH]; [done| |done].
  simpl. unfold bind. by rewrite IH.
Qed.

Lemma dict_by_name_snoc l stream :
  dict_by_name (l ++ [stream]) = <[AbstractStream.name stream := stream]> (dict_by_name l).
Proof. unfold dict_by_name. by rewrite foldl_app. Qed.

(** Property X10. [stream_instances] keeps, of the streams of one name, the last one the
    source lists: an earlier stream of that name is shadowed without
    notice. *)
Theorem later_stream_of_a_name_wins (l : list AbstractStream.t) (stream_name : string) :
  dict_by_name l !! stream_name
  = last (filter (λ s, AbstractStream.name s = stream_name) l).
Proof.
  induction l as [|stream l IH] using rev_ind; [done|].
  rewrite dict_by_name_snoc, filter_app.
  destruct (decide (AbstractStream.name stream = stream_name)) as [Heq|Hne].
  - rewrite Heq, lookup_insert_eq.
    rewrite filter_cons_True by done. by rewrite filter_nil, last_snoc.
  - rewrite lookup_insert_ne by done.
    rewrite filter_cons_False by done. by rewrite filter_nil, app_nil_r.
Qed.

Section Prelude.
Context (message_type_is_RECORD : string → StreamData → bool).

Local Abbreviation read := (read message_type_is_RECORD).

(** Property X11. A source with a stream that is not a [StreamFacade] cannot be read at
    all: whatever the catalog and the queue, [read] raises [ValueError] for
    the first such stream right after its first log line, before it looks at
    the catalog. *)
Theorem only_stream_facades_are_read self catalog events facades repr rest :
  streams self = facades ++ OtherStream repr :: rest →
  Forall (λ s, is_facade s = true) facades →
  read self catalog events
  = Raise (ValueError repr) (initial_state self)
      [logger_info (Starting_syncing (name self))].
Proof.
  intros Hstreams Hfacades.
  rewrite read_unfold. unfold prelude, bind at 1, effect. simpl. unfold bind at 1.
  by rewrite Hstreams, _streams_as_abstract_streams_first_other.
Qed.

Lemma select_streams_known self si catalog st :
  raise_exception_on_missing_stream self = false →
  select_streams self si (filter (λ c, is_Some (si !! c)) catalog) st
  = select_streams self si catalog st.
Proof.
  intros Hflag. induction catalog as [|c catalog IH]; [done|].
  destruct (si !! c) as [inst|] eqn:Hc.
  - rewrite filter_cons_True by (by rewrite Hc). simpl. rewrite Hc.
    destruct (AbstractStream.is_available inst); unfold bind, effect; simpl;
      by rewrite IH.
  - rewrite filter_cons_False by (rewrite Hc; by intros [? ?]). simpl.
    by rewrite Hc, Hflag.
Qed.

(** Property X12. When the source does not raise on missing streams, the configured
    streams it does not know are dropped without a trace: [read] runs as if
    the catalog did not name them. *)
Theorem missing_streams_are_dropped self catalog events :
  raise_exception_on_missing_stream self = false →
  read self (filter (λ c, is_Some (stream_instances_of self !! c)) catalog) events
  = read self catalog events.
Proof.
  intros Hflag.
  assert (prelude self
            (filter (λ c, is_Some (stream_instances_of self !! c)) catalog)
            (initial_state self)
          = prelude self catalog (initial_state self)) as Hprelude.
  { unfold prelude, bind, effect. simpl.
    destruct (_streams_as_abstract_streams _ _) as [abs st1 tr1|] eqn:Habs; [|done].
    apply _streams_as_abstract_streams_Return in Habs as (-> & -> & ->). simpl.
    fold (stream_instances_of self). by rewrite select_streams_known. }
  by rewrite !read_unfold, Hprelude.
Qed.

(** Property X13. With only facades in the source, no configured stream missing (or a
    source that does not raise on one) and an eligible stream, [read] gets to
    its loop: it has logged the start, started a timer event for every
    eligible stream and warned of every unavailable one, in catalog order,
    then submitted the generator of the first eligible stream alone and
    yielded its STARTED; the other eligible streams wait, and each eligible
    stream has an empty partition dict and a record counter of zero. *)
Theorem discovery_starts_with_first_eligible self catalog first rest :
  Forall (λ s, is_facade s = true) (streams self) →
  raise_exception_on_missing_stream self = false ∨
    Forall (λ c, is_Some (stream_instances_of self !! c)) catalog →
  eligible_streams (stream_instances_of self) catalog = first :: rest →
  ∃ st,
    read self catalog [] =
      Return Blocked st
        (logger_info (Starting_syncing (name self)) ::
         (catalog ≫= selection_effects (stream_instances_of self)) ++
         [submit (generate_partitions (AbstractStream.name first));
          logger_info (Marking_stream_as_STARTED (AbstractStream.name first));
          logger_info (Syncing_stream (AbstractStream.name first));
          Yield (stream_status_as_airbyte_message (AbstractStream.name first) None
                   STARTED)]) ∧
    futures st = [generate_partitions (AbstractStream.name first)] ∧
    partition_generator_running st = [AbstractStream.name first] ∧
    partition_generators st = names rest ∧
    streams_in_progress st = {[AbstractStream.name first]} ∧
    message_queue st = _message_repository self ∧
    (∀ s, record_counter st !! s =
          if decide (s ∈ names (first :: rest)) then Some 0 else None) ∧
    (∀ s, streams_to_partitions_to_done st !! s =
          if decide (s ∈ names (first :: rest)) then Some ∅ else None).
Proof.
  intros Hfacades Hmissing Heligible. rewrite read_unfold.
  destruct (prelude self catalog (initial_state self)) as [si st tr|e st tr] eqn:Hp.
  - destruct (prelude_Return_trace _ _ _ _ _ Hp) as (first' & rest' & Hel' & ->).
    apply prelude_Return in Hp as (-> & first'' & rest'' & tr_sel & Hel'' & _ & _ & H).
    rewrite Heligible in Hel', Hel''.
    injection Hel' as <- <-. injection Hel'' as <- <-.
    destruct H as (Hf & Hr & Hg & Hprog & _ & Hq & Hrc & Hpd).
    exists st. simpl. rewrite app_nil_r. by split_and!.
  - apply prelude_Raise in Hp as (tr_sel & -> & Hsel & He).
    destruct He as [(repr & -> & Hin)|[(c & -> & Hin & Hnone & Hflag)|[-> Hnil]]].
    + rewrite Forall_forall in Hfacades. by apply Hfacades in Hin.
    + destruct Hmissing as [?|Hall]; [congruence|].
      rewrite Forall_forall in Hall. apply Hall in Hin as [? ?]. congruence.
    + congruence.
Qed.

End Prelude.

(** ** Terminal statuses *)

Lemma list_remove_first_other x l l' s :
  list_remove_first x l = Some l' → s ∈ l → s ≠ x → s ∈ l'.
Proof.
  revert l'. induction l as [|y l IH]; intros l'; simpl; [done|].
  destruct (decide (x = y)) as [->|Hne].
  - intros [= ->] [->|Hs]%elem_of_cons Hsx; done.
  - destruct (list_remove_first x l) as [l0|]; [|done].
    simpl. intros [= <-] [->|Hs]%elem_of_cons Hsx; [by left|].
    right. by apply IH.
Qed.

Lemma popped_snoc evs item futures_done emitted :
  popped (evs ++ [Pop item futures_done emitted]) = popped evs ++ [item].
Proof. by rewrite popped_app. Qed.

Lemma names_of_instances (si : gmap string AbstractStream.t) stopped instances :
  (∀ k v, si !! k = Some v → AbstractStream.name v = k) →
  Forall2 (λ n i, si !! n = Some i) stopped instances →
  names instances = stopped.
Proof.
  intros Hname Hall. induction Hall as [|n i ns is_ Hn _ IH]; [done|].
  simpl. f_equal; [by apply Hname|done].
Qed.

Lemma stop_status_projections (instances : list AbstractStream.t) :
  completed_streams (instances ≫= stop_effects) = [] ∧
  incomplete_streams (instances ≫= stop_effects) = names instances.
Proof.
  induction instances as [|i instances [IH1 IH2]]; [done|].
  split; simpl; [done|by f_equal].
Qed.

Lemma prelude_raise_status_projections (l : LogLine) tr_sel :
  Forall selection_effect tr_sel →
  completed_streams (logger_info l :: tr_sel) = [] ∧
  incomplete_streams (logger_info l :: tr_sel) = [].
Proof.
  intros H. split; (apply (omap_selection_effects _ tr_sel); [by intros []|done]).
Qed.

Section Terminal.
Context (message_type_is_RECORD : string → StreamData → bool).

Local Abbreviation read := (read message_type_is_RECORD).
Local Abbreviation loop_body := (loop_body message_type_is_RECORD).

(** While a run waits, a stream in progress whose generation-completed
    sentinel has not been popped is still discovering partitions. *)
Lemma waiting_generators self catalog s events st tr :
  read self catalog events = Return Blocked st tr →
  s ∈ streams_in_progress st →
  s ∈ partition_generator_running st ∨
  PartitionGenerationCompletedSentinel s ∈ popped events.
Proof.
  revert events st tr.
  apply (read_blocked_ind message_type_is_RECORD self catalog (λ evs st _,
    s ∈ streams_in_progress st →
    s ∈ partition_generator_running st ∨
    PartitionGenerationCompletedSentinel s ∈ popped evs)).
  - intros st tr (_ & first & rest & tr_sel & _ & _ & _ & H)%prelude_Return.
    destruct H as (_ & -> & _ & -> & _).
    intros ->%elem_of_singleton. left. by left.
  - intros evs st tr item futures_done emitted st' t _ IH.
    rewrite popped_snoc.
    assert (s ∈ streams_in_progress st →
            s ∈ partition_generator_running st ∨
            PartitionGenerationCompletedSentinel s ∈ popped evs ++ [item]) as IH'.
    { intros [?|?]%IH; [by left|right]. apply elem_of_app. by left. }
    destruct item; iteration_equations; intros H; case_split; try done.
    + destruct (decide (s = stream_name)) as [->|Hne].
      { intros _. right. apply elem_of_app. right. by left. }
      intros [Hs|Hs]%IH'; [left|by right].
      by eapply list_remove_first_other.
    + destruct (decide (s = stream_name)) as [->|Hne].
      { intros _. right. apply elem_of_app. right. by left. }
      intros [->%elem_of_singleton|Hs]%elem_of_union.
      { left. apply elem_of_app. right. by left. }
      apply IH' in Hs as [Hs|Hs]; [left|by right].
      apply elem_of_app. left. by eapply list_remove_first_other.
    + intros [Hs _]%elem_of_difference. by apply IH'.
Qed.

(** The terminal statuses of one iteration: COMPLETE only for the stream of
    the partition sentinel popped, when it is in progress and its generator
    does not run; INCOMPLETE only for a stream in progress when an error is
    popped; a timer event finished with each. *)
Lemma loop_body_statuses self item futures_done emitted st :
  let o := loop_body self (stream_instances_of self) item futures_done emitted st in
  let t := outcome_trace o in
  timer_finishes t = stopped_streams t ∧
  (∀ s, s ∈ completed_streams t →
     ∃ p, item = PartitionCompleteSentinel p ∧ Partition.stream_name p = s ∧
          s ∈ streams_in_progress st ∧ s ∉ partition_generator_running st) ∧
  (∀ s, s ∈ incomplete_streams t →
     (∃ e, item = ItemException e) ∧ s ∈ streams_in_progress st) ∧
  (∀ s, s ∈ stopped_streams t → s ∈ streams_in_progress st).
Proof.
  destruct item.
  - rewrite loop_body_eq, iteration_exception_eq.
    pose proof (_stop_streams_outcome (stream_instances_of self)
                  (set_message_queue (λ l, l ++ emitted) st))
      as (stopped & instances & Hprefix & Hall & Hst & Hstop & Hres).
    apply names_of_instances in Hall; [|apply dict_by_name_name].
    destruct (stop_projections instances) as (_ & Hs1 & _ & _ & _ & _ & _ & _ & Hs2 & _).
    destruct (stop_status_projections instances) as (Hs3 & Hs4).
    assert (∀ s, s ∈ names instances → s ∈ streams_in_progress st) as Hin.
    { intros s Hs. rewrite Hall in Hs. destruct Hprefix as [k Hk].
      apply elem_of_elements. simpl in Hk. rewrite Hk. apply elem_of_app. by left. }
    assert (∀ t, t = shutdown :: (instances ≫= stop_effects) →
              timer_finishes t = names instances ∧ stopped_streams t = names instances ∧
              completed_streams t = [] ∧ incomplete_streams t = names instances) as Ht.
    { intros t ->. change (?x :: ?l) with ([x] ++ l).
      by rewrite timer_finishes_app, stopped_streams_app, completed_streams_app,
        incomplete_streams_app, Hs1, Hs2, Hs3, Hs4. }
    destruct (_stop_streams _ _) as [[] st1 tr1|e1 st1 tr1]; simpl in Hstop;
      destruct (Ht _ Hstop) as (Ht1 & Ht2 & Ht3 & Ht4); cbv zeta;
      cbn [outcome_trace]; rewrite Ht1, Ht2, Ht3, Ht4.
    all: split_and!; [done|by intros ? ?%elem_of_nil| |done].
    all: intros s0 Hs; split; [by eexists|by apply Hin].
  - iteration_equations. case_split; trace_projections; split_and!; try done;
      by intros ? ?%elem_of_nil.
  - iteration_equations. case_split; trace_projections; split_and!; try done;
      by intros ? ?%elem_of_nil.
  - iteration_equations. case_split; trace_projections;
      repeat match goal with
             | H : stream_instances_of _ !! _ = Some _ |- _ =>
                 apply dict_by_name_name in H; rewrite ?H
             end;
      try completion_condition;
      split_and!; try done; try (by intros ? ?%elem_of_nil).
    all: intros ? ->%list_elem_of_singleton; try done.
    all: by eexists.
  - iteration_equations. case_split; trace_projections; split_and!; try done;
      by intros ? ?%elem_of_nil.
Qed.

(** While a run waits: no stream was marked INCOMPLETE, the streams with a
    terminal status were started, and a COMPLETE stream has had its
    generation-completed sentinel and a partition sentinel popped. *)
Lemma waiting_statuses self catalog events st tr :
  read self catalog events = Return Blocked st tr →
  incomplete_streams tr = [] ∧
  (∀ s, s ∈ stopped_streams tr → s ∈ started_streams tr) ∧
  (∀ s, s ∈ completed_streams tr →
     PartitionGenerationCompletedSentinel s ∈ popped events ∧
     ∃ p, Partition.stream_name p = s ∧ PartitionCompleteSentinel p ∈ popped events).
Proof.
  revert events st tr. apply read_blocked_ind.
  - intros st tr Hp.
    destruct (prelude_projections _ _ _ _ _ Hp) as (first & rest & _ & _ & Hs & _).
    destruct (prelude_Return_trace _ _ _ _ _ Hp) as (first' & rest' & _ & ->).
    pose proof (Forall_selection_effects (stream_instances_of self) catalog) as Hsel.
    assert (completed_streams (catalog ≫= selection_effects (stream_instances_of self)) = [])
      as Hc by (apply omap_selection_effects; [by intros []|done]).
    assert (incomplete_streams (catalog ≫= selection_effects (stream_instances_of self)) = [])
      as Hi by (apply omap_selection_effects; [by intros []|done]).
    change (?x :: ?l ++ ?k) with ([x] ++ l ++ k) in *.
    rewrite !completed_streams_app, !incomplete_streams_app, Hs, Hc, Hi. simpl.
    split_and!; [done|by intros ? ?%elem_of_nil..].
  - intros evs st tr item futures_done emitted st' t Hread (Hinc & Hstopped & Hcompleted)
      Hbody.
    pose proof (loop_body_statuses self item futures_done emitted st) as Hstatuses.
    rewrite Hbody in Hstatuses. cbv zeta in Hstatuses.
    cbn [outcome_trace] in Hstatuses.
    destruct Hstatuses as (_ & Hc & Hi & Hs).
    pose proof (waiting_discovery _ _ _ _ _ _ Hread) as (_ & _ & _ & _ & Hprog).
    rewrite incomplete_streams_app, Hinc, popped_snoc. split_and!.
    + destruct (incomplete_streams t) as [|s l] eqn:Ht; [done|].
      destruct (Hi s) as [[e ->] _]; [by left|].
      revert Hbody. rewrite loop_body_eq, iteration_exception_eq.
      by destruct (_stop_streams _ _).
    + intros s. rewrite stopped_streams_app, started_streams_app, !elem_of_app.
      intros [Hs'|Hs']; left; [by apply Hstopped|by apply Hprog, Hs].
    + intros s. rewrite completed_streams_app, elem_of_app. intros [Hs'|Hs'].
      * destruct (Hcompleted s Hs') as (Hgen & p & Hp & Hin).
        split; [apply elem_of_app; by left|].
        exists p. split; [done|]. apply elem_of_app. by left.
      * destruct (Hc s Hs') as (p & -> & Hp & Hin & Hnot).
        destruct (waiting_generators _ _ _ _ _ _ Hread Hin) as [?|Hgen]; [done|].
        split; [apply elem_of_app; by left|].
        exists p. split; [done|]. apply elem_of_app. right. by left.
Qed.

(** Property X14. COMPLETE comes after discovery. A stream is marked COMPLETE only in a
    run that has popped the generation-completed sentinel of the stream and
    the sentinel of one of its partitions. *)
Theorem complete_after_discovery self catalog events stream :
  stream ∈ completed_streams (outcome_trace (read self catalog events)) →
  PartitionGenerationCompletedSentinel stream ∈ popped events ∧
  ∃ p, Partition.stream_name p = stream ∧ PartitionCompleteSentinel p ∈ popped events.
Proof.
  revert stream.
  apply (read_outcome_ind message_type_is_RECORD self catalog (λ events o,
    ∀ s, s ∈ completed_streams (outcome_trace o) →
      PartitionGenerationCompletedSentinel s ∈ popped events ∧
      ∃ p, Partition.stream_name p = s ∧ PartitionCompleteSentinel p ∈ popped events)).
  - intros evs e st tr (tr_sel & -> & Hsel & _)%prelude_Raise s.
    destruct (prelude_raise_status_projections (Starting_syncing (name self)) _ Hsel)
      as [Hc _].
    cbn [outcome_trace]. rewrite Hc. by intros ?%elem_of_nil.
  - intros evs st tr (_ & _ & Hcompleted)%waiting_statuses. done.
  - intros evs rest st tr (_ & _ & Hcompleted)%waiting_statuses s Hs.
    destruct (Hcompleted s Hs) as (Hgen & p & Hp & Hin).
    rewrite popped_app. split; [apply elem_of_app; by left|].
    exists p. split; [done|]. apply elem_of_app. by left.
  - intros evs item futures_done emitted rest st tr st' t Hread Hbody s.
    pose proof (waiting_statuses _ _ _ _ _ Hread) as (_ & _ & Hcompleted).
    pose proof (loop_body_statuses self item futures_done emitted st) as Hstatuses.
    rewrite Hbody in Hstatuses. cbv zeta in Hstatuses.
    cbn [outcome_trace] in Hstatuses. destruct Hstatuses as (_ & Hc & _).
    cbn [outcome_trace].
    rewrite !completed_streams_app, app_nil_r, elem_of_app, popped_app.
    intros [Hs|Hs].
    + destruct (Hcompleted s Hs) as (Hgen & p & Hp & Hin).
      split; [apply elem_of_app; by left|].
      exists p. split; [done|]. apply elem_of_app. by left.
    + destruct (Hc s Hs) as (p & -> & Hp & Hin & Hnot).
      destruct (waiting_generators _ _ _ _ _ _ Hread Hin) as [?|Hgen]; [done|].
      split; [apply elem_of_app; by left|].
      exists p. split; [done|]. apply elem_of_app. right. by left.
  - intros evs item futures_done emitted rest st tr e st' t Hread Hbody s.
    pose proof (waiting_statuses _ _ _ _ _ Hread) as (_ & _ & Hcompleted).
    pose proof (loop_body_statuses self item futures_done emitted st) as Hstatuses.
    rewrite Hbody in Hstatuses. cbv zeta in Hstatuses.
    cbn [outcome_trace] in Hstatuses. destruct Hstatuses as (_ & Hc & _).
    cbn [outcome_trace].
    rewrite !completed_streams_app, elem_of_app, popped_app.
    intros [Hs|Hs].
    + destruct (Hcompleted s Hs) as (Hgen & p & Hp & Hin).
      split; [apply elem_of_app; by left|].
      exists p. split; [done|]. apply elem_of_app. by left.
    + destruct (Hc s Hs) as (p & -> & Hp & Hin & Hnot).
      destruct (waiting_generators _ _ _ _ _ _ Hread Hin) as [?|Hgen]; [done|].
      split; [apply elem_of_app; by left|].
      exists p. split; [done|]. apply elem_of_app. right. by left.
Qed.

(** Property X15. INCOMPLETE is the mark of an abort. A stream is marked INCOMPLETE only
    in a run that ends by raising an error it popped from the queue, and only
    if the stream had been started: a run that waits, ends normally, times
    out or fails in its own bookkeeping marks no stream INCOMPLETE. *)
Theorem incomplete_only_on_abort self catalog events stream :
  stream ∈ incomplete_streams (outcome_trace (read self catalog events)) →
  (∃ e, outcome_result (read self catalog events) = inl e ∧
        ItemException e ∈ popped events) ∧
  stream ∈ started_streams (outcome_trace (read self catalog events)).
Proof.
  revert stream.
  apply (read_outcome_ind message_type_is_RECORD self catalog (λ events o,
    ∀ s, s ∈ incomplete_streams (outcome_trace o) →
      (∃ e, outcome_result o = inl e ∧ ItemException e ∈ popped events) ∧
      s ∈ started_streams (outcome_trace o))).
  - intros evs e st tr (tr_sel & -> & Hsel & _)%prelude_Raise s.
    destruct (prelude_raise_status_projections (Starting_syncing (name self)) _ Hsel)
      as [_ Hi].
    cbn [outcome_trace]. rewrite Hi. by intros ?%elem_of_nil.
  - intros evs st tr (Hinc & _)%waiting_statuses s.
    cbn [outcome_trace]. rewrite Hinc. by intros ?%elem_of_nil.
  - intros evs rest st tr (Hinc & _)%waiting_statuses s.
    cbn [outcome_trace]. rewrite Hinc. by intros ?%elem_of_nil.
  - intros evs item futures_done emitted rest st tr st' t Hread Hbody s.
    pose proof (waiting_statuses _ _ _ _ _ Hread) as (Hinc & _).
    pose proof (loop_body_statuses self item futures_done emitted st) as Hstatuses.
    rewrite Hbody in Hstatuses. cbv zeta in Hstatuses.
    cbn [outcome_trace] in Hstatuses. destruct Hstatuses as (_ & _ & Hi & _).
    cbn [outcome_trace].
    rewrite !incomplete_streams_app, Hinc, app_nil_r. simpl. intros Hs.
    destruct (Hi s Hs) as [[e ->] _].
    revert Hbody. rewrite loop_body_eq, iteration_exception_eq.
    by destruct (_stop_streams _ _).
  - intros evs item futures_done emitted rest st tr e st' t Hread Hbody s.
    pose proof (waiting_statuses _ _ _ _ _ Hread) as (Hinc & _).
    pose proof (waiting_discovery _ _ _ _ _ _ Hread) as (_ & _ & _ & _ & Hprog).
    pose proof (loop_body_statuses self item futures_done emitted st) as Hstatuses.
    rewrite Hbody in Hstatuses. cbv zeta in Hstatuses.
    cbn [outcome_trace] in Hstatuses. destruct Hstatuses as (_ & _ & Hi & _).
    cbn [outcome_trace outcome_result].
    rewrite !incomplete_streams_app, Hinc. simpl. intros Hs.
    destruct (Hi s Hs) as [[e0 ->] Hin]. split.
    + destruct (loop_body_exception _ _ _ _ _ _ e0 futures_done emitted Hread)
        as (instances & _ & Hraise).
      rewrite Hraise in Hbody. injection Hbody as -> _ _.
      exists e. split; [done|]. rewrite popped_app. apply elem_of_app. right. by left.
    + rewrite started_streams_app. apply elem_of_app. left. by apply Hprog.
Qed.

(** Property X16. Timer events are finished with the terminal statuses. In every run a
    timer event is finished exactly when a COMPLETE or an INCOMPLETE status is
    yielded, for the same stream and in the same order, and only for a stream
    whose timer event was started. *)
Theorem timers_follow_statuses self catalog events :
  let tr := outcome_trace (read self catalog events) in
  timer_finishes tr = stopped_streams tr ∧
  ∀ s, s ∈ timer_finishes tr → s ∈ timer_starts tr.
Proof.
  cbv zeta.
  apply (read_outcome_ind message_type_is_RECORD self catalog (λ _ o,
    timer_finishes (outcome_trace o) = stopped_streams (outcome_trace o) ∧
    ∀ s, s ∈ timer_finishes (outcome_trace o) → s ∈ timer_starts (outcome_trace o))).
  - intros evs e st tr (tr_sel & -> & Hsel & _)%prelude_Raise.
    destruct (prelude_raise_projections (Starting_syncing (name self)) _ Hsel)
      as (_ & Hs & _ & _ & _ & _ & _ & Hf & _).
    cbn [outcome_trace]. rewrite Hs, Hf. split; [done|by intros ? ?%elem_of_nil].
  - intros evs st tr Hread.
    pose proof (waiting_effects _ _ _ _ _ _ Hread) as (_ & _ & Hf & Hstarts).
    pose proof (waiting_statuses _ _ _ _ _ Hread) as (_ & Hstopped & _).
    pose proof (waiting_discovery _ _ _ _ _ _ Hread) as (Hstarted & _).
    cbn [outcome_trace]. split; [done|]. intros s Hs.
    rewrite Hstarts, <- Hstarted. apply elem_of_app. left. apply Hstopped.
    by rewrite <- Hf.
  - intros evs rest st tr Hread.
    pose proof (waiting_effects _ _ _ _ _ _ Hread) as (_ & _ & Hf & Hstarts).
    pose proof (waiting_statuses _ _ _ _ _ Hread) as (_ & Hstopped & _).
    pose proof (waiting_discovery _ _ _ _ _ _ Hread) as (Hstarted & _).
    cbn [outcome_trace]. split; [done|]. intros s Hs.
    rewrite Hstarts, <- Hstarted. apply elem_of_app. left. apply Hstopped.
    by rewrite <- Hf.
  - intros evs item futures_done emitted rest st tr st' t Hread Hbody.
    pose proof (waiting_effects _ _ _ _ _ _ Hread) as (_ & _ & Hf & Hstarts).
    pose proof (waiting_statuses _ _ _ _ _ Hread) as (_ & Hstopped & _).
    pose proof (waiting_discovery _ _ _ _ _ _ Hread) as (Hstarted & _ & _ & _ & Hprog).
    pose proof (loop_body_statuses self item futures_done emitted st) as Hstatuses.
    rewrite Hbody in Hstatuses. cbv zeta in Hstatuses.
    cbn [outcome_trace] in Hstatuses. destruct Hstatuses as (Hf' & _ & _ & Hs').
    cbn [outcome_trace].
    rewrite !timer_finishes_app, !stopped_streams_app, !timer_starts_app, Hf, Hf'.
    split; [done|]. intros s Hs. apply elem_of_app. left.
    rewrite Hstarts, <- Hstarted. apply elem_of_app. left.
    simpl in Hs. rewrite app_nil_r in Hs.
    apply elem_of_app in Hs as [Hs|Hs]; [by apply Hstopped|by apply Hprog, Hs'].
  - intros evs item futures_done emitted rest st tr e st' t Hread Hbody.
    pose proof (waiting_effects _ _ _ _ _ _ Hread) as (_ & _ & Hf & Hstarts).
    pose proof (waiting_statuses _ _ _ _ _ Hread) as (_ & Hstopped & _).
    pose proof (waiting_discovery _ _ _ _ _ _ Hread) as (Hstarted & _ & _ & _ & Hprog).
    pose proof (loop_body_statuses self item futures_done emitted st) as Hstatuses.
    rewrite Hbody in Hstatuses. cbv zeta in Hstatuses.
    cbn [outcome_trace] in Hstatuses. destruct Hstatuses as (Hf' & _ & _ & Hs').
    cbn [outcome_trace].
    rewrite !timer_finishes_app, !stopped_streams_app, !timer_starts_app, Hf, Hf'.
    split; [done|]. intros s Hs. apply elem_of_app. left.
    rewrite Hstarts, <- Hstarted. apply elem_of_app. left.
    apply elem_of_app in Hs as [Hs|Hs]; [by apply Hstopped|by apply Hprog, Hs'].
Qed.

End Terminal.

(** ** The bookkeeping of partitions *)

Lemma last_partition_event_snoc p evs item futures_done emitted :
  last_partition_event p (evs ++ [Pop item futures_done emitted]) =
  match partition_event p item with
  | Some done => Some done
  | None => last_partition_event p evs
  end.
Proof.
  unfold last_partition_event. rewrite popped_snoc, omap_app. simpl.
  destruct (partition_event p item); [by rewrite last_snoc|by rewrite app_nil_r].
Qed.

Section Bookkeeping.
Context (message_type_is_RECORD : string → StreamData → bool).

Local Abbreviation read := (read message_type_is_RECORD).
Local Abbreviation loop_body := (loop_body message_type_is_RECORD).

(** What an iteration that returns does to the dict of partitions. *)
Lemma loop_body_partitions self si item futures_done emitted st control st' t :
  loop_body self si item futures_done emitted st = Return control st' t →
  match partition_event_of item with
  | Some (q, done) =>
      ∃ g, streams_to_partitions_to_done st !! Partition.stream_name q = Some g ∧
           streams_to_partitions_to_done st'
           = <[Partition.stream_name q := <[q := done]> g]>
               (streams_to_partitions_to_done st)
  | None => streams_to_partitions_to_done st' = streams_to_partitions_to_done st
  end.
Proof.
  destruct item; iteration_equations; intros H; case_split; try done; by eexists.
Qed.

(** Property X17. The dict of partitions says what the queue said last. While the driver
    waits, the dict of a stream holds the partitions of that stream for which
    a partition or a partition sentinel was popped, and marks a partition done
    exactly when the last of these items was its sentinel: a sentinel
    registers a partition that was never announced, and a partition popped
    again after its sentinel is not done any more. *)
Theorem partitions_done_follow_queue self catalog events st tr stream partition_to_done p :
  read self catalog events = Return Blocked st tr →
  streams_to_partitions_to_done st !! stream = Some partition_to_done →
  partition_to_done !! p =
    if decide (Partition.stream_name p = stream) then last_partition_event p events
    else None.
Proof.
  intros Hread. revert stream partition_to_done p. revert events st tr Hread.
  apply (read_blocked_ind message_type_is_RECORD self catalog (λ evs st _,
    ∀ s m p, streams_to_partitions_to_done st !! s = Some m →
      m !! p = if decide (Partition.stream_name p = s) then last_partition_event p evs
               else None)).
  - intros st tr (_ & first & rest & tr_sel & _ & _ & _ & H)%prelude_Return s m p.
    destruct H as (_ & _ & _ & _ & _ & _ & _ & ->).
    case_decide; [|done]. intros [= <-]. by case_decide.
  - intros evs st tr item futures_done emitted st' t _ IH Hbody s m p.
    rewrite last_partition_event_snoc.
    apply loop_body_partitions in Hbody.
    unfold partition_event.
    destruct (partition_event_of item) as [[q done]|]; [|rewrite Hbody; apply IH].
    destruct Hbody as (g & Hg & ->).
    destruct (decide (Partition.stream_name q = s)) as [<-|Hne].
    + rewrite lookup_insert_eq. intros [= <-].
      destruct (decide (q = p)) as [->|Hqp].
      * rewrite lookup_insert_eq. by rewrite decide_True.
      * rewrite lookup_insert_ne by done. by apply IH.
    + rewrite lookup_insert_ne by done. intros Hs. rewrite (IH _ _ p Hs).
      case_decide as Hp; [|done]. rewrite decide_False; [done|]. by intros ->.
Qed.

(** Property X18. Work left in the pool keeps the run open. After an iteration whose poll
    of the futures says that some task is not done, the run ends normally
    only through the other exit of the loop: the item was a partition
    sentinel and no stream is in progress any more. *)
Theorem pending_tasks_keep_the_run_open self catalog events item emitted st0 tr0 st tr :
  read self catalog events = Return Blocked st0 tr0 →
  read self catalog (events ++ [Pop item false emitted]) = Return Finished st tr →
  (∃ p, item = PartitionCompleteSentinel p) ∧ streams_in_progress st = ∅.
Proof.
  intros Hread.
  destruct (read_app _ _ _ _ [Pop item false emitted] _ _ Hread)
    as (si & st1 & tr1 & Hp & ->).
  apply prelude_Return in Hp as [-> _].
  rewrite loop_singleton.
  destruct (loop_body _ _ _ _ _ _) as [[] st' t|] eqn:Hbody; [done| |done].
  rewrite epilogue_eq. simpl. intros [= <- _]. revert Hbody.
  destruct item; iteration_equations; intros H; case_split;
    try match goal with
        | H : all_done_control _ _ = Break |- _ =>
            by apply all_done_control_Break in H as (_ & _ & _ & ?)
        end.
  all: split; [by eexists|done].
Qed.

End Bookkeeping.

(** ** RUNNING *)

Section Running.
Context (message_type_is_RECORD : string → StreamData → bool).

Local Abbreviation read := (read message_type_is_RECORD).
Local Abbreviation loop_body := (loop_body message_type_is_RECORD).

(** What one iteration does about RUNNING: it yields it for the stream of
    the record popped when the counter of the stream is zero, and the
    counter of that stream alone goes up. *)
Lemma loop_body_running self item futures_done emitted st :
  let o := loop_body self (stream_instances_of self) item futures_done emitted st in
  match outcome_result o, item_record item with
  | inr _, Some (s, _) =>
      ∃ count, record_counter st !! s = Some count ∧
               record_counter (outcome_state o) = <[s := S count]> (record_counter st) ∧
               running_streams (outcome_trace o) = if decide (count = 0) then [s] else []
  | _, _ =>
      record_counter (outcome_state o) = record_counter st ∧
      running_streams (outcome_trace o) = []
  end.
Proof.
  destruct item.
  - rewrite loop_body_eq, iteration_exception_eq.
    pose proof (_stop_streams_outcome (stream_instances_of self)
                  (set_message_queue (λ l, l ++ emitted) st))
      as (stopped & instances & _ & _ & Hst & Hstop & _).
    assert (running_streams (shutdown :: (instances ≫= stop_effects)) = []) as Hr.
    { clear. induction instances as [|i instances IH]; [done|]. by simpl. }
    destruct (_stop_streams _ _) as [[] st1 tr1|e1 st1 tr1]; simpl in *; subst; done.
  - iteration_equations. case_split; by trace_projections.
  - iteration_equations. case_split; by trace_projections.
  - iteration_equations. case_split; by trace_projections.
  - iteration_equations. case_split; trace_projections;
      repeat match goal with
             | H : stream_instances_of _ !! _ = Some _ |- _ =>
                 apply dict_by_name_name in H; rewrite ?H in *
             end;
      try done.
    all: eexists; split; [done|].
    all: rewrite ?Nat.add_1_r; split; [done|]; by case_decide.
Qed.

(** While a run waits: RUNNING was yielded once for each stream of which a
    record was popped, and those are the streams whose counter is not zero. *)
Lemma waiting_running self catalog events st tr :
  read self catalog events = Return Blocked st tr →
  NoDup (running_streams tr) ∧
  ∀ s, (s ∈ running_streams tr ↔ ∃ data, (s, data) ∈ popped_records events) ∧
       (s ∈ running_streams tr ↔ ∃ n, record_counter st !! s = Some (S n)).
Proof.
  revert events st tr. apply read_blocked_ind.
  - intros st tr Hp.
    destruct (prelude_Return_trace _ _ _ _ _ Hp) as (first & rest & _ & ->).
    apply prelude_Return in Hp as (_ & first' & rest' & tr_sel & _ & _ & _ & H).
    destruct H as (_ & _ & _ & _ & _ & _ & Hrc & _).
    pose proof (Forall_selection_effects (stream_instances_of self) catalog) as Hsel.
    assert (running_streams (catalog ≫= selection_effects (stream_instances_of self)) = [])
      as Hr by (apply omap_selection_effects; [by intros []|done]).
    change (?x :: ?l ++ ?k) with ([x] ++ l ++ k).
    rewrite !running_streams_app, Hr. simpl.
    split; [constructor|]. intros s. split; split.
    + by intros ?%elem_of_nil.
    + by intros [? ?%elem_of_nil].
    + by intros ?%elem_of_nil.
    + intros [n Hn]. rewrite Hrc in Hn. by case_decide.
  - intros evs st tr item futures_done emitted st' t _ [Hnodup IH] Hbody.
    pose proof (loop_body_running self item futures_done emitted st) as Hrunning.
    rewrite Hbody in Hrunning. cbv zeta in Hrunning.
    cbn [outcome_trace outcome_result outcome_state] in Hrunning.
    rewrite running_streams_app, popped_records_app, popped_records_cons, app_nil_r.
    destruct (item_record item) as [[s0 data0]|]; simpl.
    2: { destruct Hrunning as [-> ->]. rewrite !app_nil_r. done. }
    destruct Hrunning as (count & Hcount & -> & ->).
    assert (s0 ∈ running_streams tr ↔ count ≠ 0) as Hs0.
    { rewrite (proj2 (IH s0)), Hcount. split.
      - by intros [n [= ->]].
      - destruct count as [|n]; [done|]. by exists n. }
    split.
    + case_decide as Hzero; [|by rewrite app_nil_r].
      apply NoDup_app. split_and!; [done| |apply NoDup_singleton].
      intros s Hs ->%list_elem_of_singleton. by apply Hs0 in Hs.
    + intros s. destruct (IH s) as [IH1 IH2].
      destruct (decide (s = s0)) as [->|Hne].
      * rewrite lookup_insert_eq. split; split.
        -- intros _. exists data0. apply elem_of_app. right. by left.
        -- intros _. apply elem_of_app. case_decide as Hzero; [right; by left|left].
           by apply Hs0.
        -- intros _. by exists count.
        -- intros _. apply elem_of_app. case_decide as Hzero; [right; by left|left].
           by apply Hs0.
      * rewrite lookup_insert_ne by done.
        assert (s ∈ running_streams tr ++ (if decide (count = 0) then [s0] else [])
                ↔ s ∈ running_streams tr) as ->.
        { rewrite elem_of_app. split; [|by left]. intros [?|Hs]; [done|].
          case_decide; [|by apply elem_of_nil in Hs].
          by apply list_elem_of_singleton in Hs. }
        split; [|done]. rewrite IH1. split.
        -- intros [d Hd]. exists d. apply elem_of_app. by left.
        -- intros [d [Hd|Hd]%elem_of_app]; [by exists d|].
           apply list_elem_of_singleton in Hd. congruence.
Qed.

(** Property X19. RUNNING is yielded once per stream with records. In every run no
    stream gets RUNNING twice, and a stream gets it only if one of its
    records was popped; while the driver waits, every stream of which a
    record was popped has got it. *)
Theorem running_once_per_stream self catalog events :
  let o := read self catalog events in
  NoDup (running_streams (outcome_trace o)) ∧
  (∀ s, s ∈ running_streams (outcome_trace o) →
        ∃ data, (s, data) ∈ popped_records events) ∧
  (outcome_result o = inr Blocked →
   ∀ s data, (s, data) ∈ popped_records events → s ∈ running_streams (outcome_trace o)).
Proof.
  cbv zeta.
  apply (read_outcome_ind message_type_is_RECORD self catalog (λ events o,
    NoDup (running_streams (outcome_trace o)) ∧
    (∀ s, s ∈ running_streams (outcome_trace o) →
          ∃ data, (s, data) ∈ popped_records events) ∧
    (outcome_result o = inr Blocked →
     ∀ s data, (s, data) ∈ popped_records events →
               s ∈ running_streams (outcome_trace o)))).
  - intros evs e st tr (tr_sel & -> & Hsel & _)%prelude_Raise.
    assert (running_streams (logger_info (Starting_syncing (name self)) :: tr_sel) = [])
      as Hr by (apply (omap_selection_effects _ tr_sel); [by intros []|done]).
    cbn [outcome_trace outcome_result]. rewrite Hr.
    split_and!; [constructor|by intros ? ?%elem_of_nil|done].
  - intros evs st tr [Hnodup IH]%waiting_running. cbn [outcome_trace].
    split_and!; [done|intros s Hs; by apply (proj1 (IH s))|].
    intros _ s data Hs. apply (proj1 (IH s)). by exists data.
  - intros evs rest st tr [Hnodup IH]%waiting_running. cbn [outcome_trace outcome_result].
    split_and!; [done| |done]. intros s Hs.
    apply (proj1 (IH s)) in Hs as [data Hs]. exists data.
    rewrite popped_records_app. apply elem_of_app. by left.
  - intros evs item futures_done emitted rest st tr st' t Hread Hbody.
    pose proof (waiting_running _ _ _ _ _ Hread) as [Hnodup IH].
    pose proof (loop_body_running self item futures_done emitted st) as Hrunning.
    rewrite Hbody in Hrunning. cbv zeta in Hrunning.
    cbn [outcome_trace outcome_result outcome_state] in Hrunning.
    cbn [outcome_trace outcome_result].
    rewrite !running_streams_app, popped_records_app, popped_records_cons.
    change (running_streams (epilogue_effects self)) with (@nil string).
    rewrite !app_nil_r. split_and!; [| |done].
    + destruct (item_record item) as [[s0 data0]|];
        [|destruct Hrunning as [_ ->]; by rewrite app_nil_r].
      destruct Hrunning as (count & Hcount & _ & ->).
      case_decide as Hzero; [|by rewrite app_nil_r]. subst count.
      apply NoDup_app. split_and!; [done| |apply NoDup_singleton].
      intros s Hs ->%list_elem_of_singleton.
      apply (proj2 (IH s0)) in Hs as [n Hn]. congruence.
    + intros s [Hs|Hs]%elem_of_app.
      * apply (proj1 (IH s)) in Hs as [data Hs]. exists data. apply elem_of_app. by left.
      * destruct (item_record item) as [[s0 data0]|];
          [|destruct Hrunning as [_ Hr]; rewrite Hr in Hs; by apply elem_of_nil in Hs].
        destruct Hrunning as (count & _ & _ & Hr). rewrite Hr in Hs.
        case_decide; [|by apply elem_of_nil in Hs].
        apply list_elem_of_singleton in Hs as ->. exists data0.
        apply elem_of_app. right. apply elem_of_app. left. by left.
  - intros evs item futures_done emitted rest st tr e st' t Hread Hbody.
    pose proof (waiting_running _ _ _ _ _ Hread) as [Hnodup IH].
    pose proof (loop_body_running self item futures_done emitted st) as Hrunning.
    rewrite Hbody in Hrunning. cbv zeta in Hrunning.
    cbn [outcome_trace outcome_result outcome_state] in Hrunning.
    destruct Hrunning as [_ Hr].
    cbn [outcome_trace outcome_result].
    rewrite running_streams_app, Hr, app_nil_r. split_and!; [done| |done].
    intros s Hs. apply (proj1 (IH s)) in Hs as [data Hs]. exists data.
    rewrite popped_records_app. apply elem_of_app. by left.
Qed.

End Running.

(** ** The record counters *)

Section Counters.
Context (message_type_is_RECORD : string → StreamData → bool).

Local Abbreviation read := (read message_type_is_RECORD).
Local Abbreviation loop_body := (loop_body message_type_is_RECORD).

Lemma loop_body_total_records self si item futures_done emitted st control st' t :
  loop_body self si item futures_done emitted st = Return control st' t →
  total_records_counter st' =
  total_records_counter st +
  match item_record item with
  | Some (s, data) => if message_type_is_RECORD s data then 1 else 0
  | None => 0
  end.
Proof.
  destruct item; iteration_equations; intros H; case_split; simpl; try done; lia.
Qed.

(** Property X20. The counters count the records popped. While the driver waits, the
    record counter of each stream selected for reading is the number of
    records of that stream popped so far, and the total counter is the number
    of records popped whose message has the type RECORD. *)
Theorem counters_count_records self catalog events st tr :
  read self catalog events = Return Blocked st tr →
  total_records_counter st
    = length (filter (λ r, message_type_is_RECORD r.1 r.2 = true) (popped_records events)) ∧
  ∀ s, s ∈ names (eligible_streams (stream_instances_of self) catalog) →
       record_counter st !! s
       = Some (length (filter (λ r, r.1 = s) (popped_records events))).
Proof.
  revert events st tr. apply read_blocked_ind.
  - intros st tr (_ & first & rest & tr_sel & Hel & _ & _ & H)%prelude_Return.
    destruct H as (_ & _ & _ & _ & -> & _ & Hrc & _).
    split; [done|]. intros s Hs. rewrite Hrc, <- Hel. by rewrite decide_True.
  - intros evs st tr item futures_done emitted st' t _ [Htotal Hcounters] Hbody.
    assert (popped_records (evs ++ [Pop item futures_done emitted])
            = popped_records evs ++ option_list (item_record item)) as ->.
    { rewrite popped_records_app, popped_records_cons. f_equal. apply app_nil_r. }
    rewrite (loop_body_total_records _ _ _ _ _ _ _ _ _ Hbody), Htotal.
    pose proof (loop_body_running message_type_is_RECORD self item futures_done emitted st)
      as Hrunning.
    rewrite Hbody in Hrunning. cbv zeta in Hrunning.
    cbn [outcome_trace outcome_result outcome_state] in Hrunning.
    destruct (item_record item) as [[s0 data0]|].
    2: { destruct Hrunning as [-> _]. change (option_list None) with (@nil (string * StreamData)).
         rewrite app_nil_r, Nat.add_0_r. done. }
    destruct Hrunning as (count & Hcount & -> & _).
    change (option_list (Some (s0, data0))) with [(s0, data0)].
    rewrite !filter_app, !length_app. split.
    + f_equal. destruct (message_type_is_RECORD s0 data0) eqn:Hrecord.
      * by rewrite filter_cons_True.
      * rewrite filter_cons_False; [done|]. simpl. by rewrite Hrecord.
    + intros s Hs. rewrite filter_app, length_app.
      destruct (decide (s0 = s)) as [->|Hne].
      * rewrite lookup_insert_eq, filter_cons_True by done.
        rewrite Hcounters in Hcount by done. injection Hcount as <-.
        simpl. f_equal. lia.
      * rewrite lookup_insert_ne, filter_cons_False by done.
        rewrite Hcounters by done. simpl. f_equal. lia.
Qed.

End Counters.

(** ** Closed instances of the properties of a run *)

Lemma finished_eta (o : Outcome RunEnd) :
  outcome_result o = inr Finished →
  o = Return Finished (outcome_state o) (outcome_trace o).
Proof. destruct o as [[] ? ?|]; by intros [=]. Qed.

(** One partition with one record, read to the end. *)
Lemma normal_end_witness :
  partition_generator_running
    (outcome_state (read always_RECORD example_source ["a"] example_one_record)) = [] ∧
  ∃ tr0,
    outcome_trace (read always_RECORD example_source ["a"] example_one_record)
    = tr0 ++ epilogue_effects example_source.
Proof.
  pose (finished := read always_RECORD example_source ["a"] example_one_record).
  assert (finished = Return Finished (outcome_state finished) (outcome_trace finished))
    as Hfinished.
  { apply finished_eta. vm_compute. reflexivity. }
  destruct (normal_end always_RECORD example_source ["a"] example_one_record _ _ Hfinished)
    as (_ & Hrunning & _ & Htrace).
  split; [exact Hrunning|exact Htrace].
Defined.

(** "b" is a stream of the source, but the catalog names "a" only. *)
Lemma item_of_unselected_stream_witness :
  outcome_result
    (read always_RECORD example_source ["a"] ([] ++ [Pop (ItemRecord "b" "x") false []]))
  = inl (KeyError "b").
Proof.
  erewrite (item_of_unselected_stream always_RECORD example_source ["a"] []
              _ _ (ItemRecord "b" "x") "b" false [] []).
  - reflexivity.
  - apply blocked_eta. vm_compute. reflexivity.
  - reflexivity.
  - apply (bool_decide_unpack _). vm_compute. exact I.
Defined.

(** "b" still waits for discovery when its sentinel is popped. *)
Lemma sentinel_of_unstarted_generator_witness :
  outcome_result
    (read always_RECORD example_source ["a"; "b"]
       ([] ++ [Pop (PartitionGenerationCompletedSentinel "b") false []]))
  = inl (ValueError "b").
Proof.
  erewrite (sentinel_of_unstarted_generator always_RECORD example_source ["a"; "b"] []
              _ _ "b" false [] []).
  - reflexivity.
  - apply blocked_eta. vm_compute. reflexivity.
  - apply (bool_decide_unpack _). vm_compute. exact I.
Defined.

(** The catalog names only "a", a facade; the source cannot be read. *)
Lemma only_stream_facades_are_read_witness :
  outcome_result (read always_RECORD example_source_with_legacy_stream ["a"] [])
  = inl (ValueError "legacy").
Proof.
  rewrite (only_stream_facades_are_read always_RECORD example_source_with_legacy_stream
             ["a"] [] [StreamFacade example_stream_a] "legacy"
             [StreamFacade example_stream_b]).
  - reflexivity.
  - reflexivity.
  - by repeat constructor.
Defined.

(** The catalog names a stream the source does not have. *)
Lemma missing_streams_are_dropped_witness :
  read always_RECORD example_source_logging_slices ["a"] example_one_record
  = read always_RECORD example_source_logging_slices ["ghost"; "a"] example_one_record.
Proof.
  exact (missing_streams_are_dropped always_RECORD example_source_logging_slices
           ["ghost"; "a"] example_one_record eq_refl).
Defined.

(** "a", "u" (unavailable) and "b" are configured: "a" starts, "b" waits. *)
Lemma discovery_starts_with_first_eligible_witness :
  ∃ st,
    outcome_result (read always_RECORD example_source ["a"; "u"; "b"] []) = inr Blocked ∧
    outcome_state (read always_RECORD example_source ["a"; "u"; "b"] []) = st ∧
    partition_generator_running st = ["a"] ∧
    partition_generators st = ["b"].
Proof.
  destruct (discovery_starts_with_first_eligible always_RECORD example_source
              ["a"; "u"; "b"] example_stream_a [example_stream_b])
    as (st & Hread & _ & Hrunning & Hgenerators & _).
  - by repeat constructor.
  - right. repeat constructor; vm_compute; eauto.
  - vm_compute. reflexivity.
  - exists st. rewrite Hread. by split_and!.
Defined.

(** One partition with one record, read to the end: "a" is COMPLETE. *)
Lemma complete_after_discovery_witness :
  PartitionGenerationCompletedSentinel "a" ∈ popped example_one_record.
Proof.
  apply (complete_after_discovery always_RECORD example_source ["a"] example_one_record
           "a").
  apply (bool_decide_unpack _). vm_compute. exact I.
Defined.

(** A worker fails while "a" is in progress and "b" waits. *)
Lemma incomplete_only_on_abort_witness :
  ∃ e,
    outcome_result
      (read always_RECORD example_source ["a"; "b"]
         [Pop (ItemException (WorkerError "boom")) true []]) = inl e ∧
    ItemException e ∈ popped [Pop (ItemException (WorkerError "boom")) true []].
Proof.
  apply (incomplete_only_on_abort always_RECORD example_source ["a"; "b"]
           [Pop (ItemException (WorkerError "boom")) true []] "a").
  apply (bool_decide_unpack _). vm_compute. exact I.
Defined.

(** The partition of "a" was announced, then its sentinel was popped. *)
Lemma partitions_done_follow_queue_witness :
  ({[example_partition := true]} : gmap Partition.t bool) !! example_partition
  = last_partition_event example_partition example_partition_read_early.
Proof.
  rewrite (partitions_done_follow_queue always_RECORD example_source ["a"; "b"]
             example_partition_read_early
             (outcome_state
                (read always_RECORD example_source ["a"; "b"] example_partition_read_early))
             (outcome_trace
                (read always_RECORD example_source ["a"; "b"] example_partition_read_early))
             "a" {[example_partition := true]} example_partition).
  - reflexivity.
  - apply blocked_eta. vm_compute. reflexivity.
  - vm_compute. reflexivity.
Defined.

(** The last partition of the only stream ends while a task still runs. *)
Lemma pending_tasks_keep_the_run_open_witness :
  streams_in_progress
    (outcome_state
       (read always_RECORD example_source ["a"]
          (example_partition_read_last
           ++ [Pop (PartitionCompleteSentinel example_partition) false []])))
  = ∅.
Proof.
  pose (waiting := read always_RECORD example_source ["a"] example_partition_read_last).
  assert (waiting = Return Blocked (outcome_state waiting) (outcome_trace waiting))
    as Hwaiting.
  { apply blocked_eta. vm_compute. reflexivity. }
  pose (finished :=
          read always_RECORD example_source ["a"]
            (example_partition_read_last
             ++ [Pop (PartitionCompleteSentinel example_partition) false []])).
  assert (finished = Return Finished (outcome_state finished) (outcome_trace finished))
    as Hfinished.
  { apply finished_eta. vm_compute. reflexivity. }
  exact (proj2 (pending_tasks_keep_the_run_open always_RECORD example_source ["a"]
                  example_partition_read_last
                  (PartitionCompleteSentinel example_partition) []
                  _ _ _ _ Hwaiting Hfinished)).
Defined.

(** One record of "a" was popped; "b" is started and has none. *)
Lemma counters_count_records_witness :
  total_records_counter
    (outcome_state (read always_RECORD example_source ["a"; "b"] example_one_record))
  = 1.
Proof.
  pose (waiting := read always_RECORD example_source ["a"; "b"] example_one_record).
  assert (waiting = Return Blocked (outcome_state waiting) (outcome_trace waiting))
    as Hwaiting.
  { apply blocked_eta. vm_compute. reflexivity. }
  destruct (counters_count_records always_RECORD example_source ["a"; "b"]
              example_one_record _ _ Hwaiting) as [Htotal _].
  unfold waiting in Htotal. rewrite Htotal. vm_compute. reflexivity.
Defined.

(** ** One more event after a wait *)

Section Step.
Context (message_type_is_RECORD : string → StreamData → bool).

Local Abbreviation read := (read message_type_is_RECORD).
Local Abbreviation loop := (loop message_type_is_RECORD).
Local Abbreviation loop_body := (loop_body message_type_is_RECORD).

Lemma read_timeout self catalog events rest st tr :
  read self catalog events = Return Blocked st tr →
  read self catalog (events ++ TimeoutExpired :: rest) = Raise QueueEmpty st tr.
Proof.
  intros Hread.
  destruct (read_app _ _ _ _ (TimeoutExpired :: rest) _ _ Hread)
    as (si & st0 & tr0 & _ & ->).
  simpl. unfold raise. simpl. by rewrite app_nil_r.
Qed.

Lemma read_pop self catalog events item futures_done emitted rest st tr :
  read self catalog events = Return Blocked st tr →
  read self catalog (events ++ Pop item futures_done emitted :: rest) =
  match loop_body self (stream_instances_of self) item futures_done emitted st with
  | Return Continue st' t =>
      prepend (tr ++ t) (loop self (stream_instances_of self) rest st')
  | Return Break st' t => Return Finished st' (tr ++ t ++ epilogue_effects self)
  | Raise e st' t => Raise e st' (tr ++ t)
  end.
Proof.
  intros Hread.
  destruct (read_app _ _ _ _ (Pop item futures_done emitted :: rest) _ _ Hread)
    as (si & st0 & tr0 & Hprelude & ->).
  apply prelude_Return in Hprelude as [-> _].
  simpl. unfold bind at 1.
  destruct (loop_body _ _ _ _ _ _) as [[] st' t|e st' t]; simpl.
  - by rewrite prepend_prepend.
  - unfold epilogue_effects. by rewrite <- ?app_assoc.
  - done.
Qed.


(** While the driver waits, some stream is in progress. *)
Lemma waiting_in_progress self catalog events st tr :
  read self catalog events = Return Blocked st tr →
  streams_in_progress st ≠ ∅.
Proof.
  revert events st tr. apply read_blocked_invariant.
  - intros st tr (_ & first & rest & tr_sel & _ & _ & _ & H)%prelude_Return.
    destruct H as (_ & _ & _ & -> & _). set_solver.
  - intros st tr item futures_done emitted st' t Hprog.
    destruct item; iteration_equations; intros H; case_split; try done.
    all: set_solver.
Qed.

End Step.

(** ** A run that selects no stream *)

Lemma _streams_as_abstract_streams_eq l st :
  _streams_as_abstract_streams l st =
  match first_other_stream l with
  | Some repr => Raise (ValueError repr) st []
  | None => Return (facade_streams l) st []
  end.
Proof.
  induction l as [|[a|r] l IH]; simpl; [done| |done].
  unfold bind. rewrite IH. unfold first_other_stream. simpl.
  by destruct (head _).
Qed.

Lemma select_streams_none self si catalog st :
  eligible_streams si catalog = [] →
  ∃ tr,
    Forall (λ e, ∃ stream reason,
              e = logger_warning (Skipped_syncing_stream stream reason)) tr ∧
    select_streams self si catalog st =
    match (if raise_exception_on_missing_stream self
           then first_missing_stream si catalog else None) with
    | Some configured_stream => Raise (KeyError configured_stream) st tr
    | None => Return [] st tr
    end.
Proof.
  induction catalog as [|c catalog IH].
  - intros _. exists []. split; [done|]. simpl.
    by destruct (raise_exception_on_missing_stream self).
  - rewrite eligible_streams_cons. unfold first_missing_stream. simpl.
    destruct (si !! c) as [instance|] eqn:Hc.
    + destruct (AbstractStream.is_available instance); [done|].
      intros (tr & Htr & Hselect)%IH.
      exists (logger_warning (Skipped_syncing_stream (AbstractStream.name instance)
                                (AbstractStream.message instance)) :: tr).
      split; [constructor; eauto|].
      unfold bind, effect. simpl. rewrite Hselect.
      unfold first_missing_stream.
      by destruct (if raise_exception_on_missing_stream self then _ else _).
    + intros (tr & Htr & Hselect)%IH.
      destruct (raise_exception_on_missing_stream self).
      * exists []. split; [done|]. done.
      * exists tr. split; [done|]. by rewrite Hselect.
Qed.

Lemma skip_warnings_projections tr :
  Forall (λ e, ∃ stream reason,
            e = logger_warning (Skipped_syncing_stream stream reason)) tr →
  yields tr = [] ∧ submitted tr = [] ∧ timer_starts tr = [].
Proof.
  induction 1 as [|e tr (stream & reason & ->) _ IH]; [done|].
  unfold yields, submitted, timer_starts in *. simpl. done.
Qed.

Section NoStream.
Context (message_type_is_RECORD : string → StreamData → bool).

Local Abbreviation read := (read message_type_is_RECORD).

(** Claim C9 (no eligible stream).  When no configured stream is known to the
    source and available, [read] raises before it looks at the queue,
    whatever the workers do, with the locals as they were created and
    after a log line and the skip warnings only: no message is yielded, no
    task submitted and no timer started.  The error is the [ValueError] of
    the first stream of the source that is not a [StreamFacade]; else, when
    [raise_exception_on_missing_stream] is set, the [KeyError] of the first
    configured stream the source does not know; else the [IndexError] of
    popping the empty list of partition generators. *)
Theorem no_eligible_stream self catalog events :
  eligible_streams (stream_instances_of self) catalog = [] →
  ∃ tr,
    read self catalog events
      = Raise (error_without_eligible_stream self catalog) (initial_state self)
          (logger_info (Starting_syncing (name self)) :: tr) ∧
    read self catalog events = read self catalog [] ∧
    Forall (λ e, ∃ stream reason,
              e = logger_warning (Skipped_syncing_stream stream reason)) tr ∧
    yields tr = [] ∧ submitted tr = [] ∧ timer_starts tr = [].
Proof.
  intros Hnone.
  assert (∃ tr,
    Forall (λ e, ∃ stream reason,
              e = logger_warning (Skipped_syncing_stream stream reason)) tr ∧
    ∀ events, read self catalog events
      = Raise (error_without_eligible_stream self catalog) (initial_state self)
          (logger_info (Starting_syncing (name self)) :: tr)) as (tr & Htr & Hread).
  { unfold error_without_eligible_stream.
    unfold read, read_body, bind at 1, prelude, bind at 1, effect. simpl.
    unfold bind at 1. rewrite _streams_as_abstract_streams_eq.
    destruct (first_other_stream (streams self)) as [repr|]; simpl.
    { exists []. split; [done|]. done. }
    fold (stream_instances_of self).
    destruct (select_streams_none self (stream_instances_of self) catalog
                (initial_state self) Hnone) as (tr & Htr & Hselect).
    exists tr. split; [done|]. intros events'.
    unfold bind at 1. rewrite Hselect.
    destruct (if raise_exception_on_missing_stream self then _ else _); simpl; [done|].
    unfold start_reading, bind, modify, get, ret. simpl.
    by rewrite !app_nil_r. }
  exists tr. split_and!; [done|by rewrite !Hread|done|by apply skip_warnings_projections..].
Qed.

End NoStream.

(** ** A pop that times out *)

Section Stall.
Context (message_type_is_RECORD : string → StreamData → bool).

Local Abbreviation read := (read message_type_is_RECORD).

(** Claim C8 (queue timeout).  When the pop times out while the driver
    waits, [read] raises [queue.Empty] at once, with the locals and the
    trace as they are, and consumes nothing more.  The run has then not shut
    the worker pool down and has yielded no INCOMPLETE status, while some
    stream is in progress.  An error item popped at the same place ends the
    run with that error after one shutdown of the pool and one INCOMPLETE
    status for each stream in progress. *)
Theorem queue_timeout_is_not_an_abort self catalog events rest st tr :
  read self catalog events = Return Blocked st tr →
  let stalled := read self catalog (events ++ TimeoutExpired :: rest) in
  stalled = Raise QueueEmpty st tr ∧
  shutdowns (outcome_trace stalled) = 0 ∧
  incomplete_streams (outcome_trace stalled) = [] ∧
  streams_in_progress (outcome_state stalled) ≠ ∅ ∧
  ∀ e futures_done emitted,
    let aborted :=
      read self catalog (events ++ Pop (ItemException e) futures_done emitted :: rest) in
    outcome_result aborted = inl e ∧
    shutdowns (outcome_trace aborted) = 1 ∧
    incomplete_streams (outcome_trace aborted) = elements (streams_in_progress st).
Proof.
  intros Hread stalled. subst stalled.
  rewrite (read_timeout _ _ _ _ _ _ _ Hread). cbn [outcome_trace outcome_state].
  pose proof (waiting_effects _ _ _ _ _ _ Hread) as (Hshutdowns & _).
  pose proof (waiting_statuses _ _ _ _ _ _ Hread) as (Hincomplete & _).
  split_and!; [done..|by eapply waiting_in_progress|].
  intros e futures_done emitted. cbv zeta.
  rewrite (read_pop _ _ _ _ _ _ _ _ _ _ Hread).
  destruct (loop_body_exception _ _ _ _ _ _ e futures_done emitted Hread)
    as (instances & Hnames & ->).
  cbn [outcome_result outcome_trace].
  destruct (stop_projections instances) as (_ & _ & _ & _ & _ & _ & _ & _ & _ & Hstop).
  destruct (stop_status_projections instances) as [_ Hstopped].
  change (shutdown :: ?l) with ([shutdown] ++ l).
  rewrite !shutdowns_app, !incomplete_streams_app, Hshutdowns, Hincomplete, Hstop, Hstopped.
  simpl. by rewrite Hnames.
Qed.

End Stall.

(** ** Streams left in progress *)

Lemma completed_streams_stopped tr s :
  s ∈ completed_streams tr → s ∈ stopped_streams tr.
Proof.
  unfold completed_streams, stopped_streams. rewrite !list_elem_of_omap.
  intros (e & He & Hs). exists e. split; [done|].
  by destruct e as [[n ns []| |]| | | | | | | |].
Qed.

Lemma statuses_of_STARTED s tr : STARTED ∈ statuses_of s tr ↔ s ∈ started_streams tr.
Proof.
  unfold statuses_of, started_streams. rewrite !list_elem_of_omap.
  split; intros (e & He & Hs); exists e; (split; [done|]);
    destruct e as [[n ns []| |]| | | | | | | |]; simpl in *;
    try case_decide; simplify_eq; try done; by rewrite decide_True.
Qed.

Lemma statuses_of_COMPLETE s tr : COMPLETE ∈ statuses_of s tr ↔ s ∈ completed_streams tr.
Proof.
  unfold statuses_of, completed_streams. rewrite !list_elem_of_omap.
  split; intros (e & He & Hs); exists e; (split; [done|]);
    destruct e as [[n ns []| |]| | | | | | | |]; simpl in *;
    try case_decide; simplify_eq; try done; by rewrite decide_True.
Qed.

Lemma statuses_of_INCOMPLETE s tr :
  INCOMPLETE ∈ statuses_of s tr ↔ s ∈ incomplete_streams tr.
Proof.
  unfold statuses_of, incomplete_streams. rewrite !list_elem_of_omap.
  split; intros (e & He & Hs); exists e; (split; [done|]);
    destruct e as [[n ns []| |]| | | | | | | |]; simpl in *;
    try case_decide; simplify_eq; try done; by rewrite decide_True.
Qed.

Lemma count_singleton (s x : string) :
  length (filter (λ y, y = s) [x]) = if decide (x = s) then 1 else 0.
Proof. case_decide; [by rewrite filter_cons_True|by rewrite filter_cons_False]. Qed.

Lemma count_COMPLETE s tr :
  length (filter (λ x, x = COMPLETE) (statuses_of s tr))
  = length (filter (λ x, x = s) (completed_streams tr)).
Proof.
  unfold statuses_of, completed_streams.
  induction tr as [|e tr IH]; [done|].
  destruct e as [[n ns status| |]| | | | | | | |]; simpl; try done.
  destruct status; case_decide; subst;
    rewrite ?filter_cons_True, ?filter_cons_False by done; simpl;
    first [exact IH | f_equal; exact IH].
Qed.

Lemma count_STARTED s tr :
  length (filter (λ x, x = STARTED) (statuses_of s tr))
  = length (filter (λ x, x = s) (started_streams tr)).
Proof.
  unfold statuses_of, started_streams.
  induction tr as [|e tr IH]; [done|].
  destruct e as [[n ns status| |]| | | | | | | |]; simpl; try done.
  destruct status; case_decide; subst;
    rewrite ?filter_cons_True, ?filter_cons_False by done; simpl;
    first [exact IH | f_equal; exact IH].
Qed.

Section InProgress.
Context (message_type_is_RECORD : string → StreamData → bool).

Local Abbreviation read := (read message_type_is_RECORD).
Local Abbreviation loop_body := (loop_body message_type_is_RECORD).

Lemma in_progress_step self catalog evs st tr item futures_done emitted control st' t :
  NoDup catalog →
  read self catalog evs = Return Blocked st tr →
  (∀ s, s ∈ streams_in_progress st → s ∉ completed_streams tr) →
  loop_body self (stream_instances_of self) item futures_done emitted st
    = Return control st' t →
  ∀ s, s ∈ streams_in_progress st' →
       s ∈ started_streams (tr ++ t) ∧ (s ∉ completed_streams (tr ++ t)).
Proof.
  intros Hnodup Hread Hnot.
  pose proof (waiting_discovery _ _ _ _ _ _ Hread) as (Hstarted & _ & _ & _ & Hprog).
  pose proof (waiting_statuses _ _ _ _ _ _ Hread) as (_ & Hstopped & _).
  assert (NoDup (started_streams tr ++ partition_generators st)) as Hnd.
  { rewrite Hstarted.
    pose proof (eligible_streams_sublist (stream_instances_of self) catalog
                  (stream_instances_of_name self)) as Hsub.
    by eapply sublist_NoDup. }
  destruct item; iteration_equations; intros H; case_split; trace_projections;
    intros s0 Hs0; rewrite ?elem_of_app, ?not_elem_of_app.
  all: try (split; [first [by (left; apply Hprog) | by apply Hprog] | by apply Hnot]).
  - apply elem_of_union in Hs0 as [->%elem_of_singleton|Hs0].
    + split; [right; by apply list_elem_of_singleton|].
      intros Hc%completed_streams_stopped%Hstopped.
      apply NoDup_app in Hnd as (_ & Hnd & _). apply (Hnd _ Hc). by left.
    + split; [left; by apply Hprog|by apply Hnot].
  - apply elem_of_difference in Hs0 as [Hs0 Hne%not_elem_of_singleton].
    match goal with
    | H : stream_instances_of _ !! _ = Some _ |- _ =>
        apply stream_instances_of_name in H; rewrite H
    end.
    split; [by apply Hprog|].
    intros [Hc|Hc%list_elem_of_singleton]; [by apply (Hnot s0)|done].
Qed.

(** A stream has been completed at most as often as started, and less often
    while it is in progress. *)
Lemma completions_step self item futures_done emitted st tr control st' t :
  (∀ s, length (filter (λ x, x = s) (completed_streams tr))
        ≤ length (filter (λ x, x = s) (started_streams tr)) ∧
        (s ∈ streams_in_progress st →
         length (filter (λ x, x = s) (completed_streams tr))
         < length (filter (λ x, x = s) (started_streams tr)))) →
  loop_body self (stream_instances_of self) item futures_done emitted st
    = Return control st' t →
  ∀ s, length (filter (λ x, x = s) (completed_streams (tr ++ t)))
       ≤ length (filter (λ x, x = s) (started_streams (tr ++ t))) ∧
       (s ∈ streams_in_progress st' →
        length (filter (λ x, x = s) (completed_streams (tr ++ t)))
        < length (filter (λ x, x = s) (started_streams (tr ++ t)))).
Proof.
  intros Hcounts.
  destruct item; iteration_equations; intros H; case_split; trace_projections;
    intros s0; destruct (Hcounts s0) as [Hle Hlt]; try done.
  - rewrite filter_app, length_app, count_singleton.
    destruct (decide (s = s0)) as [<-|Hne].
    + split; [lia|intros _; lia].
    + rewrite Nat.add_0_r. split; [done|].
      intros [?%elem_of_singleton|?]%elem_of_union; [congruence|by apply Hlt].
  - match goal with
    | H : stream_instances_of _ !! _ = Some _ |- _ =>
        apply stream_instances_of_name in H; rewrite H
    end.
    rewrite filter_app, length_app, count_singleton.
    destruct (decide (Partition.stream_name partition = s0)) as [<-|Hne].
    + split; [|by intros [_ ?%not_elem_of_singleton]%elem_of_difference].
      match goal with Hin : _ ∈ streams_in_progress st |- _ => specialize (Hlt Hin) end.
      lia.
    + rewrite Nat.add_0_r. split; [done|]. intros [? _]%elem_of_difference. by apply Hlt.
Qed.

Lemma waiting_completions self catalog events st tr :
  read self catalog events = Return Blocked st tr →
  ∀ s, length (filter (λ x, x = s) (completed_streams tr))
       ≤ length (filter (λ x, x = s) (started_streams tr)) ∧
       (s ∈ streams_in_progress st →
        length (filter (λ x, x = s) (completed_streams tr))
        < length (filter (λ x, x = s) (started_streams tr))).
Proof.
  revert events st tr.
  apply (read_blocked_invariant message_type_is_RECORD self catalog (λ st tr,
    ∀ s, length (filter (λ x, x = s) (completed_streams tr))
         ≤ length (filter (λ x, x = s) (started_streams tr)) ∧
         (s ∈ streams_in_progress st →
          length (filter (λ x, x = s) (completed_streams tr))
          < length (filter (λ x, x = s) (started_streams tr))))).
  - intros st tr Hprelude s.
    destruct (prelude_projections _ _ _ _ _ Hprelude)
      as (first & rest & Hfirst & -> & Hstopped & _).
    apply prelude_Return in Hprelude as (_ & first' & rest' & tr_sel & Hfirst' & _ & _ & H).
    destruct H as (_ & _ & _ & -> & _).
    rewrite Hfirst in Hfirst'. injection Hfirst' as <- <-.
    assert (completed_streams tr = []) as ->.
    { destruct (completed_streams tr) as [|c l] eqn:Hc; [done|].
      assert (c ∈ stopped_streams tr) as Hin.
      { apply completed_streams_stopped. rewrite Hc. by left. }
      rewrite Hstopped in Hin. by apply elem_of_nil in Hin. }
    rewrite count_singleton. simpl. split; [lia|].
    intros ->%elem_of_singleton. rewrite decide_True by done. lia.
  - intros st tr item futures_done emitted st' t Hcounts Hbody.
    by eapply completions_step.
Qed.

Lemma waiting_in_progress_not_completed self catalog events st tr :
  NoDup catalog →
  read self catalog events = Return Blocked st tr →
  ∀ s, s ∈ streams_in_progress st → s ∉ completed_streams tr.
Proof.
  intros Hnodup. revert events st tr.
  apply (read_blocked_ind message_type_is_RECORD self catalog (λ _ st tr,
    ∀ s, s ∈ streams_in_progress st → s ∉ completed_streams tr)).
  - intros st tr Hprelude s _ Hs%completed_streams_stopped.
    destruct (prelude_projections _ _ _ _ _ Hprelude) as (first & rest & _ & _ & Hnone & _).
    rewrite Hnone in Hs. by apply elem_of_nil in Hs.
  - intros evs st tr item futures_done emitted st' t Hread IH Hbody s Hs.
    by eapply in_progress_step.
Qed.

(** Claim C3 (status lifecycle of a stream).  When [read] returns and a
    stream is still in [streams_in_progress], the run has yielded no
    INCOMPLETE status for that stream and fewer COMPLETE statuses than
    STARTED statuses: a start of the stream is left without a terminal
    status.  For a catalog that names each stream once, the run has yielded
    STARTED for that stream and neither COMPLETE nor INCOMPLETE. *)
Theorem finished_without_terminal_status self catalog events stream st tr :
  read self catalog events = Return Finished st tr →
  stream ∈ streams_in_progress st →
  STARTED ∈ statuses_of stream tr ∧
  (INCOMPLETE ∉ statuses_of stream tr) ∧
  length (filter (λ status, status = COMPLETE) (statuses_of stream tr))
  < length (filter (λ status, status = STARTED) (statuses_of stream tr)) ∧
  (NoDup catalog → COMPLETE ∉ statuses_of stream tr).
Proof.
  rewrite statuses_of_STARTED, statuses_of_COMPLETE, statuses_of_INCOMPLETE,
    count_COMPLETE, count_STARTED.
  revert st tr.
  apply (read_outcome_ind message_type_is_RECORD self catalog (λ _ o,
    ∀ st tr, o = Return Finished st tr → stream ∈ streams_in_progress st →
      stream ∈ started_streams tr ∧ (stream ∉ incomplete_streams tr) ∧
      length (filter (λ x, x = stream) (completed_streams tr))
      < length (filter (λ x, x = stream) (started_streams tr)) ∧
      (NoDup catalog → stream ∉ completed_streams tr))); try (intros; discriminate).
  intros evs item futures_done emitted rest st0 tr0 st' t Hread Hbody st tr [= <- <-] Hs.
  pose proof (waiting_statuses _ _ _ _ _ _ Hread) as (Hincomplete & _).
  pose proof (loop_body_statuses message_type_is_RECORD self item futures_done emitted st0)
    as Hstatuses.
  rewrite Hbody in Hstatuses. cbv zeta in Hstatuses. cbn [outcome_trace] in Hstatuses.
  destruct Hstatuses as (_ & _ & Hi & _).
  destruct (completions_step _ _ _ _ _ _ _ _ _ (waiting_completions _ _ _ _ _ Hread)
              Hbody stream) as [_ Hless].
  specialize (Hless Hs).
  rewrite app_assoc, started_streams_app, completed_streams_app, incomplete_streams_app.
  rewrite incomplete_streams_app, Hincomplete. simpl. rewrite !app_nil_r.
  split_and!; [| |done|].
  - destruct (filter _ (started_streams (tr0 ++ t))) as [|x l] eqn:Hfilter;
      [simpl in Hless; lia|].
    assert (x ∈ filter (λ x, x = stream) (started_streams (tr0 ++ t))) as Hx.
    { rewrite Hfilter. by left. }
    by apply list_elem_of_filter in Hx as [-> ?].
  - intros [[e ->] _]%Hi.
    destruct (loop_body_exception _ _ _ _ _ _ e futures_done emitted Hread)
      as (instances & _ & Hraise).
    congruence.
  - intros Hnodup.
    by destruct (in_progress_step _ _ _ _ _ _ _ _ _ _ _ Hnodup Hread
                   (waiting_in_progress_not_completed _ _ _ _ _ Hnodup Hread)
                   Hbody stream Hs).
Qed.

End InProgress.

(** The partition of "a" is read to its end before discovery ends: [read]
    returns, and "a" has no terminal status. *)
Lemma finished_without_terminal_status_witness :
  outcome_result
    (read always_RECORD example_source ["a"] example_partition_read_before_discovery_ends)
  = inr Finished ∧
  statuses_of "a"
    (outcome_trace
       (read always_RECORD example_source ["a"]
          example_partition_read_before_discovery_ends))
  = [STARTED; RUNNING] ∧
  (COMPLETE ∉
     statuses_of "a"
       (outcome_trace
          (read always_RECORD example_source ["a"]
             example_partition_read_before_discovery_ends))) ∧
  (INCOMPLETE ∉
     statuses_of "a"
       (outcome_trace
          (read always_RECORD example_source ["a"]
             example_partition_read_before_discovery_ends))).
Proof.
  pose (finished :=
    read always_RECORD example_source ["a"] example_partition_read_before_discovery_ends).
  assert (finished = Return Finished (outcome_state finished) (outcome_trace finished))
    as Hfinished.
  { apply finished_eta. vm_compute. reflexivity. }
  assert ("a" ∈ streams_in_progress (outcome_state finished)) as Hin_progress.
  { apply (bool_decide_unpack _). vm_compute. exact I. }
  destruct (finished_without_terminal_status always_RECORD example_source ["a"]
              example_partition_read_before_discovery_ends "a" _ _
              Hfinished Hin_progress)
    as (_ & Hincomplete & _ & Hcomplete).
  split_and!; [vm_compute; reflexivity..| |exact Hincomplete].
  apply Hcomplete. apply (bool_decide_unpack _). vm_compute. exact I.
Defined.

(** ** Records and the count that is logged *)

Section Records.
Context (message_type_is_RECORD : string → StreamData → bool).

Local Abbreviation read := (read message_type_is_RECORD).
Local Abbreviation loop_body := (loop_body message_type_is_RECORD).

(** While the driver waits, the counter of a selected stream is the number
    of its records popped so far. *)
Lemma waiting_counters self catalog events st tr :
  read self catalog events = Return Blocked st tr →
  ∀ s, s ∈ names (eligible_streams (stream_instances_of self) catalog) →
       record_counter st !! s = Some (records_popped s events).
Proof.
  revert events st tr.
  apply (read_blocked_ind message_type_is_RECORD self catalog (λ events st _,
    ∀ s, s ∈ names (eligible_streams (stream_instances_of self) catalog) →
         record_counter st !! s = Some (records_popped s events))).
  - intros st tr (_ & first & rest & tr_sel & Hel & _ & _ & H)%prelude_Return.
    destruct H as (_ & _ & _ & _ & _ & _ & Hrc & _).
    intros s Hs. rewrite Hrc, <- Hel. by rewrite decide_True.
  - intros evs st tr item futures_done emitted st' t _ Hcounters Hbody s Hs.
    unfold records_popped.
    assert (popped_records (evs ++ [Pop item futures_done emitted])
            = popped_records evs ++ option_list (item_record item)) as ->.
    { rewrite popped_records_app, popped_records_cons. f_equal. apply app_nil_r. }
    pose proof (loop_body_running message_type_is_RECORD self item futures_done emitted st)
      as Hrunning.
    rewrite Hbody in Hrunning. cbv zeta in Hrunning.
    cbn [outcome_trace outcome_result outcome_state] in Hrunning.
    rewrite filter_app, length_app.
    destruct (item_record item) as [[s0 data0]|].
    2: { destruct Hrunning as [-> _].
         change (option_list None) with (@nil (string * StreamData)).
         rewrite filter_nil. simpl. rewrite Nat.add_0_r. by apply Hcounters. }
    destruct Hrunning as (count & Hcount & -> & _).
    change (option_list (Some (s0, data0))) with [(s0, data0)].
    destruct (decide (s0 = s)) as [->|Hne].
    + rewrite lookup_insert_eq, filter_cons_True by done.
      rewrite Hcounters in Hcount by done. injection Hcount as <-.
      simpl. f_equal. unfold records_popped. lia.
    + rewrite lookup_insert_ne, filter_cons_False by done.
      rewrite Hcounters by done. simpl. f_equal. unfold records_popped. lia.
Qed.

Lemma selected_stream_instance self catalog stream_name :
  stream_name ∈ names (eligible_streams (stream_instances_of self) catalog) →
  ∃ stream, stream_instances_of self !! stream_name = Some stream ∧
            AbstractStream.name stream = stream_name.
Proof.
  intros (stream & -> & Hin)%list_elem_of_fmap. exists stream.
  apply eligible_streams_lookup in Hin as (_ & Hlookup & _); [done|].
  apply stream_instances_of_name.
Qed.


End Records.



(** ** A sentinel for a partition that is already done *)

Section DuplicateSentinel.
Context (message_type_is_RECORD : string → StreamData → bool).

Local Abbreviation read := (read message_type_is_RECORD).
Local Abbreviation loop_body := (loop_body message_type_is_RECORD).

(** Claim C4 (partition-completed sentinel for a partition already done).
    The driver waits, and the partition of the next sentinel is already
    marked done.  [read] marks it done again and closes it on the cursor of
    its stream a second time.  Then, when another partition of the stream is
    not done or the generator of the stream is running, it waits again, with
    its locals as they were.  When the stream is done and no more in
    progress, the removal from [streams_in_progress] raises [KeyError] out
    of [read]: the worker pool is not shut down, no INCOMPLETE status is
    yielded, and some other stream is in progress.  When the stream is done
    and still in progress, the sentinel completes it: the stream leaves
    [streams_in_progress], its record count is logged and its COMPLETE
    status yielded. *)
Theorem duplicate_partition_sentinel self catalog events st tr partition partition_to_done
    futures_done emitted :
  read self catalog events = Return Blocked st tr →
  streams_to_partitions_to_done st !! Partition.stream_name partition
    = Some partition_to_done →
  partition_to_done !! partition = Some true →
  let stream_name := Partition.stream_name partition in
  let stream_is_done :=
    all_values partition_to_done
    && bool_decide (stream_name ∉ partition_generator_running st) in
  let st1 := set_message_queue (.++ emitted) st in
  let sentinel := Pop (PartitionCompleteSentinel partition) futures_done emitted in
  ∃ stream,
    stream_instances_of self !! stream_name = Some stream ∧
    AbstractStream.name stream = stream_name ∧
    (stream_is_done = false →
       read self catalog (events ++ [sentinel])
       = Return Blocked st1
           (tr ++ [cursor_close_partition (AbstractStream.name stream) partition])) ∧
    (stream_is_done = true → stream_name ∉ streams_in_progress st →
       (∀ rest,
          read self catalog (events ++ sentinel :: rest)
          = Raise (KeyError stream_name) st1
              (tr ++ [cursor_close_partition (AbstractStream.name stream) partition])) ∧
       shutdowns (tr ++ [cursor_close_partition (AbstractStream.name stream) partition])
         = 0 ∧
       incomplete_streams
         (tr ++ [cursor_close_partition (AbstractStream.name stream) partition]) = [] ∧
       streams_in_progress st1 ≠ ∅) ∧
    (stream_is_done = true → stream_name ∈ streams_in_progress st →
       let st2 := set_streams_in_progress (.∖ {[stream_name]}) st1 in
       let control :=
         if decide (streams_in_progress st2 = ∅) then Break
         else all_done_control futures_done st2 in
       record_counter st !! stream_name = Some (records_popped stream_name events) ∧
       read self catalog (events ++ [sentinel])
       = Return (run_end_of control) st2
           (tr ++
            completion_effects stream (records_popped stream_name events) partition ++
            match control with Continue => [] | Break => epilogue_effects self end)).
Proof.
  intros Hread Hdone Hpartition. cbv zeta.
  destruct (waiting_dicts message_type_is_RECORD self catalog
              (Partition.stream_name partition) events st tr Hread) as [_ Hdict].
  assert (Partition.stream_name partition
          ∈ names (eligible_streams (stream_instances_of self) catalog)) as Hselected.
  { apply Hdict. by eexists. }
  destruct (selected_stream_instance _ _ _ Hselected) as (stream & Hstream & Hname).
  pose proof (waiting_counters _ _ _ _ _ _ Hread _ Hselected) as Hcount.
  pose proof (waiting_in_progress _ _ _ _ _ _ Hread) as Hprog.
  pose proof (waiting_effects _ _ _ _ _ _ Hread) as (Hshutdowns & _).
  pose proof (waiting_statuses _ _ _ _ _ _ Hread) as (Hincomplete & _).
  pose proof (set_streams_to_partitions_to_done_id
                (set_message_queue (λ l, l ++ emitted) st) _ _ _ Hdone Hpartition) as Hid.
  assert (∀ rest,
    read self catalog
      (events ++ Pop (PartitionCompleteSentinel partition) futures_done emitted :: rest)
    = match loop_body self (stream_instances_of self) (PartitionCompleteSentinel partition)
              futures_done emitted st with
      | Return Continue st' t =>
          prepend (tr ++ t)
            (loop message_type_is_RECORD self (stream_instances_of self) rest st')
      | Return Break st' t => Return Finished st' (tr ++ t ++ epilogue_effects self)
      | Raise e st' t => Raise e st' (tr ++ t)
      end) as Hpop by (intros rest; by apply read_pop).
  revert Hpop. rewrite loop_body_eq, iteration_partition_completed_eq. cbv zeta. simpl.
  rewrite Hdone, Hstream, Hid, (insert_id _ _ _ Hpartition), Hcount.
  intros Hpop. exists stream. split_and!; [done..| | |].
  - intros Hfalse. rewrite (Hpop []), Hfalse.
    assert (all_done_control futures_done (set_message_queue (λ l, l ++ emitted) st)
            = Continue) as ->.
    { destruct (all_done_control _ _) eqn:Hcontrol; [done|]. exfalso.
      apply all_done_control_Break in Hcontrol as (Hrunning & _ & Hall & _).
      simpl in Hrunning, Hall.
      apply andb_false_iff in Hfalse as [Hfalse|Hfalse].
      - apply bool_decide_eq_true in Hall. specialize (Hall _ _ Hdone).
        simpl in Hall. congruence.
      - apply bool_decide_eq_false in Hfalse. apply Hfalse.
        rewrite Hrunning. by intros ?%elem_of_nil. }
    rewrite decide_False by done. simpl. unfold ret. simpl. by rewrite app_nil_r.
  - intros Htrue Hnot. split_and!; [|by rewrite shutdowns_app, Hshutdowns|
                                    by rewrite incomplete_streams_app, Hincomplete|done].
    intros rest. by rewrite Hpop, Htrue, decide_False.
  - intros Htrue Hin. split; [done|].
    rewrite (Hpop []), Htrue, decide_True by done. unfold completion_effects.
    destruct (decide (_ = ∅)); simpl; [done|].
    destruct (all_done_control _ _); simpl; [|done].
    unfold ret. simpl. by rewrite app_nil_r.
Qed.

End DuplicateSentinel.

(** Stream "a" has completed and "b" is being discovered when the sentinel
    of the partition of "a" is popped again. *)
Lemma duplicate_partition_sentinel_witness :
  outcome_result
    (read always_RECORD example_source ["a"; "b"]
       (example_stream_completed ++
        [Pop (PartitionCompleteSentinel example_partition) false []]))
  = inl (KeyError "a") ∧
  shutdowns
    (outcome_trace
       (read always_RECORD example_source ["a"; "b"]
          (example_stream_completed ++
           [Pop (PartitionCompleteSentinel example_partition) false []])))
  = 0 ∧
  statuses_of "b"
    (outcome_trace
       (read always_RECORD example_source ["a"; "b"]
          (example_stream_completed ++
           [Pop (PartitionCompleteSentinel example_partition) false []])))
  = [STARTED] ∧
  cursor_closes
    (outcome_trace
       (read always_RECORD example_source ["a"; "b"]
          (example_stream_completed ++
           [Pop (PartitionCompleteSentinel example_partition) false []])))
  = [("a", example_partition); ("a", example_partition)].
Proof.
  pose (waiting := read always_RECORD example_source ["a"; "b"] example_stream_completed).
  assert (waiting = Return Blocked (outcome_state waiting) (outcome_trace waiting))
    as Hwaiting.
  { apply blocked_eta. vm_compute. reflexivity. }
  assert (streams_to_partitions_to_done (outcome_state waiting)
            !! Partition.stream_name example_partition
          = Some {[example_partition := true]}) as Hdone.
  { vm_compute. reflexivity. }
  assert (({[example_partition := true]} : gmap Partition.t bool) !! example_partition
          = Some true) as Hpartition.
  { vm_compute. reflexivity. }
  destruct (duplicate_partition_sentinel always_RECORD example_source ["a"; "b"]
              example_stream_completed _ _ example_partition _ false []
              Hwaiting Hdone Hpartition)
    as (stream & _ & Hname & _ & Hraise & _).
  destruct Hraise as (Hraise & _).
  { vm_compute. reflexivity. }
  { apply (bool_decide_unpack _). vm_compute. exact I. }
  rewrite (Hraise []), Hname.
  split_and!; vm_compute; reflexivity.
Defined.

(** The pop after the first partition of "a" times out; a worker error at
    the same place stops "a". *)
Lemma queue_timeout_is_not_an_abort_witness :
  outcome_result
    (read always_RECORD example_source ["a"; "b"]
       ([Pop (ItemPartition example_partition) false []] ++ TimeoutExpired :: []))
  = inl QueueEmpty ∧
  shutdowns
    (outcome_trace
       (read always_RECORD example_source ["a"; "b"]
          ([Pop (ItemPartition example_partition) false []] ++ TimeoutExpired :: [])))
  = 0 ∧
  incomplete_streams
    (outcome_trace
       (read always_RECORD example_source ["a"; "b"]
          ([Pop (ItemPartition example_partition) false []] ++ TimeoutExpired :: [])))
  = [] ∧
  incomplete_streams
    (outcome_trace
       (read always_RECORD example_source ["a"; "b"]
          ([Pop (ItemPartition example_partition) false []] ++
           Pop (ItemException (WorkerError "boom")) true [] :: [])))
  = ["a"].
Proof.
  pose (waiting :=
    read always_RECORD example_source ["a"; "b"]
      [Pop (ItemPartition example_partition) false []]).
  assert (waiting = Return Blocked (outcome_state waiting) (outcome_trace waiting))
    as Hwaiting.
  { apply blocked_eta. vm_compute. reflexivity. }
  pose proof (queue_timeout_is_not_an_abort always_RECORD example_source ["a"; "b"]
                [Pop (ItemPartition example_partition) false []] [] _ _ Hwaiting)
    as Hstall.
  cbv zeta in Hstall.
  destruct Hstall as (Hstalled & Hshutdowns & Hnone & _ & Haborted).
  destruct (Haborted (WorkerError "boom") true []) as (_ & _ & Hincomplete).
  split_and!; [by rewrite Hstalled|exact Hshutdowns|exact Hnone|].
  rewrite Hincomplete. vm_compute. reflexivity.
Defined.

(** Only the unavailable stream "u" is configured: the queue is not read. *)
Lemma no_eligible_stream_witness :
  outcome_result
    (read always_RECORD example_source ["u"]
       [Pop (PartitionGenerationCompletedSentinel "u") true []])
  = inl IndexError.
Proof.
  destruct (no_eligible_stream always_RECORD example_source ["u"]
              [Pop (PartitionGenerationCompletedSentinel "u") true []])
    as (tr & Hread & _).
  - vm_compute. reflexivity.
  - rewrite Hread. vm_compute. reflexivity.
Defined.

(** No stream is eligible, and the error is not that of popping the empty
    list of generators: it is the [KeyError] of the selection loop, or the
    [ValueError] of a stream that is not a [StreamFacade]. *)
Lemma missing_stream_raises_KeyError :
  eligible_streams (stream_instances_of example_source) ["ghost"] = [] ∧
  outcome_result (read always_RECORD example_source ["ghost"] [])
  = inl (KeyError "ghost") ∧
  eligible_streams (stream_instances_of example_source_with_legacy_stream) ["ghost"] = [] ∧
  outcome_result (read always_RECORD example_source_with_legacy_stream ["ghost"] [])
  = inl (ValueError "legacy").
Proof. split_and!; vm_compute; reflexivity. Qed.
